(** * Balanced hierarchical k-means (raft::spatial::knn::detail::kmeans)

    A shallow embedding of the k-means engine of [ann_kmeans_balanced.cuh]
    and of the row reductions of [ann_utils.cuh], with the properties of the
    natural-language specification stated and settled against it.

    Conventions.
    - Unsigned 32-bit values ([uint32_t]) are integers in [Z] with the
      wrap-around written out by [u32]; the index type [IdxT] is the signed
      64-bit type the callers instantiate it with and is kept in [Z].
    - Arrays are lists read with stdpp's lookup and written with its insert;
      a row-major matrix [n_rows, dim] is a list of rows.
    - A call either returns, stops on a [RAFT_FAIL]/[RAFT_EXPECTS], or runs
      out of the fuel that bounds its loops: see [result]. *)

From Stdlib Require Import ZArith List Lia Bool Floats Reals Lra.
From stdpp Require Import base tactics option list numbers.
Import ListNotations.

Local Open Scope Z_scope.

(** ** Part I: the program *)

(** *** Machine integers and outcomes *)

Definition u32 (x : Z) : Z := x mod 2 ^ 32.

Definition in_u32 (x : Z) : Prop := 0 <= x < 2 ^ 32.

(** Modelled from the spec: the enumeration [raft::distance::DistanceType] is
    declared outside the sources at hand; the metrics the engine names are
    constructors and every other one is [OtherMetric] with its code. *)
Inductive DistanceType : Type :=
| L2Expanded
| L2SqrtExpanded
| CosineExpanded
| InnerProduct
| CorrelationExpanded
| OtherMetric (code : Z).

(** The sites at which the sources stop a call. *)
Inductive error : Type :=
| unsupported_metric (metric : DistanceType)
| mixed_residency
| memset_unreachable
| mesocluster_sizes_mismatch (sum n_rows : Z)
| fine_clusters_mismatch (csum n_clusters : Z)
| index_type_too_small.

Inductive result (A : Type) : Type :=
| Ok (a : A)
| Fail (e : error)
| OutOfFuel.

Arguments Ok {A} a.
Arguments Fail {A} e.
Arguments OutOfFuel {A}.

Definition bind {A B : Type} (m : result A) (k : A -> result B) : result B :=
  match m with
  | Ok a => k a
  | Fail e => Fail e
  | OutOfFuel => OutOfFuel
  end.

Notation "'do' x <- m ; k" := (bind m (fun x => k))
  (at level 10, x pattern, m at level 100, k at level 200).

(** Array read [a[i]]; reads outside the array are not defined by the source
    and yield the default. *)
Definition rd {A : Type} (d : A) (a : list A) (i : Z) : A :=
  if i <? 0 then d else default d (a !! Z.to_nat i).

(** Array write [a[i] = v]. *)
Definition wr {A : Type} (a : list A) (i : Z) (v : A) : list A :=
  if i <? 0 then a else <[Z.to_nat i := v]> a.

Definition zsum (l : list Z) : Z := foldr Z.add 0 l.

(** *** arrange_fine_clusters *)

Module Arrange.

(** [uint32_t((double)n_lists_rem * mesocluster_sizes[i] / n_rows_rem + .5)]:
    the quotient rounded half up.  The double product and quotient are taken
    exactly, which they are whenever the product stays below [2 ^ 52]. *)
Definition proportional_share (n_lists_rem size n_rows_rem : Z) : Z :=
  u32 ((2 * n_lists_rem * size + n_rows_rem) / (2 * n_rows_rem)).

Record state : Type := mk_state {
  fine_clusters_nums : list Z;
  fine_clusters_csum : list Z;
  n_lists_rem : Z;
  n_nonempty_ms_rem : Z;
  n_rows_rem : Z;
  mesocluster_size_sum : Z;
  mesocluster_size_max : Z;
  fine_clusters_nums_max : Z
}.

(** The first loop: the number of mesoclusters that are not empty. *)
Definition count_nonempty (n_mesoclusters : nat) (mesocluster_sizes : list Z) : Z :=
  foldl (fun acc i => u32 (acc + (if 0 <? rd 0 mesocluster_sizes i then 1 else 0)))
        0 (Z.of_nat <$> seq 0 n_mesoclusters).

(** The body of the second loop at index [i]. *)
Definition body (n_mesoclusters : Z) (mesocluster_sizes : list Z)
    (st : state) (i : Z) : state :=
  let size := rd 0 mesocluster_sizes i in
  let '(num, nonempty) :=
    if i <? u32 (n_mesoclusters - 1) then
      if size =? 0 then (0, n_nonempty_ms_rem st)
      else
        let nonempty := u32 (n_nonempty_ms_rem st - 1) in
        let s := proportional_share (n_lists_rem st) size (n_rows_rem st) in
        let s := Z.min s (u32 (n_lists_rem st - nonempty)) in
        (Z.max s 1, nonempty)
    else (n_lists_rem st, n_nonempty_ms_rem st) in
  {| fine_clusters_nums := wr (fine_clusters_nums st) i num;
     fine_clusters_csum :=
       wr (fine_clusters_csum st) (i + 1) (u32 (rd 0 (fine_clusters_csum st) i + num));
     n_lists_rem := u32 (n_lists_rem st - num);
     n_nonempty_ms_rem := nonempty;
     n_rows_rem := n_rows_rem st - size;
     mesocluster_size_sum := mesocluster_size_sum st + size;
     mesocluster_size_max := Z.max (mesocluster_size_max st) size;
     fine_clusters_nums_max := Z.max (fine_clusters_nums_max st) num |}.

Definition init (n_clusters : Z) (n_mesoclusters : nat) (n_rows : Z)
    (mesocluster_sizes : list Z) : state :=
  {| fine_clusters_nums := replicate n_mesoclusters 0;
     fine_clusters_csum := replicate (S n_mesoclusters) 0;
     n_lists_rem := n_clusters;
     n_nonempty_ms_rem := count_nonempty n_mesoclusters mesocluster_sizes;
     n_rows_rem := n_rows;
     mesocluster_size_sum := 0;
     mesocluster_size_max := 0;
     fine_clusters_nums_max := 0 |}.

Definition loop (n_clusters : Z) (n_mesoclusters : nat) (n_rows : Z)
    (mesocluster_sizes : list Z) (upto : nat) : state :=
  foldl (body (Z.of_nat n_mesoclusters) mesocluster_sizes)
        (init n_clusters n_mesoclusters n_rows mesocluster_sizes)
        (Z.of_nat <$> seq 0 upto).

(** Returns [(mesocluster_size_max, fine_clusters_nums_max,
    fine_clusters_nums, fine_clusters_csum)]. *)
Definition arrange_fine_clusters (n_clusters : Z) (n_mesoclusters : nat) (n_rows : Z)
    (mesocluster_sizes : list Z) : result (Z * Z * list Z * list Z) :=
  let st := loop n_clusters n_mesoclusters n_rows mesocluster_sizes n_mesoclusters in
  if negb (mesocluster_size_sum st =? n_rows) then
    Fail (mesocluster_sizes_mismatch (mesocluster_size_sum st) n_rows)
  else
    let last := rd 0 (fine_clusters_csum st) (Z.of_nat n_mesoclusters) in
    if negb (last =? n_clusters) then Fail (fine_clusters_mismatch last n_clusters)
    else Ok (mesocluster_size_max st, fine_clusters_nums_max st,
             fine_clusters_nums st, fine_clusters_csum st).

End Arrange.

(** *** Single-precision arithmetic

    The sources compute on [float].  The operations the engine uses are an
    interface with two implementations: IEEE binary32 with round to nearest
    even ([Binary32], executable), and the real numbers ([ExactReal]), in
    which no operation rounds. *)

Class FloatOps (F : Type) : Type := {
  f_zero : F;                 (* 0.0f *)
  f_one : F;                  (* 1.0f *)
  f_add : F -> F -> F;
  f_sub : F -> F -> F;
  f_mul : F -> F -> F;
  f_div : F -> F -> F;
  f_sqrt : F -> F;
  f_rsqrt : F -> F;           (* rsqrtf: reciprocal of the square root *)
  f_lt : F -> F -> bool;      (* a < b; a > b is f_lt b a *)
  f_eq : F -> F -> bool;      (* a == b *)
  f_le_1e_8 : F -> bool;      (* a <= 1e-8, compared in double *)
  f_of_Z : Z -> F;            (* static_cast<float> of an integer *)
  f_to_u32 : F -> Z           (* static_cast<uint32_t>: truncation *)
}.

(** Constants of [float] declared outside the sources at hand:
    [raft::upper_bound<float>()] and [std::numeric_limits<float>::max()]. *)
Class FloatLimits (F : Type) : Type := {
  upper_bound : F;
  float_max : F
}.

Module Binary32.

Definition prec : Z := 24.
Definition emax : Z := 128.

Definition of_Z (z : Z) : spec_float := binary_normalize prec emax z 0 false.

(** Conversion to [uint32_t] truncates; outside the range of the target the
    conversion is not defined by the language and yields 0 here. *)
Definition to_u32 (x : spec_float) : Z :=
  match x with
  | S754_finite false m e =>
      let z := if 0 <=? e then Z.pos m * 2 ^ e else Z.pos m / 2 ^ (- e) in
      if z <? 2 ^ 32 then z else 0
  | _ => 0
  end.

(** [x <= m * 2 ^ e], the comparison of a float with a double constant. *)
Definition le_dyadic (x : spec_float) (m : positive) (e : Z) : bool :=
  match x with
  | S754_zero _ => true
  | S754_infinity s => s
  | S754_nan => false
  | S754_finite true _ _ => true
  | S754_finite false mx ex =>
      let k := Z.min ex e in
      Z.pos mx * 2 ^ (ex - k) <=? Z.pos m * 2 ^ (e - k)
  end.

(** The double nearest to [1e-8] is [0x1.5798ee2308c3ap-27]. *)
Definition le_1e_8 (x : spec_float) : bool := le_dyadic x 6044629098073146 (-79).

Definition one : spec_float := SFone prec emax.

#[global] Instance ops : FloatOps spec_float := {|
  f_zero := S754_zero false;
  f_one := one;
  f_add := SFadd prec emax;
  f_sub := SFsub prec emax;
  f_mul := SFmul prec emax;
  f_div := SFdiv prec emax;
  f_sqrt := SFsqrt prec emax;
  f_rsqrt := fun x => SFdiv prec emax one (SFsqrt prec emax x);
  f_lt := SFltb;
  f_eq := SFeqb;
  f_le_1e_8 := le_1e_8;
  f_of_Z := of_Z;
  f_to_u32 := to_u32
|}.

#[global] Instance limits : FloatLimits spec_float := {|
  upper_bound := S754_infinity false;
  float_max := SFmax_float prec emax
|}.

End Binary32.

Module ExactReal.

Local Open Scope R_scope.

#[global] Instance Rlt_decision (x y : R) : Decision (x < y) := Rlt_dec x y.
#[global] Instance Rle_decision (x y : R) : Decision (x <= y) := Rle_dec x y.
#[global] Instance Req_decision : EqDecision R := Req_EM_T.

#[global] Instance ops : FloatOps R := {|
  f_zero := 0;
  f_one := 1;
  f_add := Rplus;
  f_sub := Rminus;
  f_mul := Rmult;
  f_div := Rdiv;
  f_sqrt := sqrt;
  f_rsqrt := fun x => / sqrt x;
  f_lt := fun x y => bool_decide (x < y);
  f_eq := fun x y => bool_decide (x = y);
  f_le_1e_8 := fun x => bool_decide (x <= / 100000000);
  f_of_Z := IZR;
  f_to_u32 := fun x => u32 (Int_part x)
|}.

End ExactReal.

(** *** Dataset elements *)

Definition is_L2 (metric : DistanceType) : bool :=
  match metric with
  | L2Expanded | L2SqrtExpanded => true
  | _ => false
  end.

(** [utils::mapping<float>] from each dataset element type: the identity on
    [float], a division by 256 on [uint8_t] and by 128 on [int8_t]
    ([config<T>::kDivisor]); the sources multiply by the float nearest to the
    quotient of the divisors. *)
Module Mapping.
Section Mapping.
Context {F : Type} {FO : FloatOps F}.

Definition of_float (x : F) : F := x.

Definition of_uint8 (x : Z) : F :=
  f_mul (f_of_Z x) (f_div f_one (f_of_Z 256)).

Definition of_int8 (x : Z) : F :=
  f_mul (f_of_Z x) (f_div f_one (f_of_Z 128)).

End Mapping.
End Mapping.

(** [utils::mapping<uint8_t>] and [utils::mapping<int8_t>] in single
    precision: from [float] the value is multiplied by the divisor of the
    target and converted; between the two integer types it goes through
    [float].  The conversion of a float to an integer type truncates, and is
    not defined ([None]) when the truncated value is not in the type. *)
Module Narrow.

(** The value of a finite float truncated towards zero. *)
Definition truncate (x : spec_float) : option Z :=
  match x with
  | S754_zero _ => Some 0
  | S754_finite s m e =>
      let z := if 0 <=? e then Z.pos m * 2 ^ e else Z.pos m / 2 ^ (- e) in
      Some (if s then - z else z)
  | S754_infinity _ | S754_nan => None
  end.

Definition cast_uint8 (x : spec_float) : option Z :=
  match truncate x with
  | Some z => if (0 <=? z) && (z <? 256) then Some z else None
  | None => None
  end.

Definition cast_int8 (x : spec_float) : option Z :=
  match truncate x with
  | Some z => if (-128 <=? z) && (z <? 128) then Some z else None
  | None => None
  end.

(** [static_cast<T>(x * static_cast<S>(kMult))] with [S = float]. *)
Definition uint8_of_float (x : spec_float) : option Z :=
  cast_uint8 (f_mul x (f_of_Z 256)).

Definition int8_of_float (x : spec_float) : option Z :=
  cast_int8 (f_mul x (f_of_Z 128)).

(** [static_cast<T>(static_cast<float>(x) * static_cast<float>(kMult))] with
    [kMult = 256.0 / 128.0] and [128.0 / 256.0]. *)
Definition uint8_of_int8 (x : Z) : option Z :=
  cast_uint8 (f_mul (f_of_Z x) (f_of_Z 2)).

Definition int8_of_uint8 (x : Z) : option Z :=
  cast_int8 (f_mul (f_of_Z x) (f_div f_one (f_of_Z 2))).

End Narrow.

(** *** Row reductions (ann_utils.cuh) *)

Module Utils.

(** Whether pointers are accessible on the device or on the host. *)
Inductive pointer_residency : Type :=
| mixed
| host_and_device
| host_only
| device_only.

(** The memory type the CUDA runtime reports for a pointer. *)
Inductive cudaMemoryType : Type :=
| cudaMemoryTypeUnregistered
| cudaMemoryTypeHost
| cudaMemoryTypeDevice
| cudaMemoryTypeManaged
| cudaMemoryTypeOther.

(** [(on_device, on_host)] *)
Fixpoint pointer_residency_count (ptrs : list cudaMemoryType) : Z * Z :=
  match ptrs with
  | [] => (0, 0)
  | ptr :: ptrs =>
      let '(on_device, on_host) := pointer_residency_count ptrs in
      match ptr with
      | cudaMemoryTypeUnregistered | cudaMemoryTypeHost => (on_device, on_host + 1)
      | cudaMemoryTypeDevice => (on_device + 1, on_host)
      | cudaMemoryTypeManaged => (on_device + 1, on_host + 1)
      | cudaMemoryTypeOther => (on_device, on_host)
      end
  end.

Definition check_pointer_residency (ptrs : list cudaMemoryType) : pointer_residency :=
  let '(on_device, on_host) := pointer_residency_count ptrs in
  let n_args := Z.of_nat (length ptrs) in
  if (on_device =? n_args) && (on_host =? n_args) then host_and_device
  else if on_device =? n_args then device_only
  else if on_host =? n_args then host_only
  else mixed.

(** [for (j = start; j < n; j += step) s = body j s]; with a positive step
    the loop ends within [n] rounds. *)
Fixpoint strided_loop {S : Type} (fuel : nat) (j step n : nat)
    (body : nat -> S -> S) (s : S) : S :=
  match fuel with
  | O => s
  | Datatypes.S fuel' =>
      if (j <? n)%nat then strided_loop fuel' (j + step) step n body (body j s) else s
  end.

Definition WarpSize : nat := 32.

Section Kernels.
Context {F : Type} {FO : FloatOps F} {FL : FloatLimits F}.

(** **** argmin_along_rows *)

(** One round of a thread's scan: [if (min_val > a[j]) { min_val = a[j]; min_idx = j; }] *)
Definition argmin_scan (row : list F) (j : nat) (st : F * nat) : F * nat :=
  let a := default f_zero (row !! j) in
  if f_lt a (fst st) then (a, j) else st.

(** The pair [(min_val, min_idx)] thread [tx] stores to shared memory. *)
Definition argmin_thread (n_cols block_dim : nat) (row : list F) (tx : nat) : F * nat :=
  strided_loop n_cols tx block_dim n_cols (argmin_scan row) (upper_bound, n_cols).

(** What thread [tx] leaves in [shm_vals[tx]], [shm_ids[tx]] in one round of
    the reduction, given its own pair and the pair at [tx + offset]. *)
Definition argmin_merge (p q : F * nat) : F * nat :=
  if f_lt (fst p) (fst q) then p
  else if f_lt (fst q) (fst p) then q
  else if (snd q <? snd p)%nat then (fst p, snd q)
  else p.

(** One round: the threads below [offset] merge, the others wait. *)
Definition argmin_round (offset : nat) (shm : list (F * nat)) : list (F * nat) :=
  imap (fun tx p =>
          if (tx <? offset)%nat
          then match shm !! (tx + offset)%nat with
               | Some q => argmin_merge p q
               | None => p
               end
          else p) shm.

(** [for (offset = blockDim.x / 2; offset > 0; offset >>= 1)] *)
Fixpoint argmin_reduce (fuel : nat) (offset : nat) (shm : list (F * nat))
    : list (F * nat) :=
  match fuel with
  | O => shm
  | Datatypes.S fuel' =>
      if (0 <? offset)%nat
      then argmin_reduce fuel' (offset / 2) (argmin_round offset shm)
      else shm
  end.

(** The block of row [i]: the index written to [out[i]]. *)
Definition argmin_along_rows_kernel (n_cols block_dim : nat) (row : list F) : nat :=
  let shm := argmin_thread n_cols block_dim row <$> seq 0 block_dim in
  let shm := argmin_reduce block_dim (block_dim / 2) shm in
  match shm with
  | p :: _ => snd p
  | [] => 0%nat
  end.

(** [while (block_dim > n_cols) block_dim /= 2;] *)
Fixpoint halve_block_dim (fuel : nat) (block_dim n_cols : nat) : nat :=
  match fuel with
  | O => block_dim
  | Datatypes.S fuel' =>
      if (n_cols <? block_dim)%nat then halve_block_dim fuel' (block_dim / 2) n_cols
      else block_dim
  end.

Definition argmin_block_dim (n_cols : nat) : nat :=
  Nat.max (halve_block_dim 11 1024 n_cols) 128.

(** One block per row of the matrix [a] of [n_cols] columns. *)
Definition argmin_along_rows (n_cols : nat) (a : list (list F)) : list Z :=
  (fun row => Z.of_nat (argmin_along_rows_kernel n_cols (argmin_block_dim n_cols) row))
    <$> a.

(** **** normalize_rows *)

(** The sum of squares lane [tx] gathers over its columns. *)
Definition lane_sqsum (n_cols : nat) (row : list F) (tx : nat) : F :=
  strided_loop n_cols tx WarpSize n_cols
    (fun j sqsum => let val := default f_zero (row !! j) in f_add sqsum (f_mul val val))
    f_zero.

(** [sqsum += __shfl_xor_sync(0xffffffff, sqsum, mask)] in every lane. *)
Definition shfl_xor_add (mask : nat) (lanes : list F) : list F :=
  imap (fun tx sqsum => f_add sqsum (default f_zero (lanes !! Nat.lxor tx mask))) lanes.

Definition warp_sqsum (n_cols : nat) (row : list F) : list F :=
  let lanes := lane_sqsum n_cols row <$> seq 0 WarpSize in
  shfl_xor_add 16 (shfl_xor_add 8 (shfl_xor_add 4 (shfl_xor_add 2 (shfl_xor_add 1 lanes)))).

(** The warp of one row: a lane whose sum is at most [1e-8] returns, the
    others scale their columns by the reciprocal square root of their sum. *)
Definition normalize_rows_kernel (n_cols : nat) (row : list F) : list F :=
  let sums := warp_sqsum n_cols row in
  imap (fun j val =>
          if (j <? n_cols)%nat then
            let sqsum := default f_zero (sums !! (j mod WarpSize)%nat) in
            if f_le_1e_8 sqsum then val else f_mul val (f_rsqrt sqsum)
          else val) row.

Definition normalize_rows (n_rows n_cols : nat) (a : list (list F)) : list (list F) :=
  imap (fun i row => if (i <? n_rows)%nat then normalize_rows_kernel n_cols row else row) a.

(** **** map_along_rows: [m[i, j] = op(m[i, j], v[i])] *)

Definition map_along_rows (n_rows : nat) (m : list (list F)) (v : list Z)
    (op : F -> Z -> F) : list (list F) :=
  imap (fun i row =>
          if (i <? n_rows)%nat
          then match v !! i with
               | Some d => (fun x => op x d) <$> row
               | None => row
               end
          else row) m.

End Kernels.

(** **** Grids of threads that write one cell each *)

(** A grid of [n] threads on the memory [mem]; the kernels below have no two
    threads writing the same cell, and the threads are taken in the order of
    their index. *)
Definition launch {M : Type} (n : Z) (thread : Z -> M -> M) (mem : M) : M :=
  foldl (fun m gid => thread gid m) mem (seqZ 0 n).

(** [ceildiv(a, b)] of cuda_utils.cuh. *)
Definition ceildiv (a b : Z) : Z := (a + b - 1) / b.

Section Copies.
Context {F : Type} {FO : FloatOps F} {FL : FloatLimits F}.

(** **** dots_along_rows *)

(** The warp of one row: lane 0 writes the sum to [out[i]]. *)
Definition dots_along_rows_kernel (n_cols : nat) (row : list F) : F :=
  default f_zero (warp_sqsum n_cols row !! 0%nat).

Definition dots_along_rows (n_rows n_cols : nat) (a : list (list F)) (out : list F)
    : list F :=
  imap (fun i o =>
          if (i <? n_rows)%nat
          then match a !! i with
               | Some row => dots_along_rows_kernel n_cols row
               | None => o
               end
          else o) out.

(** **** outer_add *)

(** Thread [gid] of [outer_add_kernel]; [None] stands for [nullptr]. *)
Definition outer_add_kernel (a : option (list F)) (len_a : Z) (b : option (list F))
    (len_b : Z) (gid : Z) (c : list F) : list F :=
  let i := gid / len_b in
  let j := gid mod len_b in
  if len_a <=? i then c
  else wr c gid
         (f_add (match a with None => f_zero | Some a => rd f_zero a i end)
                (match b with None => f_zero | Some b => rd f_zero b j end)).

(** Fill matrix [c] with all combinations of sums of vectors [a] and [b]. *)
Definition outer_add (a : option (list F)) (len_a : Z) (b : option (list F))
    (len_b : Z) (c : list F) : list F :=
  let threads := 128 in
  let blocks := ceildiv (len_a * len_b) threads in
  launch (blocks * threads) (outer_add_kernel a len_a b len_b) c.

End Copies.

Section BlockCopy.
Context {A : Type} (a0 : A).

(** [while (l + 1 < r)]: the binary search of the source block of element
    [i]; returns [(l, in_offset)]. *)
Fixpoint block_copy_search (fuel : nat) (in_offsets : list Z) (n_mult i : Z)
    (l r in_offset : Z) : result (Z * Z) :=
  match fuel with
  | O => OutOfFuel
  | S fuel' =>
      if u32 (l + 1) <? r then
        let c := Z.shiftr (u32 (l + r)) 1 in
        let o := rd 0 in_offsets c * n_mult in
        if o <=? i then block_copy_search fuel' in_offsets n_mult i c r o
        else block_copy_search fuel' in_offsets n_mult i l c in_offset
      else Ok (l, in_offset)
  end.

(** Thread [i] of [block_copy_kernel]; [a0] is what a read outside [in_data]
    yields. *)
Definition block_copy_kernel (fuel : nat) (in_offsets out_offsets : list Z)
    (n_blocks : Z) (in_data : list A) (n_mult : Z) (i : Z) (out_data : result (list A))
    : result (list A) :=
  do out_data <- out_data;
  let l := 0 in
  let r := n_blocks in
  let in_offset := 0 in
  if rd 0 in_offsets r * n_mult <=? i then Ok out_data
  else
    do lo <- block_copy_search fuel in_offsets n_mult i l r in_offset;
    let '(l, in_offset) := lo in
    Ok (wr out_data (rd 0 out_offsets l * n_mult - in_offset + i) (rd a0 in_data i)).

(** Copy chunks of data from one array to another at given offsets. *)
Definition block_copy (fuel : nat) (in_offsets out_offsets : list Z) (n_blocks : Z)
    (in_data out_data : list A) (n_mult : Z) : result (list A) :=
  let in_size := rd 0 in_offsets n_blocks in
  let threads := 128 in
  let blocks := ceildiv (in_size * n_mult) threads in
  launch (blocks * threads)
    (block_copy_kernel fuel in_offsets out_offsets n_blocks in_data n_mult)
    (Ok out_data).

End BlockCopy.

Section CopySelected.
Context {S T : Type} (mapping : S -> T) (s0 : S).

(** Thread [gid] of [copy_selected_kernel]; [s0] is what a read outside
    [src] yields. *)
Definition copy_selected_kernel (n_rows n_cols : Z) (src : list S) (row_ids : list Z)
    (ld_src ld_dst : Z) (gid : Z) (dst : list T) : list T :=
  let j := gid mod n_cols in
  let i_dst := gid / n_cols in
  if n_rows <=? i_dst then dst
  else
    let i_src := rd 0 row_ids i_dst in
    wr dst (ld_dst * i_dst + j) (mapping (rd s0 src (ld_src * i_src + j))).

(** The host side: the two nested loops. *)
Definition copy_selected_host (n_rows n_cols : Z) (src : list S) (row_ids : list Z)
    (ld_src ld_dst : Z) (dst : list T) : list T :=
  foldl (fun dst i_dst =>
           let i_src := rd 0 row_ids i_dst in
           foldl (fun dst j =>
                    wr dst (ld_dst * i_dst + j) (mapping (rd s0 src (ld_src * i_src + j))))
                 dst (seqZ 0 n_cols))
        dst (seqZ 0 n_rows).

(** Copy selected rows of a matrix while mapping the data from the source to
    the target type.  [ptrs] are the memory types of [src], [dst] and
    [row_ids]. *)
Definition copy_selected (ptrs : list cudaMemoryType) (n_rows n_cols : Z)
    (src : list S) (row_ids : list Z) (ld_src : Z) (dst : list T) (ld_dst : Z)
    : result (list T) :=
  match check_pointer_residency ptrs with
  | host_and_device | device_only =>
      let block_dim := 128 in
      let grid_dim := ceildiv (n_rows * n_cols) block_dim in
      Ok (launch (grid_dim * block_dim)
            (copy_selected_kernel n_rows n_cols src row_ids ld_src ld_dst) dst)
  | host_only => Ok (copy_selected_host n_rows n_cols src row_ids ld_src ld_dst dst)
  | mixed => Fail mixed_residency
  end.

End CopySelected.

End Utils.

(** *** The k-means engine (ann_kmeans_balanced.cuh) *)

Module Kmeans.

(** Replaces [labels[offset ..]] by [out]. *)
Definition write_at {A : Type} (offset : nat) (out : list A) (a : list A) : list A :=
  take offset a ++ out ++ drop (offset + length out) a.

(** Modelled from the spec: the label-counting primitive
    [raft::cluster::detail::countLabels], "producing per-label counts from a
    label array"; the counts are stored as [uint32_t]. *)
Definition countLabels (labels : list Z) (n_clusters : nat) : list Z :=
  (fun k => u32 (Z.of_nat (length (filter (fun l => l = Z.of_nat k) labels))))
    <$> seq 0 n_clusters.

Section Engine.
Context {F : Type} {FO : FloatOps F} {FL : FloatLimits F}.
Context {T : Type} (mapping : T -> F) (is_float : bool).

Definition kAdjustCentersWeight : F := f_of_Z 7.

(** Modelled from the spec: the row-norm primitive [raft::linalg::rowNorm]
    with [L2Norm] and no square root, the squared L2 norm of every row. *)
Definition rowNorm (m : list (list F)) : list F :=
  (fun row => foldl (fun acc x => f_add acc (f_mul x x)) f_zero row) <$> m.

Definition dot (x y : list F) : F :=
  foldl (fun acc ab => f_add acc (f_mul (fst ab) (snd ab))) f_zero (zip x y).

(** Modelled from the spec: the dense-matrix-multiply primitive
    [linalg::gemm], called with the centers transposed and [beta = 0], fills
    the row-major matrix [n_rows, n_clusters] of the products
    [alpha * <center, row>]. *)
Definition gemm (alpha : F) (centers dataset : list (list F)) : list (list F) :=
  (fun x => (fun c => f_mul alpha (dot c x)) <$> centers) <$> dataset.

(** Modelled from the spec: the fused nearest-center primitive
    [raft::distance::fusedL2NNMinReduce], "producing (index, distance) pairs":
    for every row the nearest center under the expanded L2 distance, the
    square root taken when [sqrt] is set; the reduction starts from the pair
    already in the output ([initOutBuffer = false]) and, as the spec requires
    of Predict, keeps the lowest index among equal distances. *)
Definition l2_expanded (sqrt : bool) (x : list F) (xn : F) (c : list F) (cn : F) : F :=
  let d := f_sub (f_add xn cn) (f_mul (f_of_Z 2) (dot x c)) in
  if sqrt then f_sqrt d else d.

Definition min_reduce (init : Z * F) (dists : list F) : Z * F :=
  fst (foldl (fun st d =>
                let '(cur, k) := st in
                (if f_lt d (snd cur) then (k, d) else cur, k + 1))
             (init, 0) dists).

Definition fusedL2NNMinReduce (out : list (Z * F)) (dataset : list (list F))
    (centers : list (list F)) (dataset_norm centers_norm : list F) (sqrt : bool)
    : list (Z * F) :=
  imap (fun i init =>
          match dataset !! i, dataset_norm !! i with
          | Some x, Some xn =>
              min_reduce init
                ((fun cn => l2_expanded sqrt x xn (fst cn) (snd cn))
                   <$> zip centers centers_norm)
          | _, _ => init
          end) out.

(** Returns the labels written to [labels]; a call that fails has written
    none. *)
Definition predict_float_core (centers : list (list F)) (n_clusters : nat)
    (dataset : list (list F)) (dataset_norm : option (list F)) (n_rows : nat)
    (metric : DistanceType) : result (list Z) :=
  match metric with
  | L2Expanded | L2SqrtExpanded =>
      let initial_value := (0, float_max) in
      let minClusterAndDistance := replicate n_rows initial_value in
      let centroidsNorm := rowNorm centers in
      let minClusterAndDistance :=
        fusedL2NNMinReduce minClusterAndDistance dataset centers
          (default [] dataset_norm) centroidsNorm
          (match metric with L2Expanded => false | _ => true end) in
      Ok (fst <$> minClusterAndDistance)
  | InnerProduct =>
      let alpha := f_of_Z (-1) in
      let distances := gemm alpha centers (take n_rows dataset) in
      Ok (Utils.argmin_along_rows n_clusters distances)
  | _ => Fail (unsupported_metric metric)
  end.

Definition ceildiv (a b : Z) : Z := (a + b - 1) / b.

(** Suggest a minibatch size for kmeans prediction. *)
Definition calc_minibatch_size (n_clusters n_rows dim : Z) (metric : DistanceType) : Z :=
  let n_clusters := Z.max 1 n_clusters in
  let mem_per_row := 0 in
  let mem_per_row :=
    if negb (is_L2 metric) then mem_per_row + 4 * n_clusters else mem_per_row + 4 in
  let mem_per_row := if negb is_float then mem_per_row + 4 * dim else mem_per_row in
  let minibatch_size := 2 ^ 30 / mem_per_row in
  let minibatch_size := 64 * ceildiv minibatch_size 64 in
  Z.min minibatch_size n_rows.

(** The minibatch loop of [predict], from [offset] on. *)
Fixpoint predict_loop (fuel : nat) (centers : list (list F)) (n_clusters : nat)
    (dataset : list (list T)) (n_rows : Z) (metric : DistanceType)
    (dataset_norm : option (list F)) (max_minibatch_size : Z)
    (offset : Z) (labels : list Z) : result (list Z) :=
  match fuel with
  | O => OutOfFuel
  | S fuel' =>
      if offset <? n_rows then
        let minibatch_size := Z.min max_minibatch_size (n_rows - offset) in
        let cur_dataset :=
          (fun row : list T => mapping <$> row)
            <$> take (Z.to_nat minibatch_size) (drop (Z.to_nat offset) dataset) in
        let need_compute_norm :=
          match dataset_norm with None => is_L2 metric | Some _ => false end in
        let dataset_norm_ptr :=
          if need_compute_norm then Some (rowNorm cur_dataset)
          else drop (Z.to_nat offset) <$> dataset_norm in
        do out <- predict_float_core centers n_clusters cur_dataset dataset_norm_ptr
                    (Z.to_nat minibatch_size) metric;
        predict_loop fuel' centers n_clusters dataset n_rows metric dataset_norm
          max_minibatch_size (offset + max_minibatch_size)
          (write_at (Z.to_nat offset) out labels)
      else Ok labels
  end.

(** Predict labels for the dataset. *)
Definition predict (fuel : nat) (centers : list (list F)) (n_clusters : nat) (dim : Z)
    (dataset : list (list T)) (n_rows : Z) (labels : list Z) (metric : DistanceType)
    (dataset_norm : option (list F)) : result (list Z) :=
  let max_minibatch_size := calc_minibatch_size (Z.of_nat n_clusters) n_rows dim metric in
  predict_loop fuel centers n_clusters dataset n_rows metric dataset_norm
    max_minibatch_size 0 labels.

(** **** calc_centers_and_sizes *)

(** [acc[j] += row[j]] over the columns of the accumulator. *)
Definition add_row (acc row : list F) : list F :=
  imap (fun j a => match row !! j with Some x => f_add a x | None => a end) acc.

(** Modelled from the spec: [raft::linalg::reduce_rows_by_key] adds every row
    of the (converted) dataset to the output row of its label, after clearing
    the output when [reset_sums] is set; rows are taken in order. *)
Definition reduce_rows_by_key (dataset : list (list T)) (labels : list Z)
    (dim n_clusters : nat) (centers : list (list F)) (reset_sums : bool)
    : list (list F) :=
  let init := if reset_sums then replicate n_clusters (replicate dim f_zero) else centers in
  foldl (fun out rl =>
           let '(row, l) := rl in
           if l <? 0 then out
           else alter (fun acc => add_row acc (mapping <$> row)) (Z.to_nat l) out)
        init (zip dataset labels).

(** Modelled from the spec: [raft::linalg::matrixVectorOp] with a vector
    broadcast along the columns: [out[i, j] = op(m[i, j], vec[i])]. *)
Definition matrixVectorOp (m : list (list F)) (vec : list F) (op : F -> F -> F)
    : list (list F) :=
  imap (fun i row =>
          match vec !! i with
          | Some v => (fun x => op x v) <$> row
          | None => row
          end) m.

(** The division of a center by the weight of its cluster. *)
Definition divide_guarded (mat vec : F) : F :=
  if f_eq vec f_zero then f_zero else f_div mat vec.

(** Given the data and labels, calculate cluster centers and sizes in one
    sweep.  Returns the new [centers] and [cluster_sizes]. *)
Definition calc_centers_and_sizes (centers : list (list F)) (cluster_sizes : list Z)
    (n_clusters dim : nat) (dataset : list (list T)) (labels : list Z)
    (reset_counters : bool) : list (list F) * list Z :=
  let centers :=
    if negb reset_counters
    then Utils.map_along_rows n_clusters centers cluster_sizes
           (fun c s => f_mul c (f_of_Z s))
    else centers in
  let centers := reduce_rows_by_key dataset labels dim n_clusters centers reset_counters in
  let temp_sizes := countLabels labels n_clusters in
  let sizes :=
    imap (fun idx temp_size =>
            if negb reset_counters then u32 (temp_size + rd 0 cluster_sizes (Z.of_nat idx))
            else temp_size) temp_sizes in
  let cluster_sizes := sizes ++ drop n_clusters cluster_sizes in
  let sizes_f := f_of_Z <$> sizes in
  (matrixVectorOp centers sizes_f divide_guarded, cluster_sizes).

(** **** adjust_centers *)

Definition kPrimes : list Z :=
  [29; 71; 113; 173; 229; 281; 349; 409; 463; 541;
   601; 659; 733; 809; 863; 941; 1013; 1069; 1151; 1223;
   1291; 1373; 1451; 1511; 1583; 1657; 1733; 1811; 1889; 1987;
   2053; 2129; 2213; 2287; 2357; 2423; 2531; 2617; 2687; 2741].

(** The function-local statics [i] and [i_primes], kept across calls. *)
Record adjust_static : Type := mk_static {
  static_i : Z;
  static_i_primes : Z
}.

(** [do { i_primes = (i_primes + 1) % kPrimes.size(); ofst = kPrimes[i_primes]; }
     while (n_rows % ofst == 0);]   Returns [(i_primes, ofst)]. *)
Fixpoint choose_ofst (fuel : nat) (i_primes n_rows : Z) : result (Z * Z) :=
  match fuel with
  | O => OutOfFuel
  | S fuel' =>
      let i_primes := (i_primes + 1) mod Z.of_nat (length kPrimes) in
      let ofst := rd 0 kPrimes i_primes in
      if n_rows mod ofst =? 0 then choose_ofst fuel' i_primes n_rows
      else Ok (i_primes, ofst)
  end.

(** [csize > static_cast<uint32_t>(average * threshold)]: a big cluster. *)
Definition is_big (csize average : Z) (threshold : F) : bool :=
  f_to_u32 (f_mul (f_of_Z average) threshold) <? csize.

(** The weight of the current center: [min(csize, kAdjustCentersWeight)]. *)
Definition center_weight (csize : Z) : F :=
  if f_lt kAdjustCentersWeight (f_of_Z csize) then kAdjustCentersWeight
  else f_of_Z csize.

(** One coordinate of the adjusted center:
    [val = 0; val += wc * c; val += wd * x; val /= wc + wd]. *)
Definition weighted_average (wc c x : F) : F :=
  let wd := f_one in
  let val := f_zero in
  let val := f_add val (f_mul wc c) in
  let val := f_add val (f_mul wd x) in
  f_div val (f_add wc wd).

(** The row written to [centers[l]], from the center [li] of the cluster of
    the chosen row [i]. *)
Definition shifted_center (dim : nat) (csize : Z) (center_li : list F) (row_i : list T)
    : list F :=
  (fun j => weighted_average (center_weight csize)
              (default f_zero (center_li !! j))
              (default f_zero (mapping <$> row_i !! j)))
    <$> seq 0 dim.

(** Host side: [do { i = (i + ofst) % n_rows; } while (cluster_sizes[labels[i]] < average);] *)
Fixpoint probe_host (fuel : nat) (i ofst n_rows : Z) (labels cluster_sizes : list Z)
    (average : Z) : result Z :=
  match fuel with
  | O => OutOfFuel
  | S fuel' =>
      let i := (i + ofst) mod n_rows in
      if rd 0 cluster_sizes (rd 0 labels i) <? average
      then probe_host fuel' i ofst n_rows labels cluster_sizes average
      else Ok i
  end.

(** Device side: [do { old = atomicAdd(count, 1); i = (seed * (old + 1)) % n_rows; }
    while (cluster_sizes[labels[i]] < average);]   Returns [(i, count)]. *)
Fixpoint probe_device (fuel : nat) (count seed n_rows : Z) (labels cluster_sizes : list Z)
    (average : Z) : result (Z * Z) :=
  match fuel with
  | O => OutOfFuel
  | S fuel' =>
      let old := count in
      let count := u32 (count + 1) in
      let i := (seed * (old + 1)) mod n_rows in
      if rd 0 cluster_sizes (rd 0 labels i) <? average
      then probe_device fuel' count seed n_rows labels cluster_sizes average
      else Ok (i, count)
  end.

(** The host loop over the clusters [ls]; the state is the centers, the
    static [i] and the flag [adjusted]. *)
Fixpoint adjust_host (fuel : nat) (ls : list nat) (dim : nat) (dataset : list (list T))
    (n_rows : Z) (labels cluster_sizes : list Z) (threshold : F) (average ofst : Z)
    (st : list (list F) * Z * bool) : result (list (list F) * Z * bool) :=
  match ls with
  | [] => Ok st
  | l :: ls =>
      let '(centers, i, adjusted) := st in
      let csize := rd 0 cluster_sizes (Z.of_nat l) in
      if is_big csize average threshold
      then adjust_host fuel ls dim dataset n_rows labels cluster_sizes threshold
             average ofst st
      else
        do i <- probe_host fuel i ofst n_rows labels cluster_sizes average;
        let li := rd 0 labels i in
        let center :=
          shifted_center dim csize (rd [] centers li) (rd [] dataset i) in
        adjust_host fuel ls dim dataset n_rows labels cluster_sizes threshold
          average ofst (<[l := center]> centers, i, true)
  end.

(** [adjust_centers_kernel], one warp per cluster; the warps are taken one
    after the other in the order of the clusters.  The state is the centers
    and the counter [count]. *)
Fixpoint adjust_centers_kernel (fuel : nat) (ls : list nat) (dim : nat)
    (dataset : list (list T)) (n_rows : Z) (labels cluster_sizes : list Z)
    (threshold : F) (average seed : Z)
    (st : list (list F) * Z) : result (list (list F) * Z) :=
  match ls with
  | [] => Ok st
  | l :: ls =>
      let '(centers, count) := st in
      let csize := rd 0 cluster_sizes (Z.of_nat l) in
      if is_big csize average threshold
      then adjust_centers_kernel fuel ls dim dataset n_rows labels cluster_sizes
             threshold average seed st
      else
        do ic <- probe_device fuel count seed n_rows labels cluster_sizes average;
        let '(i, count) := ic in
        let li := rd 0 labels i in
        let center :=
          shifted_center dim csize (rd [] centers li) (rd [] dataset i) in
        adjust_centers_kernel fuel ls dim dataset n_rows labels cluster_sizes
          threshold average seed (<[l := center]> centers, count)
  end.

(** Adjust centers for clusters that have small number of entries.
    [ptrs] are the memory types of [centers], [dataset], [labels] and
    [cluster_sizes].  Returns the centers, whether any was updated, and the
    statics. *)
Definition adjust_centers (fuel : nat) (static : adjust_static)
    (ptrs : list Utils.cudaMemoryType)
    (centers : list (list F)) (n_clusters dim : nat) (dataset : list (list T))
    (n_rows : Z) (labels cluster_sizes : list Z) (threshold : F)
    : result (list (list F) * bool * adjust_static) :=
  if (n_clusters =? 0)%nat then Ok (centers, false, static)
  else
    let average := u32 (n_rows / Z.of_nat n_clusters) in
    do po <- choose_ofst fuel (static_i_primes static) n_rows;
    let '(i_primes, ofst) := po in
    match Utils.check_pointer_residency ptrs with
    | Utils.host_and_device | Utils.device_only =>
        do cu <- adjust_centers_kernel fuel (seq 0 n_clusters) dim dataset n_rows labels
                   cluster_sizes threshold average ofst (centers, 0);
        let '(centers, update_count) := cu in
        Ok (centers, 0 <? update_count, mk_static (static_i static) i_primes)
    | Utils.host_only =>
        do ca <- adjust_host fuel (seq 0 n_clusters) dim dataset n_rows labels
                   cluster_sizes threshold average ofst (centers, static_i static, false);
        let '(centers, i, adjusted) := ca in
        Ok (centers, adjusted, mk_static i i_primes)
    | Utils.mixed => Fail mixed_residency
    end.

(** **** balancing_em_iters *)

(** What one round of the main cycle did before its Predict step. *)
Record iteration : Type := mk_iteration {
  it_iter : Z;                          (* the round, from 0 *)
  it_adjust_ran : bool;                 (* adjust_centers was called *)
  it_adjusted : bool;                   (* ... and reported a change *)
  it_extended : bool;                   (* n_iters++ was executed *)
  it_n_iters_before : Z;                (* the budget when the round starts *)
  it_n_iters : Z;                       (* the budget after the balancing step *)
  it_counter_before : Z;                (* the counter when the round starts *)
  it_balancing_counter : Z;             (* the counter after the balancing step *)
  it_centers_adjusted : list (list F);  (* the centers after the balancing step *)
  it_centers_predict : list (list F)    (* the centers handed to predict *)
}.

Record em_state : Type := mk_em_state {
  em_iter : Z;
  em_n_iters : Z;
  em_balancing_counter : Z;
  em_centers : list (list F);
  em_labels : list Z;
  em_sizes : list Z;
  em_static : adjust_static
}.

(** [if (balancing_counter++ >= balancing_pullback)
       { balancing_counter -= balancing_pullback; n_iters++; }]
    Returns the counter, the budget and whether the budget was extended. *)
Definition balancing_step (balancing_counter balancing_pullback n_iters : Z)
    : Z * Z * bool :=
  let old := balancing_counter in
  let balancing_counter := u32 (balancing_counter + 1) in
  if balancing_pullback <=? old
  then (u32 (balancing_counter - balancing_pullback), u32 (n_iters + 1), true)
  else (balancing_counter, n_iters, false).

(** The metrics for which the center vectors are normalized on every round. *)
Definition normalizes (metric : DistanceType) : bool :=
  match metric with
  | InnerProduct | CosineExpanded | CorrelationExpanded => true
  | _ => false
  end.

(** The body of the main cycle. *)
Definition em_iteration (fuel : nat) (ptrs : list Utils.cudaMemoryType)
    (dim n_clusters : nat) (dataset : list (list T)) (dataset_norm : option (list F))
    (n_rows : Z) (metric : DistanceType) (balancing_pullback : Z)
    (balancing_threshold : F) (st : em_state) : list iteration * result em_state :=
  let ran := 0 <? em_iter st in
  let adjust :=
    if ran
    then adjust_centers fuel (em_static st) ptrs (em_centers st) n_clusters dim dataset
           n_rows (em_labels st) (em_sizes st) balancing_threshold
    else Ok (em_centers st, false, em_static st) in
  match adjust with
  | Ok (centers, adjusted, static) =>
      let '(balancing_counter, n_iters, extended) :=
        if adjusted
        then balancing_step (em_balancing_counter st) balancing_pullback (em_n_iters st)
        else (em_balancing_counter st, em_n_iters st, false) in
      let centers_predict :=
        if normalizes metric then Utils.normalize_rows n_clusters dim centers
        else centers in
      ([mk_iteration (em_iter st) ran adjusted extended (em_n_iters st) n_iters
          (em_balancing_counter st) balancing_counter centers centers_predict],
       do labels <- predict fuel centers_predict n_clusters (Z.of_nat dim) dataset n_rows
                      (em_labels st) metric dataset_norm;
       let '(centers, sizes) :=
         calc_centers_and_sizes centers_predict (em_sizes st) n_clusters dim dataset
           labels true in
       Ok (mk_em_state (u32 (em_iter st + 1)) n_iters balancing_counter centers labels
             sizes static))
  | Fail e => ([], Fail e)
  | OutOfFuel => ([], OutOfFuel)
  end.

(** [for (uint32_t iter = 0; iter < n_iters; iter++)] *)
Fixpoint em_loop (rounds : nat) (fuel : nat) (ptrs : list Utils.cudaMemoryType)
    (dim n_clusters : nat) (dataset : list (list T)) (dataset_norm : option (list F))
    (n_rows : Z) (metric : DistanceType) (balancing_pullback : Z)
    (balancing_threshold : F) (st : em_state) : list iteration * result em_state :=
  match rounds with
  | O => ([], OutOfFuel)
  | S rounds' =>
      if em_iter st <? em_n_iters st then
        let '(log, r) :=
          em_iteration fuel ptrs dim n_clusters dataset dataset_norm n_rows metric
            balancing_pullback balancing_threshold st in
        match r with
        | Ok st =>
            let '(log', r) :=
              em_loop rounds' fuel ptrs dim n_clusters dataset dataset_norm n_rows
                metric balancing_pullback balancing_threshold st in
            (log ++ log', r)
        | _ => (log, r)
        end
      else ([], Ok st)
  end.

(** Expectation-maximization-balancing combined in an iterative process.
    Returns the rounds that reached their Predict step and the final state. *)
Definition balancing_em_iters (fuel : nat) (static : adjust_static)
    (ptrs : list Utils.cudaMemoryType) (n_iters : Z) (dim : nat)
    (dataset : list (list T)) (dataset_norm : option (list F)) (n_rows : Z)
    (n_clusters : nat) (cluster_centers : list (list F)) (cluster_labels : list Z)
    (cluster_sizes : list Z) (metric : DistanceType) (balancing_pullback : Z)
    (balancing_threshold : F) : list iteration * result em_state :=
  em_loop fuel fuel ptrs dim n_clusters dataset dataset_norm n_rows metric
    balancing_pullback balancing_threshold
    (mk_em_state 0 n_iters balancing_pullback cluster_centers cluster_labels
       cluster_sizes static).

(** **** build_clusters *)

(** "randomly initialize labels": [*out = LabelT(i % static_cast<IdxT>(n_clusters))] *)
Definition init_labels (n_rows : nat) (n_clusters : Z) : list Z :=
  (fun i => u32 (Z.of_nat i mod n_clusters)) <$> seq 0 n_rows.

Definition IdxT_max : Z := 2 ^ 63 - 1.

(** Initialize cluster centers and then call [balancing_em_iters]. *)
Definition build_clusters (fuel : nat) (static : adjust_static)
    (ptrs : list Utils.cudaMemoryType) (n_iters : Z) (dim : nat)
    (dataset : list (list T)) (n_rows : Z) (n_clusters : nat)
    (cluster_centers : list (list F)) (cluster_sizes : list Z)
    (metric : DistanceType) (dataset_norm : option (list F))
    : list iteration * result em_state :=
  if negb (n_rows * Z.of_nat dim <=? IdxT_max) then ([], Fail index_type_too_small)
  else
    let cluster_labels := init_labels (Z.to_nat n_rows) (Z.of_nat n_clusters) in
    let '(cluster_centers, cluster_sizes) :=
      calc_centers_and_sizes cluster_centers cluster_sizes n_clusters dim dataset
        cluster_labels true in
    balancing_em_iters fuel static ptrs n_iters dim dataset dataset_norm n_rows
      n_clusters cluster_centers cluster_labels cluster_sizes metric 2
      (f_div f_one (f_of_Z 4)).

End Engine.
End Kmeans.

(** ** Part I, continued: the vocabulary of the properties *)

Section ArrangeVocabulary.
Import Arrange.

(** The number of non-empty mesoclusters of an array. *)
Definition nonempty_count (l : list Z) : Z :=
  zsum ((fun s => if 0 <? s then 1 else 0) <$> l).

(** What the allocation promises for one mesocluster. *)
Definition share_ok (size num : Z) : Prop :=
  (size = 0 -> num = 0) /\ (0 < size -> 1 <= num) /\ 0 <= num.

(** The state after [k] mesoclusters have been processed. *)
Record inv (K : Z) (n : nat) (sizes : list Z) (k : nat) (st : state) : Prop := {
  inv_len_nums : length (fine_clusters_nums st) = n;
  inv_len_csum : length (fine_clusters_csum st) = S n;
  inv_rem : 0 <= n_lists_rem st;
  inv_sum : zsum (take k (fine_clusters_nums st)) + n_lists_rem st = K;
  inv_csum : fine_clusters_csum st !! k = Some (K - n_lists_rem st);
  inv_rows : n_rows_rem st = zsum (drop k sizes);
  inv_size_sum : mesocluster_size_sum st = zsum (take k sizes);
  inv_shares : Forall2 share_ok (take k sizes) (take k (fine_clusters_nums st));
  inv_nonempty :
    (k < n)%nat ->
    n_nonempty_ms_rem st = nonempty_count (drop k sizes) /\
    n_nonempty_ms_rem st <= n_lists_rem st /\
    (n_nonempty_ms_rem st = 0 -> n_lists_rem st = 0);
  inv_done : k = n -> n_lists_rem st = 0
}.

(** The allocation the specification describes: the call returns, the counts
    add up to the requested number and every mesocluster has its share. *)
Definition allocation_ok (n_clusters : Z) (mesocluster_sizes : list Z)
    (r : result (Z * Z * list Z * list Z)) : Prop :=
  exists size_max nums_max nums csum,
    r = Ok (size_max, nums_max, nums, csum) /\
    zsum nums = n_clusters /\
    Forall2 share_ok mesocluster_sizes nums.

End ArrangeVocabulary.

(** The number of rows labelled [k]. *)
Definition count_label (labels : list Z) (k : nat) : Z :=
  Z.of_nat (length (filter (fun l => l = Z.of_nat k) labels)).

(** The sizes the call leaves in the first [K] places. *)
Definition new_sizes (sizes : list Z) (K : nat) (labels : list Z) (reset : bool) : list Z :=
  imap (fun idx temp_size =>
          if negb reset then u32 (temp_size + rd 0 sizes (Z.of_nat idx)) else temp_size)
       (Kmeans.countLabels labels K).

Section AggregateVocabulary.
Import Kmeans.
Context {F : Type} {FO : FloatOps F} {T : Type} (mapping : T -> F).

(** One round of [reduce_rows_by_key]. *)
Definition reduce_round (out : list (list F)) (rl : list T * Z) : list (list F) :=
  let '(row, l) := rl in
  if l <? 0 then out
  else alter (fun acc => add_row acc (mapping <$> row)) (Z.to_nat l) out.

End AggregateVocabulary.

(** The shards of the counterexample: seven rows that add up to 31 and one
    more row, all in the one cluster. *)
Definition shard_a : list (list spec_float) :=
  (fun z => [Binary32.of_Z z]) <$> [4; 4; 4; 4; 5; 5; 5].

Definition shard_b : list (list spec_float) := [[Binary32.of_Z 1]].

(** The metrics [predict_float_core] has a case for. *)
Definition supported (metric : DistanceType) : bool :=
  match metric with
  | L2Expanded | L2SqrtExpanded | InnerProduct => true
  | _ => false
  end.

Section DriverVocabulary.
Context {F : Type}.

(** The rounds of a run in which the centers were rebalanced. *)
Definition rebalancings (log : list (Kmeans.iteration (F := F)))
    : list (Kmeans.iteration (F := F)) :=
  filter (fun it => Kmeans.it_adjusted it = true) log.

End DriverVocabulary.

(** The counter after [m] rebalancings, for the pullback [p]: congruent to
    [m] and in [[1, p]]. *)
Definition counter_after (p m c : Z) : Prop :=
  (m mod p = 0 /\ c = p) \/ (m mod p <> 0 /\ c = m mod p).

Section DriverInvariant.
Context {F : Type}.

(** What the record of a round says about its balancing step. *)
Definition round_ok (p : Z) (it : Kmeans.iteration (F := F)) : Prop :=
  Kmeans.it_adjust_ran it = (0 <? Kmeans.it_iter it) /\
  (Kmeans.it_adjusted it = true -> Kmeans.it_adjust_ran it = true) /\
  Kmeans.it_extended it
    = Kmeans.it_adjusted it && (p <=? Kmeans.it_counter_before it) /\
  Kmeans.it_n_iters it
    = (if Kmeans.it_extended it then u32 (Kmeans.it_n_iters_before it + 1)
       else Kmeans.it_n_iters_before it).

End DriverInvariant.

Section DriverClaims.
Context {F : Type}.

(** The rule C4 states: the [k]-th rebalancing, counted from one, extends the
    budget iff [k] is a multiple of the pullback. *)
Definition extends_on_multiples (p : Z) (log : list (Kmeans.iteration (F := F))) : Prop :=
  forall (k : nat) it,
    rebalancings log !! k = Some it ->
    (Kmeans.it_extended it = true <-> (Z.of_nat k + 1) mod p = 0).

End DriverClaims.

(** Four equal rows and two clusters, all in host memory: every round after
    the first finds the second cluster empty and rebalances. *)
Definition host_pointers : list Utils.cudaMemoryType :=
  [Utils.cudaMemoryTypeHost; Utils.cudaMemoryTypeHost;
   Utils.cudaMemoryTypeHost; Utils.cudaMemoryTypeHost].

Definition equal_rows_run : list (Kmeans.iteration (F := spec_float)) :=
  fst (Kmeans.balancing_em_iters Mapping.of_float true 50 (Kmeans.mk_static 0 0)
         host_pointers 2 1
         ((fun z => [Binary32.of_Z z]) <$> [1; 1; 1; 1]) None 4 2
         [[Binary32.of_Z 1]; [Binary32.of_Z 1]] [0; 0; 0; 0] [4; 0]
         L2Expanded 2 (f_div f_one (f_of_Z 4))).

(** The columns thread [tx] of a block of [step] threads visits, in order. *)
Definition stride (step n tx : nat) : list nat :=
  filter (fun j => (j mod step = tx)%nat) (seq 0 n).

(** The squared L2 norm of a row of reals. *)
Definition Rsum (l : list R) : R := foldr Rplus 0%R l.

Definition squared_norm (row : list R) : R := Rsum ((fun v => (v * v)%R) <$> row).

Section NormalizeVocabulary.
Context {F : Type}.

(** The centers a round hands to predict are the normalized ones. *)
Definition round_normalized {FO : FloatOps F} (n_clusters dim : nat)
    (it : Kmeans.iteration (F := F)) : Prop :=
  Kmeans.it_centers_predict it
  = Utils.normalize_rows n_clusters dim (Kmeans.it_centers_adjusted it).

End NormalizeVocabulary.

(** What the kernel does to a row in exact arithmetic: a row of squared norm
    above [1e-8] gets unit length, any other row is left as it is. *)
Definition unit_or_unchanged (row row' : list R) : Prop :=
  ((squared_norm row <= / 100000000)%R -> row' = row) /\
  ((/ 100000000 < squared_norm row)%R ->
   squared_norm row' = 1%R /\
   row' = (fun v => (v * / sqrt (squared_norm row))%R) <$> row).

Definition device_pointers : list Utils.cudaMemoryType :=
  [Utils.cudaMemoryTypeDevice; Utils.cudaMemoryTypeDevice;
   Utils.cudaMemoryTypeDevice; Utils.cudaMemoryTypeDevice].

(** Two opposite rows and one cluster under the inner product: the center of
    the first aggregation is the zero vector. *)
Definition opposite_rows_run : list (Kmeans.iteration (F := spec_float)) :=
  fst (Kmeans.build_clusters Mapping.of_float true 50 (Kmeans.mk_static 0 0)
         device_pointers 2 1
         ((fun z => [Binary32.of_Z z]) <$> [1; -1]) 2 1 [] [] InnerProduct None).

(** The square of column [j] of a row. *)
Definition sq_at (row : list R) (j : nat) : R :=
  let val := default 0%R (row !! j) in (val * val)%R.

Section AdjustVocabulary.
Import Kmeans.
Context {F : Type} {FO : FloatOps F} {T : Type} (mapping : T -> F).

(** A row the probe may stop at: its cluster is not smaller than average. *)
Definition good_row (labels cluster_sizes : list Z) (average : Z) (i : Z) : bool :=
  negb (rd 0 cluster_sizes (rd 0 labels i) <? average).

(** What [adjust_centers] leaves in [centers'], given the centers it started
    from: a cluster that is not big gets the weighted average of the center of
    the cluster of a row [i] whose cluster is not smaller than average and of
    that row; the center of a big cluster is left as it was. *)
Definition adjusted_from (dim : nat) (dataset : list (list T)) (n_rows : Z)
    (labels cluster_sizes : list Z) (threshold : F) (average : Z)
    (centers centers' : list (list F)) : Prop :=
  length centers' = length centers /\
  forall (l : nat) (csize : Z),
    (l < length centers)%nat ->
    cluster_sizes !! l = Some csize ->
    if is_big csize average threshold then centers' !! l = centers !! l
    else exists i : Z,
           0 <= i < n_rows /\
           good_row labels cluster_sizes average i = true /\
           centers' !! l
           = Some (shifted_center mapping dim csize
                     (rd [] centers (rd 0 labels i)) (rd [] dataset i)).

(** The state of the loop over the clusters, for the centers [centers0] the
    call started from: the big clusters still have them. *)
Definition big_kept (cluster_sizes : list Z) (threshold : F) (average : Z)
    (centers0 cur : list (list F)) : Prop :=
  length cur = length centers0 /\
  forall l : nat, is_big (rd 0 cluster_sizes (Z.of_nat l)) average threshold = true ->
                  cur !! l = centers0 !! l.

(** What the loop over the clusters [ls] makes of [cur]. *)
Definition loop_post (dim : nat) (dataset : list (list T)) (n_rows : Z)
    (labels cluster_sizes : list Z) (threshold : F) (average : Z)
    (centers0 : list (list F)) (ls : list nat) (cur cur' : list (list F)) : Prop :=
  big_kept cluster_sizes threshold average centers0 cur' /\
  (forall l, l ∉ ls -> cur' !! l = cur !! l) /\
  (forall l, l ∈ ls ->
     if is_big (rd 0 cluster_sizes (Z.of_nat l)) average threshold
     then cur' !! l = cur !! l
     else exists i, 0 <= i < n_rows /\ good_row labels cluster_sizes average i = true /\
            cur' !! l
            = Some (shifted_center mapping dim (rd 0 cluster_sizes (Z.of_nat l))
                      (rd [] centers0 (rd 0 labels i)) (rd [] dataset i))).

End AdjustVocabulary.

(** One row in a starved cluster and seven in a big one, with the default
    threshold [0.25]: the average is 4 and the limit is 1. *)
Definition lone_row_labels : list Z := [0; 0; 0; 0; 0; 0; 0; 1].

Definition lone_row_dataset : list (list spec_float) :=
  (fun z => [Binary32.of_Z z]) <$> [2; 2; 2; 2; 2; 2; 2; 10].

Definition lone_row_centers : list (list spec_float) :=
  [[Binary32.of_Z 2]; [Binary32.of_Z 10]].

Section ArgminVocabulary.
Import Kmeans.
Context {F : Type} {FO : FloatOps F} {FL : FloatLimits F}.

(** [<] is a strict weak order on the values [ordered] holds of (the numbers,
    as opposed to NaN). *)
Record strict_weak_order (ordered : F -> Prop) : Prop := {
  swo_irrefl : forall x, ordered x -> f_lt x x = false;
  swo_trans : forall x y z, ordered x -> ordered y -> ordered z ->
      f_lt x y = true -> f_lt y z = true -> f_lt x z = true;
  swo_incomp : forall x y z, ordered x -> ordered y -> ordered z ->
      f_lt x y = false -> f_lt y z = false -> f_lt x z = false
}.

(** [l] is the lowest index of a least element of [dists]. *)
Definition is_argmin (dists : list F) (l : Z) : Prop :=
  0 <= l /\
  exists dl, dists !! Z.to_nat l = Some dl /\
    (forall k d, dists !! k = Some d -> f_lt d dl = false) /\
    (forall k d, (k < Z.to_nat l)%nat -> dists !! k = Some d -> f_lt dl d = true).

(** Neither value is below the other. *)
Definition tie (x y : F) : Prop := f_lt x y = false /\ f_lt y x = false.

(** The pair [(min_val, min_idx)] stands for the columns [S] of [row]: it is
    the initial pair when [S] has no column of the row, and else [min_idx] is
    the lowest column of [S] with a least value, and [min_val] ties with it. *)
Definition holds_min (ordered : F -> Prop) (row : list F) (S : nat -> Prop)
    (p : F * nat) : Prop :=
  ordered (fst p) /\
  (((forall j, S j -> row !! j = None) /\ p = (upper_bound, length row)) \/
   exists a, S (snd p) /\ row !! snd p = Some a /\ tie (fst p) a /\
     (forall k b, S k -> row !! k = Some b -> f_lt b a = false) /\
     (forall k b, S k -> (k < snd p)%nat -> row !! k = Some b -> f_lt a b = true)).

(** The entries of the block's shared arrays after the rounds down to the
    width [w]: thread [tx < w] holds the minimum of the columns congruent to
    [tx] modulo [w]. *)
Definition shm_holds (ordered : F -> Prop) (row : list F) (w : nat)
    (shm : list (F * nat)) : Prop :=
  forall tx, (tx < w)%nat ->
    exists p, shm !! tx = Some p /\
              holds_min ordered row (fun j => (j mod w = tx)%nat) p.

(** The squared norm [rowNorm] computes for one row. *)
Definition sqnorm (x : list F) : F :=
  foldl (fun acc v => f_add acc (f_mul v v)) f_zero x.

(** The norm of row [i] that reaches the fused L2 primitive: the one handed
    to [predict], or else the one [predict] computes. *)
Definition row_norm (dataset_norm : option (list F)) (i : nat) (x : list F) : F :=
  match dataset_norm with
  | Some norms => default f_zero (norms !! i)
  | None => sqnorm x
  end.

(** The distances from the row [x] to the centers that are compared under
    each supported metric. *)
Definition distances (metric : DistanceType) (centers : list (list F))
    (x : list F) (xn : F) : list F :=
  match metric with
  | L2Expanded => (fun c => l2_expanded false x xn c (sqnorm c)) <$> centers
  | L2SqrtExpanded => (fun c => l2_expanded true x xn c (sqnorm c)) <$> centers
  | InnerProduct => (fun c => f_mul (f_of_Z (-1)) (dot c x)) <$> centers
  | _ => []
  end.

(** The value the minimum starts from under each metric. *)
Definition init_bound (metric : DistanceType) : F :=
  match metric with
  | InnerProduct => upper_bound
  | _ => float_max
  end.

(** A distance the reduction can select: a number below the initial value. *)
Definition selectable (ordered : F -> Prop) (bound d : F) : Prop :=
  ordered d /\ f_lt d bound = true.

End ArgminVocabulary.

(** The single-precision values other than NaN. *)
Definition is_number (x : spec_float) : Prop :=
  match x with S754_nan => False | _ => True end.

Section PredictVocabulary.
Import Kmeans.
Context {F : Type} {FO : FloatOps F} {FL : FloatLimits F}.
Context {T : Type} (mapping : T -> F).

(** The distances from row [i] of the dataset to the centers. *)
Definition row_distances (metric : DistanceType) (centers : list (list F))
    (dataset_norm : option (list F)) (i : nat) (x : list T) : list F :=
  distances metric centers (mapping <$> x) (row_norm dataset_norm i (mapping <$> x)).

(** [l] is the index of the center nearest to row [i], the lowest one among
    equally near centers. *)
Definition nearest (metric : DistanceType) (centers : list (list F))
    (dataset : list (list T)) (dataset_norm : option (list F)) (i : nat) (l : Z)
    : Prop :=
  exists x, dataset !! i = Some x /\
            is_argmin (row_distances metric centers dataset_norm i x) l.

(** Every row before [bound] has the label of its nearest center. *)
Definition labelled (metric : DistanceType) (centers : list (list F))
    (dataset : list (list T)) (dataset_norm : option (list F)) (bound : Z)
    (labels : list Z) : Prop :=
  length labels = length dataset /\
  forall i : nat, Z.of_nat i < bound -> (i < length dataset)%nat ->
    exists l, labels !! i = Some l /\
              0 <= l < Z.of_nat (length centers) /\
              nearest metric centers dataset dataset_norm i l.

(** The distances of every row can be selected by the reduction. *)
Definition all_selectable (ordered : F -> Prop) (metric : DistanceType)
    (centers : list (list F)) (dataset : list (list T))
    (dataset_norm : option (list F)) : Prop :=
  forall i x, dataset !! i = Some x ->
    Forall (selectable ordered (init_bound metric))
      (row_distances metric centers dataset_norm i x).

(** The norms handed to [predict], if any, are as many as the rows. *)
Definition norms_fit (dataset : list (list T)) (dataset_norm : option (list F)) : Prop :=
  match dataset_norm with
  | Some norms => length norms = length dataset
  | None => True
  end.

End PredictVocabulary.

(** A key that orders the single-precision values as [SFltb] does: the sign
    and the class first, then the exponent, then the mantissa. *)
Definition float_key (x : spec_float) : Z * Z * Z :=
  match x with
  | S754_infinity true => (-2, 0, 0)
  | S754_finite true m e => (-1, - e, - Z.pos m)
  | S754_zero _ => (0, 0, 0)
  | S754_nan => (0, 0, 0)
  | S754_finite false m e => (1, e, Z.pos m)
  | S754_infinity false => (2, 0, 0)
  end.

Definition key_lt (a b : Z * Z * Z) : Prop :=
  fst (fst a) < fst (fst b) \/
  (fst (fst a) = fst (fst b) /\
   (snd (fst a) < snd (fst b) \/ (snd (fst a) = snd (fst b) /\ snd a < snd b))).

(** One center, and a row whose inner product with it overflows. *)
Definition far_center : list (list spec_float) := [[Binary32.of_Z (2 ^ 127)]].

Definition far_row : list (list spec_float) := [[Binary32.of_Z (- 2 ^ 127)]].

(** Two centers and two rows on a line. *)
Definition line_centers : list (list spec_float) :=
  [[Binary32.of_Z 1]; [Binary32.of_Z 3]].

Definition line_rows : list (list spec_float) :=
  [[Binary32.of_Z 2]; [Binary32.of_Z (-1)]].

(** *** Vocabulary of the further properties *)

(** The sides a pointer of each memory type can be used on. *)
Definition device_accessible (t : Utils.cudaMemoryType) : bool :=
  match t with
  | Utils.cudaMemoryTypeDevice | Utils.cudaMemoryTypeManaged => true
  | _ => false
  end.

Definition host_accessible (t : Utils.cudaMemoryType) : bool :=
  match t with
  | Utils.cudaMemoryTypeUnregistered | Utils.cudaMemoryTypeHost
  | Utils.cudaMemoryTypeManaged => true
  | _ => false
  end.

(** [r] is [Some x]. *)
Definition is_value (r : option Z) (x : Z) : bool :=
  match r with
  | Some y => y =? x
  | None => false
  end.

(** What a thread that writes at most one cell does to the memory. *)
Definition write_step {A : Type} (guard : Z -> bool) (dest : Z -> Z) (val : Z -> A)
    (m : list A) (g : Z) : list A :=
  if guard g then wr m (dest g) (val g) else m.

(** The operand of [outer_add] at an index: 0 for [nullptr]. *)
Definition operand {F : Type} {FO : FloatOps F} (a : option (list F)) (i : Z) : F :=
  match a with
  | None => f_zero
  | Some a => rd f_zero a i
  end.

(** The first element of block [k] of an offset array scaled by [n_mult]. *)
Definition block_start (offsets : list Z) (n_mult k : Z) : Z := rd 0 offsets k * n_mult.

(** The block the binary search of thread [i] ends in. *)
Definition found_block (fuel : nat) (in_offsets : list Z) (n_blocks n_mult i : Z) : Z :=
  match Utils.block_copy_search fuel in_offsets n_mult i 0 n_blocks 0 with
  | Ok (l, _) => l
  | _ => 0
  end.

(** The bytes [calc_minibatch_size] counts for one row of a minibatch. *)
Definition mem_per_row (is_float : bool) (n_clusters dim : Z) (metric : DistanceType) : Z :=
  (if is_L2 metric then 4 else 4 * Z.max 1 n_clusters)
  + (if is_float then 0 else 4 * dim).

Section TallyVocabulary.
Import Arrange.

(** What the second loop of [arrange_fine_clusters] has tallied after [k]
    mesoclusters, whatever the sizes are. *)
Record tally (n : nat) (sizes : list Z) (k : nat) (st : state) : Prop := {
  tally_len_nums : length (fine_clusters_nums st) = n;
  tally_len_csum : length (fine_clusters_csum st) = S n;
  tally_size_sum : mesocluster_size_sum st = zsum (take k sizes);
  tally_size_max : forall s, s ∈ take k sizes -> s <= mesocluster_size_max st;
  tally_size_attained :
    mesocluster_size_max st = 0 \/ mesocluster_size_max st ∈ take k sizes;
  tally_nums_max :
    forall m, m ∈ take k (fine_clusters_nums st) -> m <= fine_clusters_nums_max st;
  tally_nums_attained :
    fine_clusters_nums_max st = 0 \/
    fine_clusters_nums_max st ∈ take k (fine_clusters_nums st);
  tally_csum :
    forall i, (i <= k)%nat ->
      fine_clusters_csum st !! i = Some (u32 (zsum (take i (fine_clusters_nums st))))
}.

End TallyVocabulary.

Section BudgetVocabulary.
Import Kmeans.
Context {F : Type}.

(** The budget of rounds against the rounds done, for the pullback [p] and
    the requested number of rounds [n0]: [p * (n_iters - n0) - (p - counter)]
    is the number of rebalancings so far, and there is none in round 0. *)
Definition budget_inv (p n0 : Z) (st : em_state (F := F)) : Prop :=
  1 <= em_balancing_counter st <= p /\
  0 <= em_iter st <= em_n_iters st /\
  n0 <= em_n_iters st /\
  p * (em_n_iters st - n0) - (p - em_balancing_counter st) <= Z.max (em_iter st - 1) 0.

(** The most rounds the main cycle can take. *)
Definition round_bound (p n0 : Z) : Z := (p * n0 + p - 2) / (p - 1).

End BudgetVocabulary.

(** The clusters [adjust_centers] moves: those that are not big. *)
Definition is_small {F : Type} {FO : FloatOps F} (cluster_sizes : list Z) (average : Z)
    (threshold : F) (l : nat) : bool :=
  negb (Kmeans.is_big (rd 0 cluster_sizes (Z.of_nat l)) average threshold).

Section BatchVocabulary.
Import Kmeans.
Context {F : Type} {FO : FloatOps F} {T : Type} (mapping : T -> F).

(** The dataset converted to [float], as [predict] converts each minibatch. *)
Definition converted (dataset : list (list T)) : list (list F) :=
  (fun row : list T => mapping <$> row) <$> dataset.

(** The norms of all the rows: the ones handed to [predict], or for the L2
    metrics the ones [predict] computes. *)
Definition whole_norms (metric : DistanceType) (dataset : list (list T))
    (dataset_norm : option (list F)) : option (list F) :=
  match dataset_norm with
  | Some norms => Some norms
  | None => if is_L2 metric then Some (rowNorm (converted dataset)) else None
  end.

End BatchVocabulary.

(** The sum of column [j] over the rows labelled [k]. *)
Definition column_sum {T : Type} (mapping : T -> R) (rows : list (list T * Z))
    (k j : nat) : R :=
  Rsum ((fun rl : list T * Z =>
           if decide (snd rl = Z.of_nat k)
           then default 0%R ((mapping <$> fst rl) !! j)
           else 0%R) <$> rows).

Section SizesVocabulary.
Import Kmeans.
Context {F : Type}.

(** The sizes of a state are the numbers of rows its labels give to the
    clusters. *)
Definition sizes_match (K : nat) (st : em_state (F := F)) : Prop :=
  take K (em_sizes st) = countLabels (em_labels st) K.

End SizesVocabulary.

(** ** Part II: the properties *)

(** *** Arithmetic and array helpers *)

Lemma u32_small x : 0 <= x < 2 ^ 32 -> u32 x = x.
Proof. intros H. unfold u32. apply Z.mod_small. exact H. Qed.

Lemma u32_range x : 0 <= u32 x < 2 ^ 32.
Proof. unfold u32. apply Z.mod_pos_bound. lia. Qed.

Lemma rd_lookup {A} (d : A) a (i : nat) x :
  a !! i = Some x -> rd d a (Z.of_nat i) = x.
Proof.
  intros H. unfold rd.
  destruct (Z.ltb_spec (Z.of_nat i) 0) as [Hlt|_]; [lia|].
  rewrite Nat2Z.id, H. reflexivity.
Qed.

Lemma wr_nat {A} (a : list A) (i : nat) v : wr a (Z.of_nat i) v = <[i := v]> a.
Proof.
  unfold wr. destruct (Z.ltb_spec (Z.of_nat i) 0) as [Hlt|_]; [lia|].
  rewrite Nat2Z.id. reflexivity.
Qed.

Lemma zsum_app l k : zsum (l ++ k) = zsum l + zsum k.
Proof. unfold zsum. induction l as [|x l IH]; simpl; lia. Qed.

Lemma Forall_u32_nonneg l :
  Forall (fun x => 0 <= x < 2 ^ 32) l -> Forall (fun x => 0 <= x) l.
Proof. induction 1; constructor; [lia|assumption]. Qed.

Lemma zsum_nonneg l : Forall (fun x => 0 <= x) l -> 0 <= zsum l.
Proof. unfold zsum. induction 1; simpl; lia. Qed.


(** *** arrange_fine_clusters: the allocation *)

Section ArrangeFacts.
Import Arrange.

Lemma nonempty_count_cons x l :
  nonempty_count (x :: l) = (if 0 <? x then 1 else 0) + nonempty_count l.
Proof. reflexivity. Qed.

Lemma zsum_cons x l : zsum (x :: l) = x + zsum l.
Proof. reflexivity. Qed.

Lemma nonempty_count_range l : 0 <= nonempty_count l <= Z.of_nat (length l).
Proof.
  induction l as [|x l IH]; [unfold nonempty_count, zsum; simpl; lia|].
  rewrite nonempty_count_cons, length_cons. destruct (0 <? x); lia.
Qed.

Lemma nonempty_count_zero l :
  Forall (fun x => 0 <= x) l -> nonempty_count l = 0 -> zsum l = 0.
Proof.
  induction 1 as [|x l Hx Hl IH]; [reflexivity|].
  rewrite nonempty_count_cons, zsum_cons.
  pose proof (nonempty_count_range l) as Hr.
  destruct (Z.ltb_spec 0 x); lia.
Qed.

Lemma count_nonempty_take sizes (k : nat) :
  (k <= length sizes)%nat -> Z.of_nat (length sizes) < 2 ^ 32 ->
  count_nonempty k sizes = nonempty_count (take k sizes).
Proof.
  intros Hk Hlen. unfold count_nonempty. induction k as [|k IH].
  - reflexivity.
  - rewrite seq_S, fmap_app, foldl_app. simpl. rewrite IH by lia.
    destruct (lookup_lt_is_Some_2 sizes k ltac:(lia)) as [x Hx].
    rewrite (take_S_r _ _ _ Hx). rewrite (rd_lookup _ _ _ _ Hx).
    unfold nonempty_count. rewrite fmap_app, zsum_app. simpl.
    pose proof (nonempty_count_range (take k sizes)) as Hr.
    rewrite length_take in Hr. unfold nonempty_count in Hr.
    rewrite Z.add_0_r. apply u32_small. destruct (0 <? x); lia.
Qed.

Lemma loop_S K n N sizes k :
  loop K n N sizes (S k) = body (Z.of_nat n) sizes (loop K n N sizes k) (Z.of_nat k).
Proof. unfold loop. rewrite seq_S, fmap_app, foldl_app. reflexivity. Qed.

Lemma proportional_share_all L size :
  0 <= L < 2 ^ 32 -> 0 < size -> proportional_share L size size = L.
Proof.
  intros HL Hs. unfold proportional_share.
  replace (2 * L * size + size) with (size + L * (2 * size)) by lia.
  rewrite Z.div_add by lia. rewrite Z.div_small by lia. apply u32_small. lia.
Qed.

Lemma inv_init K N sizes :
  0 <= K < 2 ^ 32 -> Z.of_nat (length sizes) < 2 ^ 32 ->
  Forall (fun x => 0 <= x) sizes ->
  zsum sizes = N -> K <= N -> nonempty_count sizes <= K ->
  inv K (length sizes) sizes 0 (init K (length sizes) N sizes).
Proof.
  intros HK Hlen Hpos HN HKN HE. constructor; simpl.
  - apply length_replicate.
  - f_equal. apply length_replicate.
  - lia.
  - lia.
  - f_equal. lia.
  - rewrite drop_0. symmetry. exact HN.
  - reflexivity.
  - rewrite !take_0. constructor.
  - intros _. rewrite drop_0. rewrite count_nonempty_take by lia.
    rewrite firstn_all. repeat split; [lia|].
    intros H0. apply (nonempty_count_zero _ Hpos) in H0. lia.
  - intros Hn. destruct sizes; [|discriminate]. simpl in *.
    unfold zsum in HN. simpl in HN. lia.
Qed.

Lemma inv_step K n sizes k st :
  n = length sizes -> 0 <= K < 2 ^ 32 -> Z.of_nat n < 2 ^ 32 ->
  Forall (fun x => 0 <= x < 2 ^ 32) sizes ->
  (k < n)%nat ->
  inv K n sizes k st -> inv K n sizes (S k) (body (Z.of_nat n) sizes st (Z.of_nat k)).
Proof.
  intros Hn HK Hnb Hsz Hk [Hln Hlc HL Hsum Hcs Hrows Hss Hsh Hne Hdone].
  destruct (Hne Hk) as (HE & HEL & HE0). clear Hne Hdone.
  destruct (lookup_lt_is_Some_2 sizes k ltac:(lia)) as [size Hsize].
  assert (Hsize_rng : 0 <= size < 2 ^ 32).
  { apply (Forall_lookup_1 _ _ _ _ Hsz Hsize). }
  assert (Hpos : Forall (fun x => 0 <= x) sizes).
  { apply Forall_u32_nonneg. exact Hsz. }
  assert (Hdrop : drop k sizes = size :: drop (S k) sizes).
  { apply drop_S. exact Hsize. }
  assert (HE' : nonempty_count (drop k sizes) =
                (if 0 <? size then 1 else 0) + nonempty_count (drop (S k) sizes)).
  { rewrite Hdrop. reflexivity. }
  assert (HR' : zsum (drop k sizes) = size + zsum (drop (S k) sizes)).
  { rewrite Hdrop. reflexivity. }
  pose proof (nonempty_count_range (drop (S k) sizes)) as HEr.
  assert (Hposd : Forall (fun x => 0 <= x) (drop (S k) sizes)).
  { apply Forall_drop. exact Hpos. }
  pose proof (zsum_nonneg _ Hposd) as HRr.
  assert (HLK : n_lists_rem st <= K).
  { pose proof (zsum_nonneg (take k (fine_clusters_nums st))) as Hz.
    assert (Forall (fun x => 0 <= x) (take k (fine_clusters_nums st))) as Hnn.
    { clear -Hsh. induction Hsh as [|? ? ? ? [_ [_ ?]]]; constructor; auto. }
    specialize (Hz Hnn). lia. }
  unfold body. rewrite (rd_lookup _ _ _ _ Hsize). rewrite (rd_lookup _ _ _ _ Hcs).
  rewrite (u32_small (Z.of_nat n - 1)) by lia.
  set (num_ne :=
         if Z.of_nat k <? Z.of_nat n - 1
         then if size =? 0 then (0, n_nonempty_ms_rem st)
              else (Z.max (Z.min (proportional_share (n_lists_rem st) size (n_rows_rem st))
                                 (u32 (n_lists_rem st - u32 (n_nonempty_ms_rem st - 1)))) 1,
                    u32 (n_nonempty_ms_rem st - 1))
         else (n_lists_rem st, n_nonempty_ms_rem st)).
  assert (Hnum : share_ok size (fst num_ne) /\ fst num_ne <= n_lists_rem st /\
                 ((S k < n)%nat ->
                  snd num_ne = nonempty_count (drop (S k) sizes) /\
                  snd num_ne <= n_lists_rem st - fst num_ne /\
                  (snd num_ne = 0 -> n_lists_rem st - fst num_ne = 0)) /\
                 (S k = n -> n_lists_rem st - fst num_ne = 0)).
  { unfold num_ne, share_ok.
    destruct (Z.ltb_spec (Z.of_nat k) (Z.of_nat n - 1)) as [Hlt|Hge].
    - destruct (Z.eqb_spec size 0) as [Hz|Hnz]; simpl.
      + subst size. simpl in HE'. repeat split; try lia.
      + assert ((0 <? size) = true) as Hb by (apply Z.ltb_lt; lia).
        rewrite Hb in HE'. rewrite (u32_small (n_nonempty_ms_rem st - 1)) by lia.
        rewrite (u32_small (n_lists_rem st - _)) by lia.
        repeat split; try lia.
        intros H0.
        assert (zsum (drop (S k) sizes) = 0) as HR0.
        { apply nonempty_count_zero; [exact Hposd|lia]. }
        rewrite Hrows, HR', HR0, Z.add_0_r.
        rewrite proportional_share_all by lia. lia.
    - simpl. assert (S k = n) as Hlast by lia.
      assert (drop (S k) sizes = []) as Hnil by (apply drop_ge; lia).
      rewrite Hnil in HE'. change (nonempty_count []) with 0 in HE'.
      repeat split; try lia.
      + intros ->. simpl in HE'. lia.
      + destruct (Z.ltb_spec 0 size); lia. }
  destruct num_ne as [num ne]. simpl in Hnum.
  destruct Hnum as ((Hs0 & Hs1 & Hs2) & HnumL & Hnext & Hlast).
  rewrite !wr_nat. replace (Z.of_nat k + 1) with (Z.of_nat (S k)) by lia. rewrite wr_nat.
  rewrite (u32_small (n_lists_rem st - num)) by lia.
  rewrite (u32_small (K - n_lists_rem st + num)) by lia.
  constructor; simpl.
  - rewrite length_insert. exact Hln.
  - rewrite length_insert. exact Hlc.
  - lia.
  - rewrite (take_S_r _ _ num).
    + rewrite take_insert_ge by lia. rewrite zsum_app, zsum_cons.
      change (zsum []) with 0. lia.
    + apply list_lookup_insert_eq. lia.
  - rewrite list_lookup_insert_eq by lia. f_equal. lia.
  - lia.
  - rewrite (take_S_r _ _ _ Hsize), zsum_app, zsum_cons. change (zsum []) with 0. lia.
  - rewrite (take_S_r _ _ _ Hsize). rewrite (take_S_r _ _ num).
    + rewrite take_insert_ge by lia. apply Forall2_app; [exact Hsh|].
      constructor; [|constructor]. repeat split; assumption.
    + apply list_lookup_insert_eq. lia.
  - intros Hk'. destruct (Hnext Hk') as (? & ? & ?). repeat split; lia.
  - intros Hk'. specialize (Hlast Hk'). lia.
Qed.

Lemma inv_loop K N sizes k :
  0 <= K < 2 ^ 32 -> Z.of_nat (length sizes) < 2 ^ 32 ->
  Forall (fun x => 0 <= x < 2 ^ 32) sizes ->
  zsum sizes = N -> K <= N -> nonempty_count sizes <= K ->
  (k <= length sizes)%nat ->
  inv K (length sizes) sizes k (loop K (length sizes) N sizes k).
Proof.
  intros HK Hlen Hsz HN HKN HE. induction k as [|k IH]; intros Hk.
  - apply inv_init; try assumption. apply Forall_u32_nonneg. exact Hsz.
  - rewrite loop_S. apply inv_step; try assumption; try lia. apply IH. lia.
Qed.




End ArrangeFacts.

(** *** calc_centers_and_sizes: sizes *)

Section CountFacts.
Import Kmeans.

Lemma count_label_nil k : count_label [] k = 0.
Proof. reflexivity. Qed.

Lemma count_label_cons l labels k :
  count_label (l :: labels) k =
  (if decide (l = Z.of_nat k) then 1 else 0) + count_label labels k.
Proof.
  unfold count_label. rewrite filter_cons.
  destruct (decide (l = Z.of_nat k)); simpl; lia.
Qed.

Lemma count_label_app l1 l2 k :
  count_label (l1 ++ l2) k = count_label l1 k + count_label l2 k.
Proof. unfold count_label. rewrite list.filter_app, length_app. lia. Qed.

Lemma count_label_range labels k :
  0 <= count_label labels k <= Z.of_nat (length labels).
Proof. unfold count_label. pose proof (length_filter (fun l => l = Z.of_nat k) labels). lia. Qed.

Lemma length_countLabels labels K : length (countLabels labels K) = K.
Proof. unfold countLabels. rewrite length_fmap, length_seq. reflexivity. Qed.

Lemma countLabels_lookup labels K k :
  (k < K)%nat -> countLabels labels K !! k = Some (u32 (count_label labels k)).
Proof.
  intros Hk. unfold countLabels. rewrite list_lookup_fmap, lookup_seq_lt by lia.
  reflexivity.
Qed.

Lemma countLabels_small labels K :
  Z.of_nat (length labels) < 2 ^ 32 ->
  countLabels labels K = count_label labels <$> seq 0 K.
Proof.
  intros Hn. unfold countLabels. apply list_fmap_ext. intros i k _.
  apply u32_small. pose proof (count_label_range labels k).
  unfold count_label in *. lia.
Qed.

Lemma zsum_fmap_add {A} (f g : A -> Z) l :
  zsum ((fun x => f x + g x) <$> l) = zsum (f <$> l) + zsum (g <$> l).
Proof.
  induction l as [|x l IH]; [reflexivity|].
  rewrite !fmap_cons, !zsum_cons, IH. lia.
Qed.

Lemma zsum_fmap_zero {A} (f : A -> Z) l :
  (forall x, x ∈ l -> f x = 0) -> zsum (f <$> l) = 0.
Proof.
  induction l as [|x l IH]; intros H; [reflexivity|].
  rewrite fmap_cons, zsum_cons, IH, H; [lia|left|].
  intros y Hy. apply H. right. exact Hy.
Qed.

(** A label in range is counted by exactly one cluster. *)
Lemma zsum_indicator (l : Z) (K : nat) :
  0 <= l < Z.of_nat K ->
  zsum ((fun k => if decide (l = Z.of_nat k) then 1 else 0) <$> seq 0 K) = 1.
Proof.
  induction K as [|K IH]; intros Hl; [lia|].
  rewrite seq_S, fmap_app, zsum_app. simpl. rewrite Z.add_0_r.
  destruct (decide (l = Z.of_nat K)) as [->|Hne].
  - rewrite zsum_fmap_zero; [lia|].
    intros k Hk. apply elem_of_seq in Hk.
    destruct (decide (Z.of_nat K = Z.of_nat k)); lia.
  - rewrite IH by lia. lia.
Qed.

Lemma zsum_count_label labels (K : nat) :
  Forall (fun l => 0 <= l < Z.of_nat K) labels ->
  zsum (count_label labels <$> seq 0 K) = Z.of_nat (length labels).
Proof.
  induction 1 as [|l labels Hl Hlabels IH].
  - apply zsum_fmap_zero. intros; reflexivity.
  - rewrite (list_fmap_ext (count_label (l :: labels))
               (fun k => (if decide (l = Z.of_nat k) then 1 else 0) + count_label labels k)
               (seq 0 K)).
    + rewrite zsum_fmap_add, zsum_indicator, IH by exact Hl. rewrite length_cons. lia.
    + intros i k _. apply count_label_cons.
Qed.

End CountFacts.

Section AggregateFacts.
Import Kmeans.
Context {F : Type} {FO : FloatOps F} {T : Type} (mapping : T -> F).

Lemma imap_snd {A} (l : list A) : imap (fun _ x => x) l = l.
Proof.
  apply list_eq. intros i. rewrite list_lookup_imap.
  destruct (l !! i); reflexivity.
Qed.

Lemma calc_sizes_reset centers sizes K dim dataset labels :
  snd (calc_centers_and_sizes mapping centers sizes K dim dataset labels true)
  = countLabels labels K ++ drop K sizes.
Proof. unfold calc_centers_and_sizes. simpl. rewrite imap_snd. reflexivity. Qed.


End AggregateFacts.


(** *** calc_centers_and_sizes: centers *)

Section CenterFacts.
Import Kmeans.
Context {F : Type} {FO : FloatOps F} {T : Type} (mapping : T -> F).

Lemma length_add_row (acc row : list F) : length (add_row acc row) = length acc.
Proof. unfold add_row. apply length_imap. Qed.

Lemma reduce_rows_by_key_eq dataset labels dim K centers reset :
  reduce_rows_by_key mapping dataset labels dim K centers reset
  = foldl (reduce_round mapping)
      (if reset then replicate K (replicate dim f_zero) else centers)
      (zip dataset labels).
Proof. reflexivity. Qed.

Lemma reduce_round_length out rl : length (reduce_round mapping out rl) = length out.
Proof.
  destruct rl as [row l]. simpl. destruct (l <? 0); [reflexivity|].
  apply length_alter.
Qed.

Lemma reduce_round_row_length out rl k row :
  reduce_round mapping out rl !! k = Some row ->
  exists row0, out !! k = Some row0 /\ length row = length row0.
Proof.
  destruct rl as [r l]. simpl. destruct (l <? 0); [eauto|].
  destruct (decide (Z.to_nat l = k)) as [<-|Hne].
  - rewrite list_lookup_alter_eq.
    destruct (out !! Z.to_nat l) as [row0|]; simpl; [|discriminate].
    intros [= <-]. exists row0. split; [reflexivity|]. apply length_add_row.
  - rewrite list_lookup_alter_ne by exact Hne. eauto.
Qed.

Lemma reduce_fold_length rls out : length (foldl (reduce_round mapping) out rls) = length out.
Proof.
  revert out. induction rls as [|rl rls IH]; intros out; [reflexivity|].
  simpl. rewrite IH. apply reduce_round_length.
Qed.

Lemma reduce_fold_row_length rls out k row :
  foldl (reduce_round mapping) out rls !! k = Some row ->
  exists row0, out !! k = Some row0 /\ length row = length row0.
Proof.
  revert out. induction rls as [|rl rls IH]; intros out H; [eauto|].
  simpl in H. destruct (IH _ H) as (row1 & H1 & Hlen).
  destruct (reduce_round_row_length _ _ _ _ H1) as (row0 & H0 & Hlen0).
  exists row0. split; [exact H0|congruence].
Qed.

(** A row of the output that no label names is left as it was. *)
Lemma reduce_fold_untouched rls out (k : nat) :
  Forall (fun rl => snd rl <> Z.of_nat k) rls ->
  foldl (reduce_round mapping) out rls !! k = out !! k.
Proof.
  revert out. induction rls as [|[r l] rls IH]; intros out H; [reflexivity|].
  inversion H as [|? ? Hl Hrest]; subst. simpl in Hl. simpl.
  rewrite IH by exact Hrest.
  destruct (Z.ltb_spec l 0); [reflexivity|].
  apply list_lookup_alter_ne. lia.
Qed.

Lemma lookup_matrixVectorOp (m : list (list F)) (vec : list F) op (k : nat) :
  matrixVectorOp m vec op !! k =
  (fun row : list F => match vec !! k with
              | Some v => (fun x => op x v) <$> row
              | None => row
              end) <$> m !! k.
Proof. unfold matrixVectorOp. apply list_lookup_imap. Qed.

Lemma divide_guarded_zero (x : F) :
  f_eq (f_of_Z 0) f_zero = true -> divide_guarded x (f_of_Z 0) = f_zero.
Proof. intros H. unfold divide_guarded. rewrite H. reflexivity. Qed.

Lemma fmap_const_replicate {A B} (b : B) (l : list A) :
  (fun _ => b) <$> l = replicate (length l) b.
Proof. induction l as [|x l IH]; [reflexivity|]. simpl. f_equal. exact IH. Qed.

Lemma length_new_sizes sizes K labels reset : length (new_sizes sizes K labels reset) = K.
Proof. unfold new_sizes. rewrite length_imap. apply length_countLabels. Qed.

Lemma calc_sizes_eq centers sizes K dim dataset labels reset :
  snd (calc_centers_and_sizes mapping centers sizes K dim dataset labels reset)
  = new_sizes sizes K labels reset ++ drop K sizes.
Proof. reflexivity. Qed.

Lemma calc_centers_eq centers sizes K dim dataset labels reset :
  fst (calc_centers_and_sizes mapping centers sizes K dim dataset labels reset)
  = matrixVectorOp
      (reduce_rows_by_key mapping dataset labels dim K
         (if negb reset
          then Utils.map_along_rows K centers sizes (fun c s => f_mul c (f_of_Z s))
          else centers) reset)
      (f_of_Z <$> new_sizes sizes K labels reset) divide_guarded.
Proof. reflexivity. Qed.

(** C7: a cluster whose accumulated size is zero gets the value [0.0f] in
    every coordinate of its center: the division is not evaluated for it, in
    either mode of the call; with the counters reset the center has all its
    [dim] coordinates. *)
Theorem calc_centers_and_sizes_empty_cluster centers sizes (K dim : nat) dataset labels
    (reset : bool) (k : nat) :
  f_eq (f_of_Z 0) f_zero = true ->
  (k < K)%nat ->
  snd (calc_centers_and_sizes mapping centers sizes K dim dataset labels reset) !! k
    = Some 0 ->
  (forall row,
     fst (calc_centers_and_sizes mapping centers sizes K dim dataset labels reset) !! k
       = Some row ->
     row = replicate (length row) f_zero) /\
  (reset = true ->
   fst (calc_centers_and_sizes mapping centers sizes K dim dataset labels reset) !! k
     = Some (replicate dim f_zero)).
Proof.
  intros Hzero Hk Hsize.
  rewrite calc_sizes_eq in Hsize.
  rewrite lookup_app_l in Hsize by (rewrite length_new_sizes; exact Hk).
  rewrite calc_centers_eq.
  assert (Hrow : forall out row,
            matrixVectorOp out (f_of_Z <$> new_sizes sizes K labels reset) divide_guarded
              !! k = Some row ->
            exists row0, out !! k = Some row0 /\ row = replicate (length row0) f_zero).
  { intros out row. rewrite lookup_matrixVectorOp, list_lookup_fmap, Hsize. simpl.
    destruct (out !! k) as [row0|]; simpl; [|discriminate].
    intros [= <-]. exists row0. split; [reflexivity|].
    rewrite <- fmap_const_replicate. apply list_fmap_ext.
    intros i x _. apply divide_guarded_zero. exact Hzero. }
  split.
  - intros row H. destruct (Hrow _ _ H) as (row0 & _ & ->).
    rewrite length_replicate. reflexivity.
  - intros ->. simpl.
    rewrite lookup_matrixVectorOp, list_lookup_fmap, Hsize. simpl.
    rewrite reduce_rows_by_key_eq.
    destruct (foldl (reduce_round mapping) (replicate K (replicate dim f_zero)) (zip dataset labels)
                !! k) as [row|] eqn:Hlk.
    + destruct (reduce_fold_row_length _ _ _ _ Hlk) as (row0 & H0 & Hlen).
      rewrite lookup_replicate in H0. destruct H0 as [-> _].
      rewrite length_replicate in Hlen. simpl. f_equal.
      rewrite <- Hlen, <- fmap_const_replicate. apply list_fmap_ext.
      intros i x _. apply divide_guarded_zero. exact Hzero.
    + apply lookup_ge_None in Hlk. rewrite reduce_fold_length, length_replicate in Hlk. lia.
Qed.

End CenterFacts.

Lemma calc_centers_and_sizes_empty_cluster_witness :
  let r := Kmeans.calc_centers_and_sizes (F := spec_float) Mapping.of_float
             [[Binary32.of_Z 5; Binary32.of_Z 5]; [Binary32.of_Z 6; Binary32.of_Z 6]]
             [0; 0] 2 2
             [[Binary32.of_Z 1; Binary32.of_Z 2]; [Binary32.of_Z 3; Binary32.of_Z 4]]
             [0; 0] true in
  (forall row, fst r !! 1%nat = Some row -> row = replicate (length row) f_zero) /\
  (true = true -> fst r !! 1%nat = Some (replicate 2 f_zero)).
Proof.
  apply (calc_centers_and_sizes_empty_cluster (F := spec_float) Mapping.of_float).
  - reflexivity.
  - lia.
  - reflexivity.
Defined.

(** *** build_clusters: the initial labels *)

Section InitFacts.
Import Kmeans.
Context {F : Type} {FO : FloatOps F} {FL : FloatLimits F}.
Context {T : Type} (mapping : T -> F) (is_float : bool).

Lemma init_labels_S N K :
  init_labels (S N) K = init_labels N K ++ [u32 (Z.of_nat N mod K)].
Proof. unfold init_labels. rewrite seq_S, fmap_app. reflexivity. Qed.

Lemma length_init_labels N K : length (init_labels N K) = N.
Proof. unfold init_labels. rewrite length_fmap, length_seq. reflexivity. Qed.

Lemma init_labels_lookup N K (i : nat) :
  0 < K < 2 ^ 32 -> (i < N)%nat ->
  init_labels N K !! i = Some (Z.of_nat i mod K).
Proof.
  intros HK Hi. unfold init_labels.
  rewrite list_lookup_fmap, lookup_seq_lt by exact Hi. simpl. f_equal.
  apply u32_small. pose proof (Z.mod_pos_bound (Z.of_nat i) K). lia.
Qed.

Lemma round_robin_step (N K k : Z) :
  0 <= N -> 0 <= k < K ->
  (N + 1 + K - 1 - k) / K = (N + K - 1 - k) / K + (if decide (N mod K = k) then 1 else 0).
Proof.
  intros HN Hk.
  pose proof (Z.div_mod N K ltac:(lia)) as Hdm.
  pose proof (Z.mod_pos_bound N K ltac:(lia)) as Hr.
  set (q := N / K) in *. set (r := N mod K) in *.
  replace (N + 1 + K - 1 - k) with (q * K + (r + K - k)) by lia.
  replace (N + K - 1 - k) with (q * K + (r + K - 1 - k)) by lia.
  rewrite !Z.div_add_l by lia.
  destruct (decide (r = k)) as [->|Hne].
  - replace (k + K - k) with (1 * K) by lia. rewrite Z.div_mul by lia.
    rewrite (Z.div_small (k + K - 1 - k)) by lia. lia.
  - destruct (Z.lt_ge_cases r k).
    + rewrite !Z.div_small by lia. lia.
    + replace (r + K - k) with (1 * K + (r - k)) by lia.
      replace (r + K - 1 - k) with (1 * K + (r - 1 - k)) by lia.
      rewrite !Z.div_add_l by lia. rewrite !Z.div_small by lia. lia.
Qed.

Lemma round_robin_bounds (N K k : Z) :
  0 <= N -> 0 <= k < K -> N / K <= (N + K - 1 - k) / K <= N / K + 1.
Proof.
  intros HN Hk.
  pose proof (Z.div_mod N K ltac:(lia)) as Hdm.
  pose proof (Z.mod_pos_bound N K ltac:(lia)) as Hr.
  set (q := N / K) in *. set (r := N mod K) in *.
  replace (N + K - 1 - k) with (q * K + (r + K - 1 - k)) by lia.
  rewrite Z.div_add_l by lia.
  destruct (Z.lt_ge_cases (r + K - 1 - k) K).
  - rewrite Z.div_small by lia. lia.
  - replace (r + K - 1 - k) with (1 * K + (r - 1 - k)) by lia.
    rewrite Z.div_add_l by lia. rewrite Z.div_small by lia. lia.
Qed.

(** Round-robin labels put [ceil((N - k) / K)] rows in cluster [k]. *)
Lemma count_label_init_labels (N K k : nat) :
  (k < K)%nat -> Z.of_nat K < 2 ^ 32 ->
  count_label (init_labels N (Z.of_nat K)) k
  = (Z.of_nat N + Z.of_nat K - 1 - Z.of_nat k) / Z.of_nat K.
Proof.
  intros Hk HK. induction N as [|N IH].
  - rewrite count_label_nil. symmetry. apply Z.div_small. lia.
  - rewrite init_labels_S, count_label_app, IH.
    rewrite count_label_cons, count_label_nil, Z.add_0_r.
    rewrite u32_small by (pose proof (Z.mod_pos_bound (Z.of_nat N) (Z.of_nat K)); lia).
    replace (Z.of_nat (S N) + Z.of_nat K - 1 - Z.of_nat k)
      with (Z.of_nat N + 1 + Z.of_nat K - 1 - Z.of_nat k) by lia.
    rewrite round_robin_step by lia. reflexivity.
Qed.


End InitFacts.


(** *** calc_centers_and_sizes: incremental updates *)

Section IncrementalSizes.
Import Kmeans.
Context {F : Type} {FO : FloatOps F} {T : Type} (mapping : T -> F).

Lemma u32_add_u32 a b : u32 (u32 a + u32 b) = u32 (a + b).
Proof. unfold u32. rewrite <- Z.add_mod by lia. reflexivity. Qed.

Lemma new_sizes_lookup sizes K labels reset (k : nat) :
  (k < K)%nat ->
  new_sizes sizes K labels reset !! k =
  Some (if negb reset then u32 (u32 (count_label labels k) + rd 0 sizes (Z.of_nat k))
        else u32 (count_label labels k)).
Proof.
  intros Hk. unfold new_sizes.
  rewrite list_lookup_imap, countLabels_lookup by exact Hk. reflexivity.
Qed.

Lemma new_sizes_incremental sizes (K : nat) lA lB :
  new_sizes (new_sizes sizes K lA true ++ drop K sizes) K lB false
  = new_sizes sizes K (lA ++ lB) true.
Proof.
  apply list_eq. intros k.
  destruct (decide (k < K)%nat) as [Hk|Hk].
  - rewrite !new_sizes_lookup by exact Hk. simpl. f_equal.
    erewrite rd_lookup.
    2:{ rewrite lookup_app_l by (rewrite length_new_sizes; exact Hk).
        rewrite new_sizes_lookup by exact Hk. reflexivity. }
    simpl. rewrite count_label_app, u32_add_u32. f_equal. lia.
  - rewrite !lookup_ge_None_2 by (rewrite length_new_sizes; lia). reflexivity.
Qed.

(** The sizes after two passes, the second accumulating, are those of one
    pass over both shards. *)
Lemma calc_sizes_incremental centers sizes (K dim : nat) (A B : list (list T)) lA lB :
  let rA := calc_centers_and_sizes mapping centers sizes K dim A lA true in
  snd (calc_centers_and_sizes mapping (fst rA) (snd rA) K dim B lB false)
  = snd (calc_centers_and_sizes mapping centers sizes K dim (A ++ B) (lA ++ lB) true).
Proof.
  intros rA. unfold rA. rewrite !calc_sizes_eq.
  rewrite drop_app_length' by (rewrite length_new_sizes; reflexivity).
  f_equal. apply new_sizes_incremental.
Qed.

End IncrementalSizes.

Section IncrementalCenters.
Import Kmeans.
Context {T : Type} (mapping : T -> R).

Lemma divide_guarded_mul (x : R) (n : Z) :
  n <> 0 \/ x = 0%R ->
  f_mul (divide_guarded x (f_of_Z n)) (f_of_Z n) = x.
Proof.
  intros H. unfold divide_guarded. simpl.
  destruct (decide (n = 0)) as [->|Hn].
  - destruct H as [H| ->]; [contradiction|].
    rewrite bool_decide_true by reflexivity. lra.
  - rewrite bool_decide_false by (apply not_0_IZR; exact Hn).
    field. apply not_0_IZR. exact Hn.
Qed.

Lemma count_label_zero_Forall (rows : list (list T)) labels (k : nat) :
  count_label labels k = 0 ->
  Forall (fun rl : list T * Z => snd rl <> Z.of_nat k) (zip rows labels).
Proof.
  revert rows. induction labels as [|l labels IH]; intros rows H.
  - destruct rows; constructor.
  - destruct rows as [|r rows]; [constructor|].
    rewrite count_label_cons in H. pose proof (count_label_range labels k).
    destruct (decide (l = Z.of_nat k)); [lia|].
    constructor; [assumption|]. apply IH. lia.
Qed.

(** Weighting the centers of a pass by its sizes gives back its sums. *)
Lemma map_along_rows_undoes_division (K dim : nat) (A : list (list T)) lA sizes :
  Z.of_nat (length lA) < 2 ^ 32 ->
  let sums := reduce_rows_by_key mapping A lA dim K [] true in
  let sizesA := new_sizes sizes K lA true in
  Utils.map_along_rows K (matrixVectorOp sums (f_of_Z <$> sizesA) divide_guarded)
    (sizesA ++ drop K sizes) (fun c s => f_mul c (f_of_Z s))
  = sums.
Proof.
  intros Hn sums sizesA. apply list_eq. intros k.
  unfold Utils.map_along_rows. rewrite list_lookup_imap, lookup_matrixVectorOp.
  assert (Hlen : length sums = K).
  { unfold sums. rewrite reduce_rows_by_key_eq, reduce_fold_length.
    apply length_replicate. }
  destruct (sums !! k) as [row|] eqn:Hrow; [|reflexivity].
  assert (Hk : (k < K)%nat) by (apply lookup_lt_Some in Hrow; lia).
  simpl. destruct (Nat.ltb_spec k K) as [_|?]; [|lia].
  rewrite lookup_app_l by (unfold sizesA; rewrite length_new_sizes; exact Hk).
  rewrite list_lookup_fmap. unfold sizesA at 1 2.
  rewrite new_sizes_lookup by exact Hk. simpl.
  rewrite u32_small by (pose proof (count_label_range lA k); lia).
  f_equal. rewrite <- list_fmap_compose.
  rewrite <- (list_fmap_id row) at 2. apply list_fmap_ext. intros i x Hx. simpl.
  apply divide_guarded_mul.
  destruct (decide (count_label lA k = 0)) as [H0|H0]; [right|left; exact H0].
  unfold sums in Hrow. rewrite reduce_rows_by_key_eq in Hrow.
  rewrite (reduce_fold_untouched mapping) in Hrow
    by (apply count_label_zero_Forall; exact H0).
  apply lookup_replicate in Hrow. destruct Hrow as [-> _].
  apply lookup_replicate in Hx. destruct Hx as [-> _]. reflexivity.
Qed.

End IncrementalCenters.

Section IncrementalTheorem.
Import Kmeans.

Lemma calc_centers_incremental {T : Type} (mapping : T -> R) centers sizes (K dim : nat)
    (A B : list (list T)) lA lB :
  length A = length lA ->
  Z.of_nat (length lA) < 2 ^ 32 ->
  let rA := calc_centers_and_sizes mapping centers sizes K dim A lA true in
  fst (calc_centers_and_sizes mapping (fst rA) (snd rA) K dim B lB false)
  = fst (calc_centers_and_sizes mapping centers sizes K dim (A ++ B) (lA ++ lB) true).
Proof.
  intros Hlen Hn rA. unfold rA. rewrite !calc_centers_eq, !calc_sizes_eq. simpl.
  rewrite new_sizes_incremental. f_equal.
  rewrite !reduce_rows_by_key_eq.
  pose proof (map_along_rows_undoes_division mapping K dim A lA sizes Hn) as Hundo.
  simpl in Hundo. rewrite reduce_rows_by_key_eq in Hundo. rewrite Hundo.
  rewrite zip_with_app by exact Hlen. rewrite foldl_app. reflexivity.
Qed.

(** C3, as stated, fails in single precision: the center of the first pass is
    [31 / 7] rounded; weighting it by 7 gives [31 - 2 ^ -19], and the second
    pass ends with [4 - 2 ^ -22] where one pass over the eight rows gives 4. *)
Lemma calc_centers_and_sizes_incremental_counterexample :
  let labels_a := [0; 0; 0; 0; 0; 0; 0] in
  let labels_b := [0] in
  let rA := Kmeans.calc_centers_and_sizes Mapping.of_float [] [] 1 1 shard_a labels_a true in
  Forall (fun l => 0 <= l < 1) (labels_a ++ labels_b) /\
  Kmeans.calc_centers_and_sizes Mapping.of_float (fst rA) (snd rA) 1 1 shard_b labels_b false
  <> Kmeans.calc_centers_and_sizes Mapping.of_float [] [] 1 1
       (shard_a ++ shard_b) (labels_a ++ labels_b) true.
Proof.
  split; [repeat constructor; lia|].
  vm_compute. intros H. discriminate H.
Qed.

(** C3, amended: the two passes leave exactly the cluster sizes of the single
    pass, and they leave its centers when the arithmetic is exact (fewer than
    [2 ^ 32] rows, so that no size wraps around); in single precision the
    centers agree up to rounding only. *)
Theorem calc_centers_and_sizes_incremental :
  (forall (F : Type) (FO : FloatOps F) (T : Type) (mapping : T -> F)
          centers sizes (K dim : nat) (A B : list (list T)) lA lB,
     let rA := calc_centers_and_sizes mapping centers sizes K dim A lA true in
     snd (calc_centers_and_sizes mapping (fst rA) (snd rA) K dim B lB false)
     = snd (calc_centers_and_sizes mapping centers sizes K dim (A ++ B) (lA ++ lB) true))
  /\
  (forall (T : Type) (mapping : T -> R)
          centers sizes (K dim : nat) (A B : list (list T)) lA lB,
     length A = length lA ->
     Z.of_nat (length lA) < 2 ^ 32 ->
     let rA := calc_centers_and_sizes mapping centers sizes K dim A lA true in
     calc_centers_and_sizes mapping (fst rA) (snd rA) K dim B lB false
     = calc_centers_and_sizes mapping centers sizes K dim (A ++ B) (lA ++ lB) true).
Proof.
  split.
  - intros. apply calc_sizes_incremental.
  - intros T mapping centers sizes K dim A B lA lB Hlen Hn rA.
    apply injective_projections.
    + apply calc_centers_incremental; assumption.
    + apply (calc_sizes_incremental mapping).
Qed.

Lemma calc_centers_and_sizes_incremental_witness :
  let A := [[3%R]; [4%R]; [9%R]] in
  let B := [[1%R]; [5%R]] in
  let rA := calc_centers_and_sizes (fun x : R => x) [] [] 2 1 A [0; 1; 0] true in
  calc_centers_and_sizes (fun x : R => x) (fst rA) (snd rA) 2 1 B [1; 1] false
  = calc_centers_and_sizes (fun x : R => x) [] [] 2 1 (A ++ B) ([0; 1; 0] ++ [1; 1]) true.
Proof.
  apply (proj2 calc_centers_and_sizes_incremental R (fun x : R => x) [] [] 2%nat 1%nat
           [[3%R]; [4%R]; [9%R]] [[1%R]; [5%R]] [0; 1; 0] [1; 1]).
  - reflexivity.
  - simpl. lia.
Defined.

End IncrementalTheorem.

(** *** predict_float_core: the metrics *)

Section MetricFacts.
Import Kmeans.
Context {F : Type} {FO : FloatOps F} {FL : FloatLimits F}.
Context {T : Type} (mapping : T -> F) (is_float : bool).

(** C8: for every metric other than L2-expanded, L2-sqrt-expanded and
    inner-product the call stops with the unsupported-metric error, whatever
    the data, and returns no labels; for these three it returns labels. *)
Theorem predict_float_core_unsupported_metric
    (centers : list (list F)) (n_clusters : nat) (dataset : list (list F))
    (dataset_norm : option (list F)) (n_rows : nat) (metric : DistanceType) :
  (supported metric = false ->
   predict_float_core centers n_clusters dataset dataset_norm n_rows metric
   = Fail (unsupported_metric metric)) /\
  (supported metric = true ->
   exists labels,
     predict_float_core centers n_clusters dataset dataset_norm n_rows metric
     = Ok labels).
Proof.
  split; intros H; destruct metric; simpl in H; try discriminate;
    simpl; eauto.
Qed.

(** The minibatch loop reaches [predict_float_core] in its first round, so
    [predict] stops with the same error on every dataset that is not empty. *)
Lemma predict_unsupported_metric (fuel : nat) centers n_clusters dim
    (dataset : list (list T)) n_rows labels metric dataset_norm :
  supported metric = false -> 0 < n_rows ->
  predict mapping is_float (S fuel) centers n_clusters dim dataset n_rows labels metric
    dataset_norm
  = Fail (unsupported_metric metric).
Proof.
  intros Hm Hn. unfold predict. simpl.
  destruct (Z.ltb_spec 0 n_rows) as [_|?]; [|lia].
  rewrite (proj1 (predict_float_core_unsupported_metric _ _ _ _ _ metric) Hm).
  reflexivity.
Qed.

(** With a supported metric no round of the loop fails. *)
Lemma predict_loop_supported (fuel : nat) centers n_clusters (dataset : list (list T))
    n_rows metric dataset_norm mb offset labels e :
  supported metric = true ->
  predict_loop mapping fuel centers n_clusters dataset n_rows metric dataset_norm
    mb offset labels <> Fail e.
Proof.
  intros Hm. revert offset labels. induction fuel as [|fuel IH]; intros offset labels.
  - discriminate.
  - simpl. destruct (offset <? n_rows); [|discriminate].
    match goal with
    | |- context [predict_float_core ?c ?k ?d ?n ?r metric] =>
        destruct (proj2 (predict_float_core_unsupported_metric c k d n r metric) Hm)
          as [out ->]
    end.
    simpl. apply IH.
Qed.

End MetricFacts.

Lemma predict_float_core_unsupported_metric_witness :
  Kmeans.predict_float_core (F := spec_float) [[Binary32.of_Z 1]] 1
    [[Binary32.of_Z 2]] None 1 CosineExpanded
  = Fail (unsupported_metric CosineExpanded).
Proof.
  apply (proj1 (predict_float_core_unsupported_metric (F := spec_float)
                  [[Binary32.of_Z 1]] 1 [[Binary32.of_Z 2]] None 1 CosineExpanded)).
  reflexivity.
Defined.

(** *** balancing_em_iters: the rebalancing counter *)

Section CounterFacts.
Import Kmeans.
Context {F : Type} {FO : FloatOps F} {FL : FloatLimits F}.
Context {T : Type} (mapping : T -> F) (is_float : bool).

Lemma counter_after_0 p : 1 <= p -> counter_after p 0 p.
Proof. intros Hp. left. split; [apply Z.mod_0_l; lia|reflexivity]. Qed.

Lemma counter_after_extends p m c :
  1 <= p -> counter_after p m c -> (p <=? c) = true <-> m mod p = 0.
Proof.
  intros Hp [[Hm ->]|[Hm ->]].
  - rewrite Z.leb_refl. tauto.
  - pose proof (Z.mod_pos_bound m p ltac:(lia)) as Hr.
    split; [intros Hle%Z.leb_le; lia|contradiction].
Qed.

Lemma balancing_step_counter p m c n :
  1 <= p < 2 ^ 32 -> counter_after p m c ->
  counter_after p (m + 1) (fst (fst (balancing_step c p n))) /\
  snd (balancing_step c p n) = (p <=? c) /\
  snd (fst (balancing_step c p n)) = (if p <=? c then u32 (n + 1) else n).
Proof.
  intros Hp Hc. unfold balancing_step.
  pose proof (Z.mod_pos_bound m p ltac:(lia)) as Hr.
  assert (Hnext : (m + 1) mod p = (m mod p + 1) mod p).
  { rewrite Z.add_mod_idemp_l by lia. reflexivity. }
  destruct Hc as [[Hm ->]|[Hm ->]].
  - rewrite Z.leb_refl. simpl. split; [|split; reflexivity].
    assert (u32 (u32 (p + 1) - p) = 1) as ->.
    { unfold u32. rewrite Zminus_mod_idemp_l.
      replace (p + 1 - p) with 1 by lia. reflexivity. }
    unfold counter_after. rewrite Hnext, Hm. simpl.
    destruct (decide (p = 1)) as [->|Hp1].
    + left. split; reflexivity.
    + right. rewrite Z.mod_small by lia. split; [lia|reflexivity].
  - destruct (Z.leb_spec p (m mod p)) as [?|Hlt]; [lia|]. simpl.
    split; [|split; reflexivity].
    rewrite u32_small by lia. unfold counter_after. rewrite Hnext.
    destruct (decide (m mod p + 1 = p)) as [Heq|Hne].
    + left. rewrite Heq, Z.mod_same by lia. split; [reflexivity|lia].
    + right. rewrite Z.mod_small by lia. split; [lia|reflexivity].
Qed.

(** One round: its record, and the counter it leaves. *)
Lemma em_iteration_counter fuel ptrs dim K (dataset : list (list T)) dataset_norm n_rows
    metric p thr st m :
  1 <= p < 2 ^ 32 ->
  counter_after p m (em_balancing_counter st) ->
  let res :=
    em_iteration mapping is_float fuel ptrs dim K dataset dataset_norm n_rows metric p thr
      st in
  (fst res = [] /\ (forall st', snd res <> Ok st')) \/
  (exists it,
     fst res = [it] /\ round_ok p it /\
     it_counter_before it = em_balancing_counter st /\
     (it_adjusted it = true -> (it_extended it = true <-> m mod p = 0)) /\
     (forall st', snd res = Ok st' ->
        counter_after p (if it_adjusted it then m + 1 else m) (em_balancing_counter st'))).
Proof.
  intros Hp Hc res. subst res. unfold em_iteration.
  assert (Hquiet : forall ran centers (r : result (em_state (F := F))),
    let it := mk_iteration (em_iter st) ran false false (em_n_iters st) (em_n_iters st)
                (em_balancing_counter st) (em_balancing_counter st) centers
                (if normalizes metric then Utils.normalize_rows K dim centers else centers)
    in
    ran = (0 <? em_iter st) ->
    (forall st', r = Ok st' -> em_balancing_counter st' = em_balancing_counter st) ->
    round_ok p it /\
    it_counter_before it = em_balancing_counter st /\
    (it_adjusted it = true -> (it_extended it = true <-> m mod p = 0)) /\
    (forall st', r = Ok st' ->
       counter_after p (if it_adjusted it then m + 1 else m) (em_balancing_counter st'))).
  { intros ran centers r it Hran Hr. unfold round_ok. simpl.
    split; [|split; [reflexivity|split]].
    - split; [exact Hran|]. split; [discriminate|]. split; reflexivity.
    - discriminate.
    - intros st' Hst'. rewrite (Hr _ Hst'). exact Hc. }
  destruct (0 <? em_iter st) eqn:Hiter.
  - destruct (adjust_centers _ _ _ _ _ _ _ _ _ _ _ _) as [[[centers adjusted] static]|e|].
    + destruct adjusted.
      * pose proof (balancing_step_counter p m (em_balancing_counter st) (em_n_iters st)
                      Hp Hc) as (Hnext & Hext & Hn).
        destruct (balancing_step (em_balancing_counter st) p (em_n_iters st))
          as [[counter n_iters] extended]. simpl in Hnext, Hext, Hn. subst extended n_iters.
        right. eexists. split; [reflexivity|]. unfold round_ok. simpl.
        split; [|split; [reflexivity|split]].
        -- split; [symmetry; exact Hiter|]. split; [reflexivity|]. split; reflexivity.
        -- intros _. apply counter_after_extends; [lia|exact Hc].
        -- intros st'.
           destruct (predict _ _ _ _ _ _ _ _ _ _ _) as [labels| |]; simpl;
             try discriminate.
           intros [= <-]. exact Hnext.
      * right. eexists. split; [reflexivity|]. apply Hquiet; [reflexivity|].
        intros st'. simpl.
        destruct (predict _ _ _ _ _ _ _ _ _ _ _) as [labels| |]; simpl; try discriminate.
        intros [= <-]. reflexivity.
    + left. split; [reflexivity|discriminate].
    + left. split; [reflexivity|discriminate].
  - right. eexists. split; [reflexivity|]. apply Hquiet; [reflexivity|].
    intros st'. simpl.
    destruct (predict _ _ _ _ _ _ _ _ _ _ _) as [labels| |]; simpl; try discriminate.
    intros [= <-]. reflexivity.
Qed.

End CounterFacts.

Section CounterTheorem.
Import Kmeans.
Context {F : Type} {FO : FloatOps F} {FL : FloatLimits F}.
Context {T : Type} (mapping : T -> F) (is_float : bool).

Lemma rebalancings_cons (it : iteration (F := F)) log :
  rebalancings (it :: log)
  = if it_adjusted it then it :: rebalancings log else rebalancings log.
Proof.
  unfold rebalancings. rewrite filter_cons.
  destruct (it_adjusted it); reflexivity.
Qed.

Lemma em_loop_counter rounds fuel ptrs dim K (dataset : list (list T)) dataset_norm n_rows
    metric p thr st m :
  1 <= p < 2 ^ 32 ->
  0 <= m ->
  counter_after p m (em_balancing_counter st) ->
  let log :=
    fst (em_loop mapping is_float rounds fuel ptrs dim K dataset dataset_norm n_rows metric
           p thr st) in
  Forall (round_ok p) log /\
  (forall it log', log = it :: log' -> it_counter_before it = em_balancing_counter st) /\
  (forall (k : nat) it,
     rebalancings log !! k = Some it ->
     (it_extended it = true <-> (m + Z.of_nat k) mod p = 0)).
Proof.
  intros Hp. revert st m. induction rounds as [|rounds IH]; intros st m Hm Hc; simpl.
  - split; [constructor|]. split; [discriminate|]. intros k it. discriminate.
  - destruct (em_iter st <? em_n_iters st).
    2:{ simpl. split; [constructor|]. split; [discriminate|]. intros k it. discriminate. }
    pose proof (em_iteration_counter mapping is_float fuel ptrs dim K dataset dataset_norm
                  n_rows metric p thr st m Hp Hc) as Hit.
    simpl in Hit.
    destruct (em_iteration mapping is_float fuel ptrs dim K dataset dataset_norm n_rows
                metric p thr st) as [log r].
    simpl in Hit. destruct Hit as [[-> Hr]|(it & -> & Hok & Hbefore & Hext & Hnext)].
    + destruct r as [st'| |]; [destruct (Hr st' eq_refl)| |]; simpl;
        (split; [constructor|]; split; [discriminate|]; intros k it; discriminate).
    + assert (Hhead : forall k it',
                rebalancings [it] !! k = Some it' ->
                (it_extended it' = true <-> (m + Z.of_nat k) mod p = 0)).
      { intros k it'. rewrite rebalancings_cons. unfold rebalancings at 1.
        rewrite filter_nil.
        destruct (it_adjusted it) eqn:Hadj; [|discriminate].
        destruct k as [|k]; [|discriminate]. intros [= <-].
        rewrite Z.add_0_r. apply Hext. reflexivity. }
      destruct r as [st'| |]; simpl.
      2,3: split; [constructor; [exact Hok|constructor]|];
           split; [intros ? ? [= <- _]; exact Hbefore|exact Hhead].
      specialize (Hnext st' eq_refl).
      assert (Hm' : 0 <= (if it_adjusted it then m + 1 else m))
        by (destruct (it_adjusted it); lia).
      specialize (IH st' (if it_adjusted it then m + 1 else m) Hm' Hnext).
      destruct (em_loop mapping is_float rounds fuel ptrs dim K dataset dataset_norm n_rows
                  metric p thr st') as [log' r']. simpl in IH |- *.
      destruct IH as (Hall & _ & Hreb).
      split; [constructor; assumption|].
      split; [intros ? ? [= <- _]; exact Hbefore|].
      intros k it'. rewrite rebalancings_cons.
      destruct (it_adjusted it) eqn:Hadj.
      * destruct k as [|k]; simpl.
        -- intros [= <-]. rewrite Z.add_0_r. apply Hext. reflexivity.
        -- intros Hk. rewrite (Hreb _ _ Hk).
           replace (m + 1 + Z.of_nat k) with (m + Z.of_nat (S k)) by lia. reflexivity.
      * apply Hreb.
Qed.


End CounterTheorem.



(** *** Strided loops *)

Section StridedFacts.
Import Utils.

Lemma filter_seq_none (step tx j len : nat) :
  (forall i, j <= i < j + len -> i mod step <> tx)%nat ->
  filter (fun i => (i mod step = tx)%nat) (seq j len) = [].
Proof.
  revert j. induction len as [|len IH]; intros j H; [reflexivity|].
  simpl. rewrite filter_cons_False by (apply H; lia).
  apply IH. intros i Hi. apply H. lia.
Qed.

Lemma mod_between (step tx j i : nat) :
  (0 < step -> j mod step = tx -> j < i < j + step -> i mod step <> tx)%nat.
Proof.
  intros Hs Hj Hi Heq.
  pose proof (Nat.div_mod_eq j step) as Hdj. pose proof (Nat.div_mod_eq i step) as Hdi.
  rewrite Hj in Hdj. rewrite Heq in Hdi.
  assert (j / step < i / step)%nat by nia.
  nia.
Qed.

(** The loop as a fold over the columns it visits. *)
Lemma strided_loop_fold {St : Type} (body : nat -> St -> St) (step n tx : nat) :
  (0 < step)%nat ->
  forall (fuel j : nat) (s : St),
    (j mod step = tx)%nat -> (n <= j + fuel)%nat ->
    strided_loop fuel j step n body s
    = foldl (fun s j => body j s) s
        (filter (fun i => (i mod step = tx)%nat) (seq j (n - j))).
Proof.
  intros Hs. induction fuel as [|fuel IH]; intros j s Hj Hfuel.
  - simpl. replace (n - j)%nat with 0%nat by lia. reflexivity.
  - simpl. destruct (Nat.ltb_spec j n) as [Hlt|Hge].
    + rewrite IH.
      * destruct (Nat.le_gt_cases (j + step) n) as [Hle|Hgt].
        -- replace (n - j)%nat with (1 + ((step - 1) + (n - (j + step))))%nat by lia.
           rewrite !seq_app. change (seq j 1) with [j].
           rewrite !list.filter_app, filter_cons_True by exact Hj.
           rewrite filter_nil.
           rewrite (filter_seq_none step tx (j + 1) (step - 1)).
           2:{ intros i Hi. apply (mod_between step tx j i Hs Hj). lia. }
           simpl. replace (j + 1 + (step - 1))%nat with (j + step)%nat by lia.
           reflexivity.
        -- replace (n - (j + step))%nat with 0%nat by lia. simpl.
           replace (n - j)%nat with (1 + (n - j - 1))%nat by lia.
           rewrite seq_app. change (seq j 1) with [j].
           rewrite list.filter_app, filter_cons_True by exact Hj.
           rewrite filter_nil.
           rewrite (filter_seq_none step tx (j + 1) (n - j - 1)).
           2:{ intros i Hi. apply (mod_between step tx j i Hs Hj). lia. }
           reflexivity.
      * rewrite <- Hj. rewrite <- Nat.Div0.add_mod_idemp_r, Nat.Div0.mod_same, Nat.add_0_r.
        reflexivity.
      * lia.
    + replace (n - j)%nat with 0%nat by lia. reflexivity.
Qed.

Lemma strided_loop_stride {St : Type} (body : nat -> St -> St) (step n tx : nat) (s : St) :
  (tx < step)%nat ->
  strided_loop n tx step n body s = foldl (fun s j => body j s) s (stride step n tx).
Proof.
  intros Htx. unfold stride.
  assert (Hsplit : seq 0 n = seq 0 (Nat.min tx n) ++ seq (Nat.min tx n) (n - tx)).
  { rewrite <- seq_app. f_equal. lia. }
  rewrite Hsplit, list.filter_app.
  rewrite (filter_seq_none step tx 0 (Nat.min tx n)).
  2:{ intros i Hi. rewrite Nat.mod_small by lia. lia. }
  simpl. destruct (Nat.le_gt_cases n tx) as [Hle|Hgt].
  - replace (n - tx)%nat with 0%nat by lia. simpl.
    destruct n; simpl; [reflexivity|].
    destruct (Nat.ltb_spec tx (S n)); [lia|reflexivity].
  - rewrite Nat.min_l by lia.
    apply strided_loop_fold; [lia|apply Nat.mod_small; exact Htx|lia].
Qed.

Lemma elem_of_stride (step n tx j : nat) :
  j ∈ stride step n tx <-> (j < n /\ j mod step = tx)%nat.
Proof.
  unfold stride. rewrite list_elem_of_filter, elem_of_seq. split; intros; lia.
Qed.

End StridedFacts.

(** *** normalize_rows *)

Section NormalizeReal.
Import Utils.
Local Open Scope R_scope.

Lemma Rsum_app l k : Rsum (l ++ k) = Rsum l + Rsum k.
Proof. unfold Rsum. induction l as [|x l IH]; simpl; lra. Qed.

Lemma Rsum_cons x l : Rsum (x :: l) = x + Rsum l.
Proof. reflexivity. Qed.

Lemma Rsum_fmap_zero {A} (f : A -> R) l :
  (forall x, x ∈ l -> f x = 0) -> Rsum (f <$> l) = 0.
Proof.
  induction l as [|x l IH]; intros H; [reflexivity|].
  rewrite fmap_cons, Rsum_cons, IH, H; [lra|left|].
  intros y Hy. apply H. right. exact Hy.
Qed.

Lemma Rsum_fmap_scale {A} (f : A -> R) (c : R) l :
  Rsum ((fun x => f x * c) <$> l) = Rsum (f <$> l) * c.
Proof.
  induction l as [|x l IH]; [unfold Rsum; simpl; lra|].
  rewrite !fmap_cons, !Rsum_cons, IH. lra.
Qed.

Lemma foldl_Rplus {A} (f : A -> R) (a : R) l :
  foldl (fun acc x => acc + f x) a l = a + Rsum (f <$> l).
Proof.
  revert a. induction l as [|x l IH]; intros a; [unfold Rsum; simpl; lra|].
  simpl foldl. rewrite IH, fmap_cons, Rsum_cons. lra.
Qed.

Lemma lane_sqsum_Rsum (n_cols : nat) (row : list R) (tx : nat) :
  (tx < WarpSize)%nat ->
  lane_sqsum n_cols row tx = Rsum (sq_at row <$> stride WarpSize n_cols tx).
Proof.
  intros Htx. unfold lane_sqsum. rewrite strided_loop_stride by exact Htx.
  simpl. rewrite (foldl_Rplus (sq_at row)). lra.
Qed.

Lemma stride_S (step n tx : nat) :
  stride step (S n) tx
  = stride step n tx ++ (if decide (n mod step = tx)%nat then [n] else []).
Proof.
  unfold stride. rewrite seq_S, list.filter_app. reflexivity.
Qed.

(** Every column belongs to the stride of exactly one lane. *)
Lemma Rsum_lanes (f : nat -> R) (step n : nat) :
  (0 < step)%nat ->
  Rsum ((fun tx => Rsum (f <$> stride step n tx)) <$> seq 0 step) = Rsum (f <$> seq 0 n).
Proof.
  intros Hs. induction n as [|n IH].
  - simpl. apply Rsum_fmap_zero. intros; reflexivity.
  - rewrite seq_S, fmap_app, Rsum_app. simpl. rewrite Rplus_0_r.
    rewrite <- IH.
    assert (Hone : Rsum ((fun tx => if decide (n mod step = tx)%nat then f n else 0)
                           <$> seq 0 step) = f n).
    { pose proof (Nat.mod_upper_bound n step ltac:(lia)) as Hlt.
      revert Hlt. generalize (n mod step)%nat as r. clear.
      induction step as [|step IHs]; intros r Hr; [lia|].
      rewrite seq_S, fmap_app, Rsum_app. simpl. rewrite Rplus_0_r.
      destruct (decide (r = step)) as [->|Hne].
      - rewrite Rsum_fmap_zero; [lra|].
        intros tx Htx. apply elem_of_seq in Htx.
        destruct (decide (step = tx)); [lia|reflexivity].
      - rewrite IHs by lia. lra. }
    rewrite <- Hone. clear Hone IH.
    induction (seq 0 step) as [|tx l IHl]; [unfold Rsum; simpl; lra|].
    rewrite !fmap_cons, !Rsum_cons, IHl. rewrite stride_S, fmap_app, Rsum_app.
    destruct (decide (n mod step = tx)%nat); simpl; unfold Rsum; simpl; lra.
Qed.

End NormalizeReal.

Section NormalizeKernelReal.
Import Utils.
Local Open Scope R_scope.

Lemma lxor_lt_32 (a b : nat) : (a < 32 -> b < 32 -> Nat.lxor a b < 32)%nat.
Proof.
  intros Ha Hb. destruct (Nat.eq_dec (Nat.lxor a b) 0%nat) as [->|Hne]; [lia|].
  change 32%nat with (2 ^ 5)%nat. apply Nat.log2_lt_pow2; [lia|].
  pose proof (Nat.log2_lxor a b) as Hlog.
  assert (Nat.log2 a < 5)%nat.
  { destruct (Nat.eq_dec a 0%nat) as [->|?]; [vm_compute; lia|].
    apply Nat.log2_lt_pow2; [lia|exact Ha]. }
  assert (Nat.log2 b < 5)%nat.
  { destruct (Nat.eq_dec b 0%nat) as [->|?]; [vm_compute; lia|].
    apply Nat.log2_lt_pow2; [lia|exact Hb]. }
  lia.
Qed.

(** One shuffle, on lanes given by a function of the lane index. *)
Lemma shfl_xor_add_fn (g : nat -> R) (mask : nat) :
  (mask < 32)%nat ->
  shfl_xor_add mask (g <$> seq 0 WarpSize)
  = (fun tx => g tx + g (Nat.lxor tx mask)) <$> seq 0 WarpSize.
Proof.
  intros Hm. apply list_eq. intros tx. unfold shfl_xor_add, WarpSize.
  rewrite list_lookup_imap, !list_lookup_fmap.
  destruct (decide (tx < 32)%nat) as [Htx|Htx].
  - rewrite (lookup_seq_lt 0 32 tx) by lia.
    rewrite (lookup_seq_lt 0 32 (Nat.lxor tx mask)) by (apply lxor_lt_32; assumption).
    reflexivity.
  - rewrite (lookup_seq_ge 0 32 tx) by lia. reflexivity.
Qed.

(** After the five shuffles every lane holds the sum of all lanes. *)
Lemma shfl_xor_add_all (lanes : list R) :
  length lanes = WarpSize ->
  shfl_xor_add 16 (shfl_xor_add 8 (shfl_xor_add 4 (shfl_xor_add 2 (shfl_xor_add 1 lanes))))
  = replicate WarpSize (Rsum lanes).
Proof.
  intros Hlen.
  assert (Hg : lanes = (fun i => default 0 (lanes !! i)) <$> seq 0 WarpSize).
  { apply list_eq. intros i. rewrite list_lookup_fmap.
    destruct (lanes !! i) as [x|] eqn:Hi.
    - rewrite lookup_seq_lt by (apply lookup_lt_Some in Hi; lia).
      simpl. rewrite Hi. reflexivity.
    - rewrite lookup_seq_ge by (apply lookup_ge_None in Hi; lia). reflexivity. }
  revert Hg. generalize (fun i => default 0 (lanes !! i)) as g. intros g ->.
  rewrite !shfl_xor_add_fn by lia.
  unfold WarpSize, Rsum. simpl.
  cbv [Nat.lxor Nat.bitwise Nat.odd Nat.even Nat.div2 xorb Nat.max Nat.b2n Nat.add
       Nat.mul negb].
  repeat (apply (f_equal2 cons); [ring|]). reflexivity.
Qed.

Lemma sq_at_seq (row : list R) :
  sq_at row <$> seq 0 (length row) = (fun v => v * v) <$> row.
Proof.
  apply list_eq. intros j. rewrite !list_lookup_fmap.
  destruct (row !! j) as [v|] eqn:Hj.
  - rewrite lookup_seq_lt by (apply lookup_lt_Some in Hj; exact Hj).
    simpl. unfold sq_at. rewrite Hj. reflexivity.
  - rewrite lookup_seq_ge by (apply lookup_ge_None in Hj; lia). reflexivity.
Qed.

Lemma warp_sqsum_real (row : list R) :
  warp_sqsum (length row) row = replicate WarpSize (squared_norm row).
Proof.
  unfold warp_sqsum. rewrite shfl_xor_add_all by (rewrite length_fmap, length_seq; reflexivity).
  f_equal. unfold squared_norm. rewrite <- sq_at_seq.
  rewrite <- (Rsum_lanes (sq_at row) WarpSize (length row)) by (unfold WarpSize; lia).
  f_equal. apply list_fmap_ext. intros i tx Htx. apply lane_sqsum_Rsum.
  apply lookup_seq in Htx. lia.
Qed.

(** The kernel on a row of reals. *)
Lemma normalize_rows_kernel_real (row : list R) :
  normalize_rows_kernel (length row) row
  = if bool_decide (squared_norm row <= / 100000000) then row
    else (fun v => v * / sqrt (squared_norm row)) <$> row.
Proof.
  unfold normalize_rows_kernel. rewrite warp_sqsum_real.
  apply list_eq. intros j. rewrite list_lookup_imap.
  assert (Hrhs : (if bool_decide (squared_norm row <= / 100000000) then row
                  else (fun v => v * / sqrt (squared_norm row)) <$> row) !! j
                 = (fun v => if bool_decide (squared_norm row <= / 100000000) then v
                             else v * / sqrt (squared_norm row)) <$> row !! j).
  { destruct (bool_decide (squared_norm row <= / 100000000)).
    - destruct (row !! j); reflexivity.
    - apply list_lookup_fmap. }
  rewrite Hrhs. destruct (row !! j) as [v|] eqn:Hj; [|reflexivity].
  pose proof (lookup_lt_Some _ _ _ Hj) as Hlt.
  cbn [fmap option_fmap option_map]. f_equal.
  destruct (Nat.ltb_spec j (length row)) as [_|?]; [|lia].
  rewrite lookup_replicate_2 by (apply Nat.mod_upper_bound; unfold WarpSize; lia).
  reflexivity.
Qed.

Lemma squared_norm_scaled (row : list R) (c : R) :
  squared_norm ((fun v => v * c) <$> row) = squared_norm row * (c * c).
Proof.
  unfold squared_norm. rewrite <- list_fmap_compose.
  rewrite <- (Rsum_fmap_scale (fun v => v * v) (c * c)).
  f_equal. apply list_fmap_ext. intros i v _. simpl. ring.
Qed.

Lemma normalize_rows_kernel_unit (row : list R) :
  / 100000000 < squared_norm row ->
  squared_norm (normalize_rows_kernel (length row) row) = 1.
Proof.
  intros Hbig. rewrite normalize_rows_kernel_real.
  rewrite bool_decide_false by lra.
  rewrite squared_norm_scaled.
  assert (Hpos : 0 < squared_norm row) by lra.
  pose proof (sqrt_lt_R0 _ Hpos) as Hsqrt.
  rewrite <- Rinv_mult. rewrite sqrt_sqrt by lra. field. lra.
Qed.

End NormalizeKernelReal.

(** *** balancing_em_iters: normalization before Predict *)

Section NormalizeTheorem.
Import Kmeans.

Section Generic.
Context {F : Type} {FO : FloatOps F} {FL : FloatLimits F}.
Context {T : Type} (mapping : T -> F) (is_float : bool).

Lemma em_iteration_normalized fuel ptrs dim K (dataset : list (list T)) dataset_norm n_rows
    metric p thr st :
  normalizes metric = true ->
  Forall (round_normalized K dim)
    (fst (em_iteration mapping is_float fuel ptrs dim K dataset dataset_norm n_rows metric
            p thr st)).
Proof.
  intros Hm. unfold em_iteration.
  destruct (if 0 <? em_iter st then _ else _) as [[[centers adjusted] static]|e|];
    [|constructor|constructor].
  destruct (if adjusted then _ else _) as [[counter n_iters] extended].
  simpl. constructor; [|constructor].
  unfold round_normalized. simpl. rewrite Hm. reflexivity.
Qed.

Lemma em_loop_normalized rounds fuel ptrs dim K (dataset : list (list T)) dataset_norm
    n_rows metric p thr st :
  normalizes metric = true ->
  Forall (round_normalized K dim)
    (fst (em_loop mapping is_float rounds fuel ptrs dim K dataset dataset_norm n_rows metric
            p thr st)).
Proof.
  intros Hm. revert st. induction rounds as [|rounds IH]; intros st; simpl.
  - constructor.
  - destruct (em_iter st <? em_n_iters st); [|constructor].
    pose proof (em_iteration_normalized fuel ptrs dim K dataset dataset_norm n_rows metric
                  p thr st Hm) as Hit.
    destruct (em_iteration mapping is_float fuel ptrs dim K dataset dataset_norm n_rows
                metric p thr st) as [log r].
    simpl in Hit. destruct r as [st'| |]; simpl; try exact Hit.
    specialize (IH st').
    destruct (em_loop mapping is_float rounds fuel ptrs dim K dataset dataset_norm n_rows
                metric p thr st') as [log' r'].
    simpl in IH |- *. apply Forall_app. split; assumption.
Qed.

Lemma normalize_rows_lookup (K dim : nat) (a : list (list F)) (i : nat) row :
  (i < K)%nat -> a !! i = Some row ->
  Utils.normalize_rows K dim a !! i = Some (Utils.normalize_rows_kernel dim row).
Proof.
  intros Hi Hrow. unfold Utils.normalize_rows. rewrite list_lookup_imap, Hrow. simpl.
  destruct (Nat.ltb_spec i K); [reflexivity|lia].
Qed.

End Generic.




End NormalizeTheorem.

(** *** adjust_centers: the stride of the probe *)

Section PrimeFacts.
Import Kmeans.

Lemma Forall_elem {A} (P : A -> Prop) (l : list A) (x : A) :
  Forall P l -> x ∈ l -> P x.
Proof.
  intros Hall Hx. apply list_elem_of_lookup_1 in Hx as [i Hi].
  exact (Forall_lookup_1 _ _ _ _ Hall Hi).
Qed.

(** Every entry of the table has no divisor between 1 and itself. *)
Lemma kPrimes_trial_division :
  Forall (fun p => 1 < p /\ Forall (fun d => p mod d <> 0) (seqZ 2 (p - 2))) kPrimes.
Proof. apply (bool_decide_unpack _). vm_compute. exact I. Qed.

Lemma kPrimes_coprime (p n : Z) :
  p ∈ kPrimes -> n mod p <> 0 -> Z.gcd p n = 1.
Proof.
  intros Hp Hn.
  pose proof (Forall_elem _ _ _ kPrimes_trial_division Hp) as [Hp1 Hdiv].
  pose proof (Z.gcd_nonneg p n) as Hg0.
  pose proof (Z.gcd_divide_l p n) as Hgp.
  pose proof (Z.gcd_divide_r p n) as Hgn.
  set (g := Z.gcd p n) in *.
  assert (Hgle : g <= p) by (apply Z.divide_pos_le; [lia|exact Hgp]).
  destruct (decide (g = 0)) as [Hz|Hnz].
  { rewrite Hz in Hgp. apply Z.divide_0_l in Hgp. lia. }
  destruct (decide (g = p)) as [Heq|Hne].
  { rewrite Heq in Hgn. apply Z.mod_divide in Hgn; [contradiction|lia]. }
  destruct (decide (g = 1)) as [H1|Hn1]; [exact H1|].
  exfalso.
  assert (Hin : g ∈ seqZ 2 (p - 2)) by (apply elem_of_seqZ; lia).
  pose proof (Forall_elem _ _ _ Hdiv Hin) as Hnd.
  apply Hnd. apply Z.mod_divide; [lia|exact Hgp].
Qed.

(** A positive 64-bit index is not a multiple of all the entries: the least
    common multiple of the first nine exceeds [2 ^ 63]. *)
Lemma kPrimes_some_coprime (n : Z) :
  0 < n < 2 ^ 63 -> exists (t : nat) p, kPrimes !! t = Some p /\ n mod p <> 0.
Proof.
  intros Hn.
  destruct (decide (Forall (fun p => n mod p = 0) kPrimes)) as [Hall|Hex].
  - exfalso.
    assert (Hdiv : forall p, p ∈ take 9 kPrimes -> (p | n)).
    { intros p Hp. apply Z.mod_divide.
      - intros ->. revert Hp. vm_compute. intros Hp.
        repeat (apply elem_of_cons in Hp as [Hp|Hp]; [discriminate|]).
        apply elem_of_nil in Hp. exact Hp.
      - apply (Forall_elem _ _ _ Hall).
        apply elem_of_take in Hp as (i & Hi & _).
        apply (list_elem_of_lookup_2 _ _ _ Hi). }
    assert (Hlcm : (foldr Z.lcm 1 (take 9 kPrimes) | n)).
    { revert Hdiv. generalize (take 9 kPrimes). intros l.
      induction l as [|p l IH]; intros Hdiv; simpl.
      - apply Z.divide_1_l.
      - apply Z.lcm_least; [apply Hdiv; left|apply IH].
        intros q Hq. apply Hdiv. right. exact Hq. }
    apply Z.divide_pos_le in Hlcm; [|lia].
    assert (Hbig : 2 ^ 63 <= foldr Z.lcm 1 (take 9 kPrimes)) by (vm_compute; discriminate).
    lia.
  - apply not_Forall_Exists in Hex; [|intros; apply _].
    apply Exists_exists in Hex as (p & Hp & Hnp).
    apply (proj2 (list_elem_of_In _ _)) in Hp.
    apply list_elem_of_lookup_1 in Hp as [t Ht].
    exists t, p. split; [exact Ht|exact Hnp].
Qed.

End PrimeFacts.

Section ProbeFacts.
Import Kmeans.

Lemma length_kPrimes : Z.of_nat (length kPrimes) = 40.
Proof. reflexivity. Qed.

Lemma rd_kPrimes_elem (i : Z) : 0 <= i < 40 -> rd 0 kPrimes i ∈ kPrimes.
Proof.
  intros Hi. unfold rd. destruct (Z.ltb_spec i 0); [lia|].
  destruct (kPrimes !! Z.to_nat i) as [p|] eqn:Hp.
  - simpl. apply (list_elem_of_lookup_2 _ _ _ Hp).
  - apply lookup_ge_None in Hp. change (length kPrimes) with 40%nat in Hp. lia.
Qed.

Lemma choose_ofst_finds (fuel : nat) (i n : Z) :
  (exists j : nat, (1 <= j <= fuel)%nat /\ n mod rd 0 kPrimes ((i + Z.of_nat j) mod 40) <> 0) ->
  exists ip ofst,
    choose_ofst fuel i n = Ok (ip, ofst) /\ 0 <= ip < 40 /\ ofst ∈ kPrimes /\
    n mod ofst <> 0.
Proof.
  revert i. induction fuel as [|fuel IH]; intros i (j & Hj & Hp); [lia|].
  cbn [choose_ofst]. change (Z.of_nat (length kPrimes)) with 40.
  destruct (Z.eqb_spec (n mod rd 0 kPrimes ((i + 1) mod 40)) 0) as [Hz|Hnz].
  - apply IH. destruct (decide (j = 1%nat)) as [->|Hj1].
    + change (Z.of_nat 1) with 1 in Hp. contradiction.
    + exists (j - 1)%nat. split; [lia|].
      rewrite Zplus_mod_idemp_l.
      replace (i + 1 + Z.of_nat (j - 1)) with (i + Z.of_nat j) by lia. exact Hp.
  - pose proof (Z.mod_pos_bound (i + 1) 40 ltac:(lia)) as Hb.
    eexists _, _. split; [reflexivity|]. split; [exact Hb|].
    split; [apply rd_kPrimes_elem; exact Hb|exact Hnz].
Qed.

(** The first loop of [adjust_centers] ends within one turn of the table, on
    an offset coprime with the number of rows. *)
Lemma choose_ofst_terminates (fuel : nat) (i n : Z) :
  0 < n < 2 ^ 63 -> (40 <= fuel)%nat ->
  exists ip ofst,
    choose_ofst fuel i n = Ok (ip, ofst) /\ 0 <= ip < 40 /\ Z.gcd ofst n = 1.
Proof.
  intros Hn Hfuel.
  destruct (kPrimes_some_coprime n Hn) as (t & p & Ht & Hp).
  assert (Htlt : (t < 40)%nat).
  { apply lookup_lt_Some in Ht. exact Ht. }
  destruct (choose_ofst_finds fuel i n) as (ip & ofst & Hrun & Hip & Hin & Hnd).
  - exists (Z.to_nat ((Z.of_nat t - i - 1) mod 40) + 1)%nat.
    pose proof (Z.mod_pos_bound (Z.of_nat t - i - 1) 40 ltac:(lia)) as Hb.
    split; [lia|].
    replace (Z.of_nat (Z.to_nat ((Z.of_nat t - i - 1) mod 40) + 1))
      with ((Z.of_nat t - i - 1) mod 40 + 1) by lia.
    replace (i + ((Z.of_nat t - i - 1) mod 40 + 1))
      with ((Z.of_nat t - i - 1) mod 40 + (i + 1)) by lia.
    rewrite Zplus_mod_idemp_l.
    replace (Z.of_nat t - i - 1 + (i + 1)) with (Z.of_nat t) by lia.
    rewrite (Z.mod_small (Z.of_nat t) 40) by lia.
    rewrite (rd_lookup _ _ _ _ Ht). exact Hp.
  - exists ip, ofst. split; [exact Hrun|]. split; [exact Hip|].
    apply kPrimes_coprime; assumption.
Qed.

(** A stride coprime with [n] reaches every row within [n] steps. *)
Lemma stride_covers (i ofst n r : Z) :
  0 < n -> Z.gcd ofst n = 1 -> 0 <= r < n ->
  exists k : nat, (1 <= k <= Z.to_nat n)%nat /\ (i + Z.of_nat k * ofst) mod n = r.
Proof.
  intros Hn Hgcd Hr.
  destruct (Z.gcd_bezout ofst n 1 Hgcd) as (a & b & Hbez).
  set (X := (r - i) * a).
  pose proof (Z.div_mod X n ltac:(lia)) as Hdm.
  pose proof (Z.mod_pos_bound X n Hn) as Hk0.
  set (q := X / n) in *. set (k0 := X mod n) in *.
  assert (Hid : i + k0 * ofst = r + ((i - r) * b - q * ofst) * n).
  { replace k0 with (X - n * q) by lia. unfold X.
    replace ((r - i) * a - n * q) with ((r - i) * a - n * q) by reflexivity.
    transitivity (i + (r - i) * (a * ofst) - n * q * ofst); [ring|].
    replace (a * ofst) with (1 - b * n) by lia. ring. }
  destruct (decide (k0 = 0)) as [Hz|Hnz].
  - exists (Z.to_nat n). split; [lia|].
    rewrite Z2Nat.id by lia.
    replace (i + n * ofst) with (r + ((i - r) * b - q * ofst + ofst) * n).
    + rewrite Z_mod_plus_full. apply Z.mod_small. exact Hr.
    + rewrite Hz in Hid. lia.
  - exists (Z.to_nat k0). split; [lia|].
    rewrite Z2Nat.id by lia. rewrite Hid.
    rewrite Z_mod_plus_full. apply Z.mod_small. exact Hr.
Qed.

End ProbeFacts.

Section ProbeLoops.
Import Kmeans.

Lemma probe_host_finds (fuel : nat) (i ofst n : Z) labels sizes avg :
  0 < n ->
  (exists k : nat, (1 <= k <= fuel)%nat /\
                   good_row labels sizes avg ((i + Z.of_nat k * ofst) mod n) = true) ->
  exists i',
    probe_host fuel i ofst n labels sizes avg = Ok i' /\ 0 <= i' < n /\
    good_row labels sizes avg i' = true.
Proof.
  intros Hn. revert i. induction fuel as [|fuel IH]; intros i (k & Hk & Hgood); [lia|].
  cbn [probe_host].
  destruct (rd 0 sizes (rd 0 labels ((i + ofst) mod n)) <? avg) eqn:Hsmall.
  - apply IH. destruct (decide (k = 1%nat)) as [->|Hk1].
    + unfold good_row in Hgood. change (Z.of_nat 1) with 1 in Hgood.
      rewrite Z.mul_1_l, Hsmall in Hgood. discriminate.
    + exists (k - 1)%nat. split; [lia|].
      rewrite Zplus_mod_idemp_l.
      replace (i + ofst + Z.of_nat (k - 1) * ofst) with (i + Z.of_nat k * ofst) by lia.
      exact Hgood.
  - eexists. split; [reflexivity|]. split; [apply Z.mod_pos_bound; exact Hn|].
    unfold good_row. rewrite Hsmall. reflexivity.
Qed.

Lemma probe_device_finds (fuel m : nat) (count seed n : Z) labels sizes avg :
  0 < n -> 0 <= count -> (m <= fuel)%nat -> count + Z.of_nat m < 2 ^ 32 ->
  (exists k : nat, (1 <= k <= m)%nat /\
                   good_row labels sizes avg ((seed * (count + Z.of_nat k)) mod n) = true) ->
  exists i' count',
    probe_device fuel count seed n labels sizes avg = Ok (i', count') /\ 0 <= i' < n /\
    good_row labels sizes avg i' = true /\
    count < count' <= count + Z.of_nat m.
Proof.
  intros Hn. revert m count.
  induction fuel as [|fuel IH]; intros m count Hc Hm Hwrap (k & Hk & Hgood); [lia|].
  cbn [probe_device]. rewrite (u32_small (count + 1)) by lia.
  destruct (rd 0 sizes (rd 0 labels ((seed * (count + 1)) mod n)) <? avg) eqn:Hsmall.
  - assert (Hk1 : k <> 1%nat).
    { intros ->. unfold good_row in Hgood. change (Z.of_nat 1) with 1 in Hgood.
      rewrite Hsmall in Hgood. discriminate. }
    destruct (IH (m - 1)%nat (count + 1) ltac:(lia) ltac:(lia) ltac:(lia))
      as (i' & count' & Hrun & Hi' & Hg & Hcount).
    + exists (k - 1)%nat. split; [lia|].
      replace (count + 1 + Z.of_nat (k - 1)) with (count + Z.of_nat k) by lia.
      exact Hgood.
    + exists i', count'. split; [exact Hrun|]. split; [exact Hi'|].
      split; [exact Hg|]. lia.
  - eexists _, _. split; [reflexivity|]. split; [apply Z.mod_pos_bound; exact Hn|].
    split; [unfold good_row; rewrite Hsmall; reflexivity|]. lia.
Qed.

Lemma zsum_fmap_le {A} (f : A -> Z) (c : Z) l :
  (forall x, x ∈ l -> f x <= c) -> zsum (f <$> l) <= Z.of_nat (length l) * c.
Proof.
  induction l as [|x l IH]; intros H; [unfold zsum; simpl; lia|].
  rewrite fmap_cons, zsum_cons, length_cons.
  pose proof (H x ltac:(left)) as Hx.
  assert (zsum (f <$> l) <= Z.of_nat (length l) * c).
  { apply IH. intros y Hy. apply H. right. exact Hy. }
  lia.
Qed.

Lemma count_label_pos_elem labels (k : nat) :
  0 < count_label labels k -> Z.of_nat k ∈ labels.
Proof.
  unfold count_label. intros Hpos.
  destruct (filter (fun l => l = Z.of_nat k) labels) as [|l rest] eqn:Hf; [simpl in Hpos; lia|].
  assert (Hl : l ∈ filter (fun l => l = Z.of_nat k) labels) by (rewrite Hf; left).
  apply list_elem_of_filter in Hl as [-> Hin]. exact Hin.
Qed.

Lemma count_label_elem_pos labels (k : nat) :
  Z.of_nat k ∈ labels -> 0 < count_label labels k.
Proof.
  intros Hin. unfold count_label.
  assert (Hl : Z.of_nat k ∈ filter (fun l => l = Z.of_nat k) labels).
  { apply list_elem_of_filter. split; [reflexivity|exact Hin]. }
  destruct (filter (fun l => l = Z.of_nat k) labels); [inversion Hl|simpl; lia].
Qed.

(** Some cluster is not smaller than average, and it has a row. *)
Lemma exists_average_row labels (K : nat) :
  (0 < K)%nat -> (0 < length labels)%nat ->
  Forall (fun l => 0 <= l < Z.of_nat K) labels ->
  exists (r : nat) (k : nat),
    labels !! r = Some (Z.of_nat k) /\ (k < K)%nat /\
    Z.of_nat (length labels) / Z.of_nat K <= count_label labels k.
Proof.
  intros HK HN Hrange.
  set (avg := Z.of_nat (length labels) / Z.of_nat K).
  destruct (decide (Exists (fun l => avg <= count_label labels (Z.to_nat l)) labels))
    as [Hex|Hnone].
  - apply Exists_exists in Hex as (l & Hin & Hl).
    apply (proj2 (list_elem_of_In _ _)) in Hin.
    pose proof (Forall_elem _ _ _ Hrange Hin) as Hlr. cbv beta in Hlr.
    apply list_elem_of_lookup_1 in Hin as [r Hr].
    exists r, (Z.to_nat l). rewrite Z2Nat.id by lia.
    split; [exact Hr|]. split; [lia|exact Hl].
  - exfalso.
    assert (Hsmall : forall k, k ∈ seq 0 K -> count_label labels k <= Z.max (avg - 1) 0).
    { intros k Hk. destruct (decide (0 < count_label labels k)) as [Hpos|Hz].
      - apply count_label_pos_elem in Hpos.
        destruct (decide (avg <= count_label labels k)) as [Hge|Hlt]; [|lia].
        exfalso. apply Hnone. apply Exists_exists. exists (Z.of_nat k).
        split; [apply list_elem_of_In; exact Hpos|]. rewrite Nat2Z.id. exact Hge.
      - pose proof (count_label_range labels k). lia. }
    pose proof (zsum_fmap_le (count_label labels) _ (seq 0 K) Hsmall) as Hsum.
    rewrite zsum_count_label, length_seq in Hsum by exact Hrange.
    assert (Havg : Z.of_nat K * avg <= Z.of_nat (length labels)).
    { unfold avg. apply Z.mul_div_le. lia. }
    assert (Hnonneg : 0 <= avg) by (unfold avg; apply Z.div_pos; lia).
    destruct (decide (avg = 0)) as [Hz|Hnz].
    + rewrite Hz in Hsum. simpl in Hsum. lia.
    + rewrite Z.max_l in Hsum by lia. nia.
Qed.

End ProbeLoops.

Section AdjustLoops.
Import Kmeans.
Context {F : Type} {FO : FloatOps F} {T : Type} (mapping : T -> F).
Variables (fuel dim : nat) (dataset : list (list T)) (n_rows : Z)
          (labels sizes : list Z) (threshold : F) (average ofst : Z)
          (centers0 : list (list F)).
Hypothesis Hn : 0 < n_rows.
Hypothesis Hgcd : Z.gcd ofst n_rows = 1.
Hypothesis Hfuel : (Z.to_nat n_rows <= fuel)%nat.
Hypothesis Hrow : exists r, 0 <= r < n_rows /\ good_row labels sizes average r = true.
Hypothesis Hdonor :
  forall i, 0 <= i < n_rows -> good_row labels sizes average i = true ->
    exists k : nat, rd 0 labels i = Z.of_nat k /\ (k < length centers0)%nat /\
                    is_big (rd 0 sizes (Z.of_nat k)) average threshold = true.

Local Abbreviation big_kept := (big_kept sizes threshold average centers0).
Local Abbreviation loop_post :=
  (loop_post mapping dim dataset n_rows labels sizes threshold average centers0).

Lemma rd_ext {A} (d : A) (a b : list A) (i : Z) :
  a !! Z.to_nat i = b !! Z.to_nat i -> rd d a i = rd d b i.
Proof. intros H. unfold rd. rewrite H. reflexivity. Qed.

Lemma donor_center cur i :
  big_kept cur -> 0 <= i < n_rows -> good_row labels sizes average i = true ->
  rd [] cur (rd 0 labels i) = rd [] centers0 (rd 0 labels i).
Proof.
  intros [_ Hkept] Hi Hgood.
  destruct (Hdonor i Hi Hgood) as (k & -> & _ & Hbig).
  apply rd_ext. rewrite Nat2Z.id. apply Hkept. exact Hbig.
Qed.

Lemma loop_post_skip l ls cur cur' :
  l ∉ ls -> is_big (rd 0 sizes (Z.of_nat l)) average threshold = true ->
  loop_post ls cur cur' -> loop_post (l :: ls) cur cur'.
Proof.
  intros Hl Hbig (Hkept & Hout & Hin). split; [exact Hkept|]. split.
  - intros l' Hl'. apply Hout. intros H. apply Hl'. right. exact H.
  - intros l' Hl'. apply elem_of_cons in Hl' as [->|Hl'].
    + rewrite Hbig. apply Hout. exact Hl.
    + apply Hin. exact Hl'.
Qed.

Lemma loop_post_write l ls cur cur' i :
  l ∉ ls -> (l < length centers0)%nat -> big_kept cur ->
  is_big (rd 0 sizes (Z.of_nat l)) average threshold = false ->
  0 <= i < n_rows -> good_row labels sizes average i = true ->
  loop_post ls
    (<[l := shifted_center mapping dim (rd 0 sizes (Z.of_nat l))
              (rd [] cur (rd 0 labels i)) (rd [] dataset i)]> cur) cur' ->
  loop_post (l :: ls) cur cur'.
Proof.
  intros Hl Hlt Hcur Hsmall Hi Hgood (Hkept & Hout & Hin).
  rewrite (donor_center cur i Hcur Hi Hgood) in Hout, Hin.
  split; [exact Hkept|]. split.
  - intros l' Hl'. rewrite Hout.
    + apply list_lookup_insert_ne. intros ->. apply Hl'. left.
    + intros H. apply Hl'. right. exact H.
  - intros l' Hl'. apply elem_of_cons in Hl' as [->|Hl'].
    + rewrite Hsmall. exists i. split; [exact Hi|]. split; [exact Hgood|].
      rewrite Hout by exact Hl. apply list_lookup_insert_eq.
      destruct Hcur as [-> _]. exact Hlt.
    + specialize (Hin l' Hl').
      destruct (is_big (rd 0 sizes (Z.of_nat l')) average threshold) eqn:Hbig'.
      * rewrite Hin. apply list_lookup_insert_ne. intros ->. congruence.
      * exact Hin.
Qed.

Lemma big_kept_write l cur center :
  big_kept cur -> is_big (rd 0 sizes (Z.of_nat l)) average threshold = false ->
  big_kept (<[l := center]> cur).
Proof.
  intros [Hlen Hkept] Hsmall. split; [rewrite length_insert; exact Hlen|].
  intros l' Hbig. rewrite list_lookup_insert_ne by (intros ->; congruence).
  apply Hkept. exact Hbig.
Qed.

Lemma loop_post_nil cur : big_kept cur -> loop_post [] cur cur.
Proof.
  intros H. split; [exact H|]. split; [reflexivity|].
  intros l Hl. inversion Hl.
Qed.

Lemma host_probe_exists i :
  exists i', probe_host fuel i ofst n_rows labels sizes average = Ok i' /\
             0 <= i' < n_rows /\ good_row labels sizes average i' = true.
Proof.
  apply probe_host_finds; [exact Hn|].
  destruct Hrow as (r & Hr & Hgood).
  destruct (stride_covers i ofst n_rows r Hn Hgcd Hr) as (k & Hk & Hmod).
  exists k. split; [lia|]. rewrite Hmod. exact Hgood.
Qed.

Lemma adjust_host_spec ls :
  NoDup ls -> (forall l, l ∈ ls -> (l < length centers0)%nat) ->
  forall cur i adjusted, big_kept cur ->
  exists cur' i' adjusted',
    adjust_host mapping fuel ls dim dataset n_rows labels sizes threshold average ofst
      (cur, i, adjusted) = Ok (cur', i', adjusted') /\
    loop_post ls cur cur'.
Proof.
  induction ls as [|l ls IH]; intros Hnd Hls cur i adjusted Hcur.
  - exists cur, i, adjusted. split; [reflexivity|]. apply loop_post_nil. exact Hcur.
  - pose proof (NoDup_cons_1_1 _ _ Hnd) as Hl. apply NoDup_cons_1_2 in Hnd.
    assert (Hls' : forall l', l' ∈ ls -> (l' < length centers0)%nat).
    { intros l' Hl'. apply Hls. right. exact Hl'. }
    cbn [adjust_host].
    destruct (is_big (rd 0 sizes (Z.of_nat l)) average threshold) eqn:Hbig.
    + destruct (IH Hnd Hls' cur i adjusted Hcur) as (cur' & i' & adj' & Hrun & Hpost).
      exists cur', i', adj'. split; [exact Hrun|].
      apply loop_post_skip; assumption.
    + destruct (host_probe_exists i) as (i1 & -> & Hi1 & Hgood).
      cbn [bind].
      destruct (IH Hnd Hls'
                  (<[l := shifted_center mapping dim (rd 0 sizes (Z.of_nat l))
                            (rd [] cur (rd 0 labels i1)) (rd [] dataset i1)]> cur)
                  i1 true (big_kept_write _ _ _ Hcur Hbig))
        as (cur' & i' & adj' & Hrun & Hpost).
      exists cur', i', adj'. split; [exact Hrun|].
      apply (loop_post_write l ls cur cur' i1); try assumption.
      apply Hls. left.
Qed.

Lemma device_probe_exists count :
  0 <= count -> count + n_rows < 2 ^ 32 ->
  exists i' count',
    probe_device fuel count ofst n_rows labels sizes average = Ok (i', count') /\
    0 <= i' < n_rows /\ good_row labels sizes average i' = true /\
    count < count' <= count + n_rows.
Proof.
  intros Hc Hwrap.
  destruct Hrow as (r & Hr & Hgood).
  destruct (stride_covers (ofst * count) ofst n_rows r Hn Hgcd Hr) as (k & Hk & Hmod).
  destruct (probe_device_finds fuel (Z.to_nat n_rows) count ofst n_rows labels sizes average)
    as (i' & count' & Hrun & Hi' & Hg & Hcount); try assumption.
  - lia.
  - exists k. split; [lia|].
    replace (ofst * (count + Z.of_nat k)) with (ofst * count + Z.of_nat k * ofst) by ring.
    rewrite Hmod. exact Hgood.
  - exists i', count'. split; [exact Hrun|]. split; [exact Hi'|]. split; [exact Hg|]. lia.
Qed.

Lemma adjust_centers_kernel_spec ls :
  NoDup ls -> (forall l, l ∈ ls -> (l < length centers0)%nat) ->
  forall cur count, big_kept cur ->
  0 <= count -> count + Z.of_nat (length ls) * n_rows < 2 ^ 32 ->
  exists cur' count',
    adjust_centers_kernel mapping fuel ls dim dataset n_rows labels sizes threshold
      average ofst (cur, count) = Ok (cur', count') /\
    loop_post ls cur cur'.
Proof.
  induction ls as [|l ls IH]; intros Hnd Hls cur count Hcur Hc Hwrap.
  - exists cur, count. split; [reflexivity|]. apply loop_post_nil. exact Hcur.
  - pose proof (NoDup_cons_1_1 _ _ Hnd) as Hl. apply NoDup_cons_1_2 in Hnd.
    assert (Hls' : forall l', l' ∈ ls -> (l' < length centers0)%nat).
    { intros l' Hl'. apply Hls. right. exact Hl'. }
    rewrite length_cons in Hwrap.
    cbn [adjust_centers_kernel].
    destruct (is_big (rd 0 sizes (Z.of_nat l)) average threshold) eqn:Hbig.
    + destruct (IH Hnd Hls' cur count Hcur Hc ltac:(nia)) as (cur' & count' & Hrun & Hpost).
      exists cur', count'. split; [exact Hrun|].
      apply loop_post_skip; assumption.
    + destruct (device_probe_exists count Hc ltac:(nia))
        as (i1 & count1 & -> & Hi1 & Hgood & Hcount1).
      cbn [bind].
      destruct (IH Hnd Hls'
                  (<[l := shifted_center mapping dim (rd 0 sizes (Z.of_nat l))
                            (rd [] cur (rd 0 labels i1)) (rd [] dataset i1)]> cur)
                  count1 (big_kept_write _ _ _ Hcur Hbig) ltac:(lia) ltac:(nia))
        as (cur' & count' & Hrun & Hpost).
      exists cur', count'. split; [exact Hrun|].
      apply (loop_post_write l ls cur cur' i1); try assumption.
      apply Hls. left.
Qed.

End AdjustLoops.

Section AdjustTheorem.
Import Kmeans.
Context {F : Type} {FO : FloatOps F} {T : Type} (mapping : T -> F).

Lemma countLabels_row labels (K : nat) (i : Z) :
  Forall (fun l => 0 <= l < Z.of_nat K) labels ->
  Z.of_nat (length labels) < 2 ^ 32 ->
  0 <= i < Z.of_nat (length labels) ->
  exists k : nat,
    rd 0 labels i = Z.of_nat k /\ (k < K)%nat /\
    rd 0 (countLabels labels K) (Z.of_nat k) = count_label labels k /\
    0 < count_label labels k.
Proof.
  intros Hrange Hsmall Hi.
  destruct (lookup_lt_is_Some_2 labels (Z.to_nat i) ltac:(lia)) as [l Hl].
  assert (Hin : l ∈ labels) by (eapply list_elem_of_lookup_2; exact Hl).
  pose proof (Forall_elem _ _ _ Hrange Hin) as Hlr. cbv beta in Hlr.
  exists (Z.to_nat l). rewrite Z2Nat.id by lia.
  assert (Hrd : rd 0 labels i = l).
  { rewrite <- (Z2Nat.id i) by lia. apply rd_lookup. exact Hl. }
  split; [exact Hrd|]. split; [lia|]. split.
  - rewrite <- (Z2Nat.id l) at 1 by lia. apply rd_lookup.
    rewrite countLabels_lookup by lia. f_equal. apply u32_small.
    pose proof (count_label_range labels (Z.to_nat l)). lia.
  - apply count_label_elem_pos. rewrite Z2Nat.id by lia. exact Hin.
Qed.

Lemma adjust_centers_loop_post (centers centers' : list (list F)) (K dim : nat)
    (dataset : list (list T)) n_rows labels sizes threshold average :
  length centers = K ->
  loop_post mapping dim dataset n_rows labels sizes threshold average centers
    (seq 0 K) centers centers' ->
  adjusted_from mapping dim dataset n_rows labels sizes threshold average centers centers'.
Proof.
  intros Hlen ([Hlen' _] & _ & Hin). split; [exact Hlen'|].
  intros l csize Hl Hsize.
  specialize (Hin l ltac:(apply elem_of_seq; lia)).
  rewrite (rd_lookup 0 sizes l csize Hsize) in Hin. exact Hin.
Qed.


End AdjustTheorem.



(** *** argmin_along_rows: the reduction *)

Section ArgminOrder.
Context {F : Type} {FO : FloatOps F} {FL : FloatLimits F}.
Variable ordered : F -> Prop.
Hypothesis Hord : strict_weak_order ordered.

Lemma swo_asym x y :
  ordered x -> ordered y -> f_lt x y = true -> f_lt y x = false.
Proof.
  intros Hx Hy Hlt. destruct (f_lt y x) eqn:Hyx; [|reflexivity].
  pose proof (swo_trans ordered Hord x y x Hx Hy Hx Hlt Hyx) as Hxx.
  rewrite (swo_irrefl ordered Hord x Hx) in Hxx. discriminate.
Qed.

(** [x < y <= z] gives [x < z]. *)
Lemma swo_lt_le x y z :
  ordered x -> ordered y -> ordered z ->
  f_lt x y = true -> f_lt z y = false -> f_lt x z = true.
Proof.
  intros Hx Hy Hz Hxy Hzy. destruct (f_lt x z) eqn:Hxz; [reflexivity|].
  pose proof (swo_incomp ordered Hord x z y Hx Hz Hy Hxz Hzy) as H.
  congruence.
Qed.

(** [x <= y < z] gives [x < z]. *)
Lemma swo_le_lt x y z :
  ordered x -> ordered y -> ordered z ->
  f_lt y x = false -> f_lt y z = true -> f_lt x z = true.
Proof.
  intros Hx Hy Hz Hyx Hyz. destruct (f_lt x z) eqn:Hxz; [reflexivity|].
  pose proof (swo_incomp ordered Hord y x z Hy Hx Hz Hyx Hxz) as H.
  congruence.
Qed.

Lemma tie_refl x : ordered x -> tie x x.
Proof. intros Hx. split; apply (swo_irrefl ordered Hord x Hx). Qed.

Variable row : list F.
Hypothesis Hrow : forall j a, row !! j = Some a -> selectable ordered upper_bound a.
Hypothesis Hbound : ordered (upper_bound : F).

Lemma argmin_scan_holds (S : nat -> Prop) (j : nat) (a : F) (st : F * nat) :
  holds_min ordered row S st -> row !! j = Some a ->
  (forall k, S k -> (k < j)%nat) ->
  holds_min ordered row (fun k => S k \/ k = j) (Utils.argmin_scan row j st).
Proof.
  intros [Hv Hst] Hj Hbelow. unfold Utils.argmin_scan. rewrite Hj. change (default f_zero (Some a)) with a.
  destruct (Hrow j a Hj) as [Ha Hlt].
  destruct Hst as [[Hempty ->]|(a' & HS & Hi & [Hva Hav] & Hmin & Hlow)].
  - cbn [fst]. rewrite Hlt. split; [exact Ha|]. right. exists a. cbn [fst snd].
    split; [right; reflexivity|]. split; [exact Hj|]. split; [apply tie_refl; exact Ha|].
    split.
    + intros k b [Hk| ->] Hb; [rewrite (Hempty k Hk) in Hb; discriminate|].
      rewrite Hj in Hb. injection Hb as <-. apply (swo_irrefl ordered Hord a Ha).
    + intros k b [Hk| ->] Hkj Hb; [rewrite (Hempty k Hk) in Hb; discriminate|lia].
  - destruct st as [v i]. cbn [fst snd] in *.
    destruct (Hrow i a' Hi) as [Ha' _].
    destruct (f_lt a v) eqn:Hav'.
    + assert (Haa' : f_lt a a' = true) by (apply (swo_lt_le a v a'); assumption).
      split; [exact Ha|]. right. exists a. cbn [fst snd].
      split; [right; reflexivity|]. split; [exact Hj|]. split; [apply tie_refl; exact Ha|].
      split.
      * intros k b [Hk| ->] Hb.
        -- destruct (Hrow k b Hb) as [Hb' _].
           destruct (f_lt b a) eqn:Hba; [|reflexivity].
           pose proof (swo_trans ordered Hord b a a' Hb' Ha Ha' Hba Haa') as Hc.
           rewrite (Hmin k b Hk Hb) in Hc. discriminate.
        -- rewrite Hj in Hb. injection Hb as <-. apply (swo_irrefl ordered Hord a Ha).
      * intros k b [Hk| ->] Hkj Hb; [|lia].
        destruct (Hrow k b Hb) as [Hb' _].
        apply (swo_lt_le a a' b); try assumption. apply (Hmin k b Hk Hb).
    + split; [exact Hv|]. right. exists a'. cbn [fst snd].
      split; [left; exact HS|]. split; [exact Hi|]. split; [split; assumption|].
      split.
      * intros k b [Hk| ->] Hb; [apply (Hmin k b Hk Hb)|].
        rewrite Hj in Hb. injection Hb as <-.
        apply (swo_incomp ordered Hord a v a'); assumption.
      * intros k b [Hk| ->] Hki Hb; [apply (Hlow k b Hk Hki Hb)|].
        specialize (Hbelow i HS). lia.
Qed.

Lemma holds_min_ext (S S' : nat -> Prop) p :
  (forall j, (j < length row)%nat -> S j <-> S' j) ->
  holds_min ordered row S p -> holds_min ordered row S' p.
Proof.
  intros Hext [Hv Hp]. split; [exact Hv|].
  destruct Hp as [[Hempty ->]|(a & HS & Hi & Htie & Hmin & Hlow)].
  - left. split; [|reflexivity]. intros j Hj.
    destruct (Nat.lt_ge_cases j (length row)) as [Hlt|Hge].
    + apply Hempty, (Hext j Hlt), Hj.
    + apply lookup_ge_None_2. exact Hge.
  - right. exists a. split; [apply (Hext _ (lookup_lt_Some _ _ _ Hi)), HS|].
    split; [exact Hi|]. split; [exact Htie|]. split.
    + intros k b Hk Hb. apply (Hmin k b); [|exact Hb].
      apply (Hext _ (lookup_lt_Some _ _ _ Hb)), Hk.
    + intros k b Hk Hlt Hb. apply (Hlow k b); [|exact Hlt|exact Hb].
      apply (Hext _ (lookup_lt_Some _ _ _ Hb)), Hk.
Qed.

(** The scan of the columns below [m] that satisfy [P], in order. *)
Lemma argmin_scan_prefix (P : nat -> Prop) `{!forall j, Decision (P j)} (m : nat) :
  (m <= length row)%nat ->
  holds_min ordered row (fun j => P j /\ (j < m)%nat)
    (foldl (fun s j => Utils.argmin_scan row j s) (upper_bound, length row)
       (filter P (seq 0 m))).
Proof.
  induction m as [|m IH]; intros Hm.
  - split; [exact Hbound|]. left. split; [|reflexivity]. intros j [_ Hj]. lia.
  - rewrite seq_S, list.filter_app, foldl_app. cbn [Nat.add].
    specialize (IH ltac:(lia)).
    destruct (decide (P m)) as [HP|HP].
    + rewrite (filter_cons_True P m []) by exact HP. cbn [filter list_filter foldl].
      destruct (lookup_lt_is_Some_2 row m ltac:(lia)) as [a Ha].
      eapply holds_min_ext; [|apply (argmin_scan_holds _ m a _ IH Ha)].
      * intros j _. cbv beta. split.
        -- intros [[Hj Hlt]| ->]; [split; [exact Hj|lia]|split; [exact HP|lia]].
        -- intros [Hj Hlt]. destruct (decide (j = m)) as [->|Hne]; [right; reflexivity|].
           left. split; [exact Hj|lia].
      * intros k [_ Hk]. exact Hk.
    + rewrite (filter_cons_False P m []) by exact HP. cbn [filter list_filter foldl].
      eapply holds_min_ext; [|exact IH].
      intros j _. cbv beta. split.
      * intros [Hj Hlt]. split; [exact Hj|lia].
      * intros [Hj Hlt]. split; [exact Hj|].
        destruct (decide (j = m)) as [->|Hne]; [contradiction|lia].
Qed.

(** What a thread stores to shared memory. *)
Lemma argmin_thread_holds (block_dim tx : nat) :
  (tx < block_dim)%nat ->
  holds_min ordered row (fun j => (j mod block_dim = tx)%nat)
    (Utils.argmin_thread (length row) block_dim row tx).
Proof.
  intros Htx. unfold Utils.argmin_thread.
  rewrite (strided_loop_stride _ block_dim (length row) tx _ Htx). unfold stride.
  eapply holds_min_ext;
    [|apply (argmin_scan_prefix (fun j => (j mod block_dim = tx)%nat) (length row));
      reflexivity].
  intros j Hj. cbv beta. split; [intros [H _]; exact H|intros H; split; [exact H|exact Hj]].
Qed.

(** One exchange of a round of the reduction. *)
Lemma argmin_merge_holds (S1 S2 : nat -> Prop) (p q : F * nat) :
  holds_min ordered row S1 p -> holds_min ordered row S2 q ->
  holds_min ordered row (fun j => S1 j \/ S2 j) (Utils.argmin_merge p q).
Proof.
  intros [Hv1 Hp] [Hv2 Hq]. unfold Utils.argmin_merge.
  destruct Hp as [[Hempty1 ->]|(a1 & HS1 & Hi1 & [Hva1 Hav1] & Hmin1 & Hlow1)];
    destruct Hq as [[Hempty2 ->]|(a2 & HS2 & Hi2 & [Hva2 Hav2] & Hmin2 & Hlow2)].
  - cbn [fst snd]. rewrite (swo_irrefl ordered Hord _ Hbound), Nat.ltb_irrefl.
    split; [exact Hbound|]. left. split; [|reflexivity].
    intros j [Hj|Hj]; [apply Hempty1|apply Hempty2]; exact Hj.
  - destruct q as [v2 i2]. cbn [fst snd] in *.
    destruct (Hrow i2 a2 Hi2) as [Ha2 Hlt2].
    assert (Hv2b : f_lt v2 upper_bound = true).
    { apply (swo_le_lt v2 a2 upper_bound); assumption. }
    rewrite (swo_asym v2 upper_bound Hv2 Hbound Hv2b), Hv2b.
    split; [exact Hv2|]. right. exists a2. cbn [fst snd].
    split; [right; exact HS2|]. split; [exact Hi2|]. split; [split; assumption|]. split.
    + intros k b [Hk|Hk] Hb; [rewrite (Hempty1 k Hk) in Hb; discriminate|].
      apply (Hmin2 k b Hk Hb).
    + intros k b [Hk|Hk] Hlt Hb; [rewrite (Hempty1 k Hk) in Hb; discriminate|].
      apply (Hlow2 k b Hk Hlt Hb).
  - destruct p as [v1 i1]. cbn [fst snd] in *.
    destruct (Hrow i1 a1 Hi1) as [Ha1 Hlt1].
    assert (Hv1b : f_lt v1 upper_bound = true).
    { apply (swo_le_lt v1 a1 upper_bound); assumption. }
    rewrite Hv1b.
    split; [exact Hv1|]. right. exists a1. cbn [fst snd].
    split; [left; exact HS1|]. split; [exact Hi1|]. split; [split; assumption|]. split.
    + intros k b [Hk|Hk] Hb; [|rewrite (Hempty2 k Hk) in Hb; discriminate].
      apply (Hmin1 k b Hk Hb).
    + intros k b [Hk|Hk] Hlt Hb; [|rewrite (Hempty2 k Hk) in Hb; discriminate].
      apply (Hlow1 k b Hk Hlt Hb).
  - destruct p as [v1 i1], q as [v2 i2]. cbn [fst snd] in *.
    destruct (Hrow i1 a1 Hi1) as [Ha1 _]. destruct (Hrow i2 a2 Hi2) as [Ha2 _].
    destruct (f_lt v1 v2) eqn:H12; [|destruct (f_lt v2 v1) eqn:H21].
    + (* the own value is smaller *)
      assert (Ha12 : f_lt a1 a2 = true).
      { apply (swo_le_lt a1 v1 a2); try assumption.
        apply (swo_lt_le v1 v2 a2); assumption. }
      split; [exact Hv1|]. right. exists a1. cbn [fst snd].
      split; [left; exact HS1|]. split; [exact Hi1|]. split; [split; assumption|]. split.
      * intros k b [Hk|Hk] Hb; [apply (Hmin1 k b Hk Hb)|].
        destruct (Hrow k b Hb) as [Hb' _].
        apply (swo_incomp ordered Hord b a2 a1); try assumption.
        -- apply (Hmin2 k b Hk Hb).
        -- apply swo_asym; assumption.
      * intros k b [Hk|Hk] Hlt Hb; [apply (Hlow1 k b Hk Hlt Hb)|].
        destruct (Hrow k b Hb) as [Hb' _].
        apply (swo_lt_le a1 a2 b); try assumption. apply (Hmin2 k b Hk Hb).
    + (* the other value is smaller *)
      assert (Ha21 : f_lt a2 a1 = true).
      { apply (swo_le_lt a2 v2 a1); try assumption.
        apply (swo_lt_le v2 v1 a1); assumption. }
      split; [exact Hv2|]. right. exists a2. cbn [fst snd].
      split; [right; exact HS2|]. split; [exact Hi2|]. split; [split; assumption|]. split.
      * intros k b [Hk|Hk] Hb; [|apply (Hmin2 k b Hk Hb)].
        destruct (Hrow k b Hb) as [Hb' _].
        apply (swo_incomp ordered Hord b a1 a2); try assumption.
        -- apply (Hmin1 k b Hk Hb).
        -- apply swo_asym; assumption.
      * intros k b [Hk|Hk] Hlt Hb; [|apply (Hlow2 k b Hk Hlt Hb)].
        destruct (Hrow k b Hb) as [Hb' _].
        apply (swo_lt_le a2 a1 b); try assumption. apply (Hmin1 k b Hk Hb).
    + (* equal values: the lower index *)
      assert (Ha12 : f_lt a1 a2 = false).
      { apply (swo_incomp ordered Hord a1 v1 a2); try assumption.
        apply (swo_incomp ordered Hord v1 v2 a2); assumption. }
      assert (Ha21 : f_lt a2 a1 = false).
      { apply (swo_incomp ordered Hord a2 v2 a1); try assumption.
        apply (swo_incomp ordered Hord v2 v1 a1); assumption. }
      destruct (Nat.ltb_spec i2 i1) as [Hi|Hi].
      * split; [exact Hv1|]. right. exists a2. cbn [fst snd].
        split; [right; exact HS2|]. split; [exact Hi2|]. split.
        { split.
          - apply (swo_incomp ordered Hord v1 v2 a2); assumption.
          - apply (swo_incomp ordered Hord a2 v2 v1); assumption. }
        split.
        -- intros k b [Hk|Hk] Hb; [|apply (Hmin2 k b Hk Hb)].
           destruct (Hrow k b Hb) as [Hb' _].
           apply (swo_incomp ordered Hord b a1 a2); try assumption.
           apply (Hmin1 k b Hk Hb).
        -- intros k b [Hk|Hk] Hlt Hb; [|apply (Hlow2 k b Hk Hlt Hb)].
           destruct (Hrow k b Hb) as [Hb' _].
           apply (swo_le_lt a2 a1 b); try assumption.
           apply (Hlow1 k b Hk ltac:(lia) Hb).
      * split; [exact Hv1|]. right. exists a1. cbn [fst snd].
        split; [left; exact HS1|]. split; [exact Hi1|]. split; [split; assumption|].
        split.
        -- intros k b [Hk|Hk] Hb; [apply (Hmin1 k b Hk Hb)|].
           destruct (Hrow k b Hb) as [Hb' _].
           apply (swo_incomp ordered Hord b a2 a1); try assumption.
           apply (Hmin2 k b Hk Hb).
        -- intros k b [Hk|Hk] Hlt Hb; [apply (Hlow1 k b Hk Hlt Hb)|].
           destruct (Hrow k b Hb) as [Hb' _].
           apply (swo_le_lt a1 a2 b); try assumption.
           apply (Hlow2 k b Hk ltac:(lia) Hb).
Qed.

Lemma mod_halves (o tx j : nat) :
  (tx < o)%nat ->
  (j mod o = tx <-> j mod (2 * o) = tx \/ j mod (2 * o) = tx + o)%nat.
Proof.
  intros Htx.
  assert (Hsplit : (j mod (o * 2) = j mod o + o * ((j / o) mod 2))%nat)
    by (apply Nat.Div0.mod_mul_r).
  rewrite (Nat.mul_comm 2 o).
  pose proof (Nat.mod_upper_bound j o ltac:(lia)) as Hlt.
  pose proof (Nat.mod_upper_bound (j / o) 2 ltac:(lia)) as Hbit.
  destruct (decide ((j / o) mod 2 = 0)%nat) as [H0|H1].
  - rewrite H0 in Hsplit. lia.
  - assert (Hone : ((j / o) mod 2 = 1)%nat) by lia. rewrite Hone in Hsplit. lia.
Qed.

(** One round of the reduction halves the width. *)
Lemma argmin_round_holds (offset : nat) (shm : list (F * nat)) :
  (0 < offset)%nat ->
  shm_holds ordered row (2 * offset) shm ->
  shm_holds ordered row offset (Utils.argmin_round offset shm).
Proof.
  intros Hpos Hshm tx Htx.
  destruct (Hshm tx ltac:(lia)) as (p & Hp & Hhp).
  destruct (Hshm (tx + offset)%nat ltac:(lia)) as (q & Hq & Hhq).
  exists (Utils.argmin_merge p q). split.
  - unfold Utils.argmin_round. rewrite list_lookup_imap, Hp. cbn [fmap option_fmap option_map].
    rewrite (proj2 (Nat.ltb_lt tx offset) Htx), Hq. reflexivity.
  - eapply holds_min_ext; [|apply (argmin_merge_holds _ _ p q Hhp Hhq)].
    intros j _. cbv beta. symmetry. apply mod_halves. exact Htx.
Qed.

(** [for (offset = blockDim.x / 2; offset > 0; offset >>= 1)], from a block
    of [2 ^ e] threads. *)
Lemma argmin_reduce_holds (e : nat) :
  forall (fuel : nat) (shm : list (F * nat)),
    (e < fuel)%nat ->
    shm_holds ordered row (2 ^ e) shm ->
    shm_holds ordered row 1 (Utils.argmin_reduce fuel (2 ^ e / 2) shm).
Proof.
  induction e as [|e IH]; intros fuel shm Hfuel Hshm.
  - destruct fuel as [|fuel]; [lia|]. exact Hshm.
  - destruct fuel as [|fuel]; [lia|].
    assert (Hhalf : (2 ^ S e / 2 = 2 ^ e)%nat).
    { rewrite Nat.pow_succ_r', Nat.mul_comm. apply Nat.div_mul. lia. }
    rewrite Hhalf. cbn [Utils.argmin_reduce].
    assert (Hpos : (0 < 2 ^ e)%nat) by (apply Nat.neq_0_lt_0, Nat.pow_nonzero; lia).
    rewrite (proj2 (Nat.ltb_lt 0 (2 ^ e)) Hpos).
    apply IH; [lia|]. apply argmin_round_holds; [exact Hpos|].
    rewrite <- Nat.pow_succ_r'. exact Hshm.
Qed.

(** The index a block of [2 ^ e] threads writes for a row that is not empty. *)
Lemma argmin_along_rows_kernel_argmin (e : nat) :
  (0 < length row)%nat ->
  is_argmin row (Z.of_nat (Utils.argmin_along_rows_kernel (length row) (2 ^ e) row)).
Proof.
  intros Hrow0. unfold Utils.argmin_along_rows_kernel.
  assert (Hinit : shm_holds ordered row (2 ^ e)
                    (Utils.argmin_thread (length row) (2 ^ e) row <$> seq 0 (2 ^ e))).
  { intros tx Htx. eexists. split.
    - rewrite list_lookup_fmap, lookup_seq_lt by exact Htx. reflexivity.
    - apply argmin_thread_holds. exact Htx. }
  pose proof (argmin_reduce_holds e (2 ^ e) _ (Nat.pow_gt_lin_r 2 e ltac:(lia)) Hinit)
    as Hfinal.
  destruct (Hfinal 0%nat ltac:(lia)) as (p & Hp & _ & Hhp).
  destruct (Utils.argmin_reduce (2 ^ e) (2 ^ e / 2) _) as [|p' shm]; [discriminate Hp|].
  injection Hp as ->.
  destruct Hhp as [[Hempty _]|(a & _ & Hi & _ & Hmin & Hlow)].
  - destruct (lookup_lt_is_Some_2 row 0 Hrow0) as [a Ha].
    rewrite (Hempty 0%nat (Nat.mod_1_r 0)) in Ha. discriminate.
  - split; [lia|]. exists a. rewrite Nat2Z.id. split; [exact Hi|]. split.
    + intros k d Hd. apply (Hmin k d (Nat.mod_1_r k) Hd).
    + intros k d Hk Hd. apply (Hlow k d (Nat.mod_1_r k) Hk Hd).
Qed.


End ArgminOrder.

Section ArgminRows.
Import Kmeans.
Context {F : Type} {FO : FloatOps F} {FL : FloatLimits F}.
Variable ordered : F -> Prop.
Hypothesis Hord : strict_weak_order ordered.

Lemma argmin_block_dim_pow2 (n_cols : nat) :
  exists e : nat, Utils.argmin_block_dim n_cols = (2 ^ e)%nat.
Proof.
  unfold Utils.argmin_block_dim, Utils.halve_block_dim.
  repeat match goal with
         | |- context [(n_cols <? ?b)%nat] => destruct (n_cols <? b)%nat
         end;
    first [ exists 7%nat; reflexivity | exists 8%nat; reflexivity
          | exists 9%nat; reflexivity | exists 10%nat; reflexivity ].
Qed.

(** [argmin_along_rows] on a matrix of [n_cols > 0] columns. *)
Lemma argmin_along_rows_argmin (n_cols : nat) (a : list (list F)) :
  ordered (upper_bound : F) -> (0 < n_cols)%nat ->
  length (Utils.argmin_along_rows n_cols a) = length a /\
  forall (i : nat) (row : list F),
    a !! i = Some row -> length row = n_cols ->
    Forall (selectable ordered upper_bound) row ->
    exists l, Utils.argmin_along_rows n_cols a !! i = Some l /\ is_argmin row l.
Proof.
  intros Hbound Hn. unfold Utils.argmin_along_rows. split; [apply length_fmap|].
  intros i row Hi Hlen Hsel. eexists. split.
  - rewrite list_lookup_fmap, Hi. reflexivity.
  - cbv beta. destruct (argmin_block_dim_pow2 n_cols) as [e ->]. rewrite <- Hlen.
    apply (argmin_along_rows_kernel_argmin ordered Hord row); [|exact Hbound|lia].
    intros j x Hj. exact (Forall_lookup_1 _ _ _ _ Hsel Hj).
Qed.


(** The fold of the fused L2 primitive over the distances of one row. *)
Lemma min_reduce_fold (dists : list F) :
  ordered (float_max : F) ->
  Forall (selectable ordered float_max) dists ->
  let st := foldl (fun (st : Z * F * Z) d =>
                     let '(cur, k) := st in
                     (if f_lt d (snd cur) then (k, d) else cur, k + 1))
                  ((0, float_max), 0) dists in
  snd st = Z.of_nat (length dists) /\
  ((dists = [] /\ fst st = (0, float_max)) \/
   exists j : nat,
     fst (fst st) = Z.of_nat j /\ dists !! j = Some (snd (fst st)) /\
     (forall k d, dists !! k = Some d -> f_lt d (snd (fst st)) = false) /\
     (forall k d, (k < j)%nat -> dists !! k = Some d -> f_lt (snd (fst st)) d = true)).
Proof.
  intros Hmax. induction dists as [|d dists IH] using rev_ind; intros Hsel st.
  - split; [reflexivity|]. left. split; reflexivity.
  - apply Forall_app in Hsel as [Hpre Hd].
    apply Forall_cons_1 in Hd as [[Hd Hdmax] _].
    specialize (IH Hpre). cbv zeta in IH.
    unfold st. rewrite foldl_app. cbn [foldl].
    destruct (foldl _ _ dists) as [[j0 c] k0]. cbn [fst snd] in *.
    destruct IH as [-> IH]. rewrite length_app. cbn [length].
    split; [destruct (f_lt d c); cbn [snd]; lia|].
    right. destruct IH as [[-> Hinit]|(j & -> & Hj & Hmin & Hlow)].
    + injection Hinit as -> ->. rewrite Hdmax. exists 0%nat. cbn [fst snd length].
      split; [reflexivity|]. split; [reflexivity|]. split.
      * intros [|k] d' Hd'; [|destruct k; discriminate Hd'].
        injection Hd' as <-. apply (swo_irrefl ordered Hord d Hd).
      * intros k d' Hk. lia.
    + pose proof (Forall_lookup_1 _ _ _ _ Hpre Hj) as [Hc _].
      destruct (f_lt d c) eqn:Hdc; cbn [fst snd].
      * exists (length dists). split; [reflexivity|].
        split; [apply list_lookup_middle; reflexivity|]. split.
        -- intros k d' Hd'. apply lookup_app_Some in Hd' as [Hd'|[_ Hd']].
           ++ pose proof (Forall_lookup_1 _ _ _ _ Hpre Hd') as [Hd'o _].
              destruct (f_lt d' d) eqn:Hlt; [|reflexivity].
              pose proof (swo_trans ordered Hord d' d c Hd'o Hd Hc Hlt Hdc) as Hcontra.
              rewrite (Hmin k d' Hd') in Hcontra. discriminate.
           ++ destruct (k - length dists)%nat; [|destruct n; discriminate Hd'].
              injection Hd' as <-. apply (swo_irrefl ordered Hord d Hd).
        -- intros k d' Hk Hd'. rewrite lookup_app_l in Hd' by exact Hk.
           pose proof (Forall_lookup_1 _ _ _ _ Hpre Hd') as [Hd'o _].
           apply (swo_lt_le ordered Hord d c d'); try assumption.
           apply (Hmin k d' Hd').
      * exists j. split; [reflexivity|].
        split; [rewrite lookup_app_l by (eapply lookup_lt_Some; exact Hj); exact Hj|].
        split.
        -- intros k d' Hd'. apply lookup_app_Some in Hd' as [Hd'|[_ Hd']].
           ++ apply (Hmin k d' Hd').
           ++ destruct (k - length dists)%nat; [|destruct n; discriminate Hd'].
              injection Hd' as <-. exact Hdc.
        -- intros k d' Hk Hd'.
           rewrite lookup_app_l in Hd' by (pose proof (lookup_lt_Some _ _ _ Hj); lia).
           apply (Hlow k d' Hk Hd').
Qed.

Lemma min_reduce_argmin (dists : list F) :
  ordered (float_max : F) -> (0 < length dists)%nat ->
  Forall (selectable ordered float_max) dists ->
  is_argmin dists (fst (min_reduce (0, float_max) dists)).
Proof.
  intros Hmax Hlen Hsel. unfold min_reduce.
  destruct (min_reduce_fold dists Hmax Hsel) as [_ [[-> _]|(j & Hj & Hlook & Hmin & Hlow)]].
  - cbn [length] in Hlen. lia.
  - rewrite Hj. split; [lia|]. eexists. rewrite Nat2Z.id.
    split; [exact Hlook|]. split; [exact Hmin|exact Hlow].
Qed.

End ArgminRows.

(** *** predict: the nearest center *)

Section PredictArgmin.
Import Kmeans.
Context {F : Type} {FO : FloatOps F} {FL : FloatLimits F}.
Variable ordered : F -> Prop.
Hypothesis Hord : strict_weak_order ordered.

Lemma fmap_zip_fmap {A B C} (g : A -> B -> C) (f : A -> B) (l : list A) :
  (fun cn => g (fst cn) (snd cn)) <$> zip l (f <$> l) = (fun c => g c (f c)) <$> l.
Proof. induction l as [|c l IH]; [reflexivity|]. cbn. rewrite <- IH. reflexivity. Qed.

Lemma is_argmin_range (dists : list F) (l : Z) :
  is_argmin dists l -> 0 <= l < Z.of_nat (length dists).
Proof.
  intros [Hl (dl & Hdl & _)]. apply lookup_lt_Some in Hdl. lia.
Qed.

Lemma length_distances metric centers (x : list F) xn :
  supported metric = true -> length (distances metric centers x xn) = length centers.
Proof. destruct metric; try discriminate; intros _; apply length_fmap. Qed.

(** One call of [predict_float_core] on [s] rows; [xn] gives the norms that
    are read for the L2 metrics. *)
Lemma predict_float_core_argmin centers (K : nat) (cur : list (list F))
    (norms : option (list F)) (s : nat) (metric : DistanceType) (xn : nat -> F) :
  supported metric = true -> (0 < K)%nat -> length centers = K -> length cur = s ->
  ordered (init_bound metric) ->
  (is_L2 metric = true ->
   forall i, (i < s)%nat -> default [] norms !! i = Some (xn i)) ->
  (forall i x, cur !! i = Some x ->
     Forall (selectable ordered (init_bound metric)) (distances metric centers x (xn i))) ->
  exists out,
    predict_float_core centers K cur norms s metric = Ok out /\
    length out = s /\
    forall i x, cur !! i = Some x ->
      exists l, out !! i = Some l /\ is_argmin (distances metric centers x (xn i)) l.
Proof.
  intros Hm HK Hcenters Hcur Hbound Hnorm Hsel.
  assert (Hl2 : forall (sqrt : bool) (metric' : DistanceType),
    metric' = (if sqrt then L2SqrtExpanded else L2Expanded) -> metric = metric' ->
    exists out,
      Ok (fst <$> fusedL2NNMinReduce (replicate s (0, float_max)) cur centers
                    (default [] norms) (rowNorm centers) sqrt) = Ok out /\
      length out = s /\
      forall i x, cur !! i = Some x ->
        exists l, out !! i = Some l /\ is_argmin (distances metric centers x (xn i)) l).
  { intros sqrt metric' Hsqrt ->. eexists. split; [reflexivity|]. split.
    - unfold fusedL2NNMinReduce. rewrite length_fmap, length_imap, length_replicate.
      reflexivity.
    - intros i x Hx.
      assert (Hi : (i < s)%nat) by (rewrite <- Hcur; eapply lookup_lt_Some; exact Hx).
      assert (Hxn : default [] norms !! i = Some (xn i)).
      { apply Hnorm; [|exact Hi]. rewrite Hsqrt. destruct sqrt; reflexivity. }
      eexists. split.
      + unfold fusedL2NNMinReduce.
        rewrite list_lookup_fmap, list_lookup_imap, (lookup_replicate_2 _ _ _ Hi).
        cbn [fmap option_fmap option_map]. rewrite Hx, Hxn. reflexivity.
      + unfold rowNorm.
        rewrite (fmap_zip_fmap (fun c cn => l2_expanded sqrt x (xn i) c cn)).
        specialize (Hsel i x Hx). rewrite Hsqrt in Hsel, Hbound |- *.
        assert (Hdist :
          distances (if sqrt then L2SqrtExpanded else L2Expanded) centers x (xn i)
          = (fun c => l2_expanded sqrt x (xn i) c (sqnorm c)) <$> centers)
          by (destruct sqrt; reflexivity).
        rewrite Hdist in Hsel |- *.
        assert (Hinit : init_bound (if sqrt then L2SqrtExpanded else L2Expanded)
                        = (float_max : F)) by (destruct sqrt; reflexivity).
        rewrite Hinit in Hsel, Hbound.
        apply (min_reduce_argmin ordered Hord); [exact Hbound| |exact Hsel].
        rewrite length_fmap. lia. }
  destruct metric; try discriminate Hm.
  - apply (Hl2 false L2Expanded); reflexivity.
  - apply (Hl2 true L2SqrtExpanded); reflexivity.
  - cbn [predict_float_core]. eexists. split; [reflexivity|].
    assert (Htake : take s cur = cur) by (apply take_ge; lia).
    rewrite Htake.
    destruct (argmin_along_rows_argmin ordered Hord K (gemm (f_of_Z (-1)) centers cur)
                Hbound HK) as [Hlen Hrows].
    split; [rewrite Hlen; unfold gemm; rewrite length_fmap; exact Hcur|].
    intros i x Hx. apply Hrows.
    + unfold gemm. rewrite list_lookup_fmap, Hx. reflexivity.
    + rewrite length_distances by reflexivity. exact Hcenters.
    + exact (Hsel i x Hx).
Qed.

End PredictArgmin.

Section PredictLoop.
Import Kmeans.
Context {F : Type} {FO : FloatOps F} {FL : FloatLimits F}.
Context {T : Type} (mapping : T -> F) (is_float : bool).
Variable ordered : F -> Prop.
Hypothesis Hord : strict_weak_order ordered.

Lemma calc_minibatch_size_pos (K n_rows dim : Z) metric :
  0 < K -> 0 <= dim -> 0 < n_rows -> 4 * K + 4 * dim <= 2 ^ 30 ->
  0 < calc_minibatch_size is_float K n_rows dim metric.
Proof.
  intros HK Hdim Hn Hmem. unfold calc_minibatch_size, ceildiv.
  rewrite (Z.max_r 1 K) by lia.
  set (mem := if negb is_float
              then (if negb (is_L2 metric) then 0 + 4 * K else 0 + 4) + 4 * dim
              else (if negb (is_L2 metric) then 0 + 4 * K else 0 + 4)).
  assert (Hmem' : 0 < mem <= 2 ^ 30).
  { unfold mem. destruct (negb is_float), (negb (is_L2 metric)); lia. }
  assert (Hq : 1 <= 2 ^ 30 / mem) by (apply Z.div_le_lower_bound; lia).
  assert (Hc : 1 <= (2 ^ 30 / mem + 64 - 1) / 64) by (apply Z.div_le_lower_bound; lia).
  lia.
Qed.

Lemma length_write_at {A} (offset : nat) (out a : list A) :
  (offset + length out <= length a)%nat ->
  length (write_at offset out a) = length a.
Proof.
  intros H. unfold write_at. rewrite !length_app, length_take, length_drop. lia.
Qed.

Lemma write_at_lookup_before {A} (offset i : nat) (out a : list A) :
  (i < offset <= length a)%nat -> write_at offset out a !! i = a !! i.
Proof.
  intros H. unfold write_at.
  rewrite lookup_app_l by (rewrite length_take; lia). apply lookup_take_lt. lia.
Qed.

Lemma write_at_lookup_in {A} (offset i : nat) (out a : list A) :
  (offset <= length a)%nat -> (offset <= i < offset + length out)%nat ->
  write_at offset out a !! i = out !! (i - offset)%nat.
Proof.
  intros Ha H. unfold write_at.
  rewrite lookup_app_r by (rewrite length_take; lia).
  rewrite length_take, Nat.min_l by lia.
  apply lookup_app_l. lia.
Qed.

Variables (centers : list (list F)) (K : nat) (dataset : list (list T)) (n_rows : Z)
          (metric : DistanceType) (dataset_norm : option (list F)) (mb : Z).
Hypothesis Hmetric : supported metric = true.
Hypothesis HK : (0 < K)%nat.
Hypothesis Hcenters : length centers = K.
Hypothesis Hrows : Z.of_nat (length dataset) = n_rows.
Hypothesis Hbound : ordered (init_bound metric).
Hypothesis Hnorms : norms_fit dataset dataset_norm.
Hypothesis Hsel : all_selectable mapping ordered metric centers dataset dataset_norm.
Hypothesis Hmb : 0 < mb.

(** One round of the loop labels the rows of its minibatch. *)
Lemma predict_minibatch (offset : nat) (s : nat) :
  (0 < s)%nat -> (offset + s <= length dataset)%nat ->
  exists out,
    predict_float_core centers K
      ((fun row : list T => mapping <$> row) <$> take s (drop offset dataset))
      (if match dataset_norm with None => is_L2 metric | Some _ => false end
       then Some (rowNorm ((fun row : list T => mapping <$> row)
                             <$> take s (drop offset dataset)))
       else drop offset <$> dataset_norm)
      s metric = Ok out /\
    length out = s /\
    forall i, (i < s)%nat ->
      exists l, out !! i = Some l /\ 0 <= l < Z.of_nat (length centers) /\
                nearest mapping metric centers dataset dataset_norm (offset + i) l.
Proof.
  intros Hs Hfit.
  set (cur := (fun row : list T => mapping <$> row) <$> take s (drop offset dataset)).
  assert (Hcur : forall i, (i < s)%nat ->
            exists x, dataset !! (offset + i)%nat = Some x /\
                      cur !! i = Some (mapping <$> x)).
  { intros i Hi. destruct (lookup_lt_is_Some_2 dataset (offset + i) ltac:(lia)) as [x Hx].
    exists x. split; [exact Hx|]. unfold cur.
    rewrite list_lookup_fmap, lookup_take_lt, lookup_drop, Hx by exact Hi. reflexivity. }
  assert (Hlen : length cur = s).
  { unfold cur. rewrite length_fmap, length_take, length_drop. lia. }
  destruct (predict_float_core_argmin ordered Hord centers K cur
              (if match dataset_norm with None => is_L2 metric | Some _ => false end
               then Some (rowNorm cur) else drop offset <$> dataset_norm)
              s metric
              (fun i => row_norm dataset_norm (offset + i) (default [] (cur !! i)))
              Hmetric HK Hcenters Hlen Hbound)
    as (out & Hrun & Hout & Hlabels).
  - intros HL2 i Hi. destruct (Hcur i Hi) as (x & Hx & Hci). rewrite Hci.
    destruct dataset_norm as [norms|]; cbn [row_norm fmap option_fmap option_map].
    + cbn in Hnorms.
      destruct (lookup_lt_is_Some_2 norms (offset + i) ltac:(lia)) as [v Hv].
      change (default [] (Some (drop offset norms))) with (drop offset norms).
      rewrite lookup_drop, Hv. reflexivity.
    + rewrite HL2. change (default [] (Some (rowNorm cur))) with (rowNorm cur).
      unfold rowNorm. rewrite list_lookup_fmap, Hci. reflexivity.
  - intros i x' Hx'.
    assert (Hi : (i < s)%nat) by (rewrite <- Hlen; eapply lookup_lt_Some; exact Hx').
    destruct (Hcur i Hi) as (x & Hx & Hci). rewrite Hx'.
    rewrite Hci in Hx'. injection Hx' as <-.
    exact (Hsel (offset + i)%nat x Hx).
  - exists out. split; [exact Hrun|]. split; [exact Hout|].
    intros i Hi. destruct (Hcur i Hi) as (x & Hx & Hci).
    destruct (Hlabels i _ Hci) as (l & Hl & Hargmin). rewrite Hci in Hargmin.
    exists l. split; [exact Hl|]. split.
    + apply is_argmin_range in Hargmin.
      rewrite length_distances in Hargmin by exact Hmetric. exact Hargmin.
    + exists x. split; [exact Hx|exact Hargmin].
Qed.

(** The loop over the minibatches, from [offset] on. *)
Lemma predict_loop_labels (fuel : nat) :
  forall (offset : Z) (labels : list Z),
    0 <= offset -> Z.max 0 (n_rows - offset) < Z.of_nat fuel ->
    labelled mapping metric centers dataset dataset_norm offset labels ->
    exists labels',
      predict_loop mapping fuel centers K dataset n_rows metric dataset_norm mb
        offset labels = Ok labels' /\
      labelled mapping metric centers dataset dataset_norm n_rows labels'.
Proof.
  induction fuel as [|fuel IH]; intros offset labels Hoff Hfuel [Hlen Hdone]; [lia|].
  cbn [predict_loop].
  destruct (Z.ltb_spec offset n_rows) as [Hlt|Hge].
  - set (s := Z.to_nat (Z.min mb (n_rows - offset))).
    destruct (predict_minibatch (Z.to_nat offset) s ltac:(lia) ltac:(lia))
      as (out & -> & Hout & Hlabels).
    cbn [bind]. apply IH; [lia|lia|]. split.
    + rewrite length_write_at by lia. exact Hlen.
    + intros i Hi HiN.
      destruct (Nat.lt_ge_cases i (Z.to_nat offset)) as [Hbefore|Hin].
      * rewrite write_at_lookup_before by lia. apply Hdone; lia.
      * rewrite write_at_lookup_in by lia.
        destruct (Hlabels (i - Z.to_nat offset)%nat ltac:(lia)) as (l & Hl & Hr & Hnear).
        exists l. split; [exact Hl|]. split; [exact Hr|].
        replace (Z.to_nat offset + (i - Z.to_nat offset))%nat with i in Hnear by lia.
        exact Hnear.
  - exists labels. split; [reflexivity|]. split; [exact Hlen|].
    intros i Hi HiN. apply Hdone; lia.
Qed.

End PredictLoop.

(** *** Single precision: the order of the numbers *)

Lemma SFltb_key (x y : spec_float) :
  is_number x -> is_number y ->
  SFltb x y = true <-> key_lt (float_key x) (float_key y).
Proof.
  intros Hx Hy. unfold SFltb, SFcompare, key_lt.
  destruct x as [sx|sx| |sx mx ex], y as [sy|sy| |sy my ey];
    try contradiction; try destruct sx; try destruct sy; cbn [float_key fst snd];
    try (split; intros Hk; first [reflexivity | discriminate | lia | (exfalso; lia)]).
  - change (Pos.compare_cont Eq mx my) with (Pos.compare mx my).
    destruct (Z.compare_spec ex ey), (Pos.compare_spec mx my); cbn [CompOpp];
      split; intros Hk; first [reflexivity | discriminate | lia | (exfalso; lia)].
  - change (Pos.compare_cont Eq mx my) with (Pos.compare mx my).
    destruct (Z.compare_spec ex ey), (Pos.compare_spec mx my);
      split; intros Hk; first [reflexivity | discriminate | lia | (exfalso; lia)].
Qed.

Lemma SFltb_key_false (x y : spec_float) :
  is_number x -> is_number y ->
  SFltb x y = false <-> ~ key_lt (float_key x) (float_key y).
Proof.
  intros Hx Hy. pose proof (SFltb_key x y Hx Hy) as H.
  destruct (SFltb x y); split; intros H'; try reflexivity; try discriminate.
  - exfalso. apply H'. apply H. reflexivity.
  - intros Hk. apply H in Hk. discriminate.
Qed.

Lemma binary32_strict_weak_order : strict_weak_order (F := spec_float) is_number.
Proof.
  split; cbn [f_lt Binary32.ops].
  - intros x Hx. apply SFltb_key_false; [exact Hx|exact Hx|]. unfold key_lt. lia.
  - intros x y z Hx Hy Hz Hxy Hyz.
    apply SFltb_key in Hxy; [|assumption..]. apply SFltb_key in Hyz; [|assumption..].
    apply SFltb_key; [assumption..|]. unfold key_lt in *. lia.
  - intros x y z Hx Hy Hz Hxy Hyz.
    apply SFltb_key_false in Hxy; [|assumption..].
    apply SFltb_key_false in Hyz; [|assumption..].
    apply SFltb_key_false; [assumption..|]. unfold key_lt in *. lia.
Qed.

(** *** predict: the labels *)

Section PredictTheorem.
Import Kmeans.
Context {F : Type} {FO : FloatOps F} {FL : FloatLimits F}.
Context {T : Type} (mapping : T -> F) (is_float : bool).

(** C1, amended: when [<] is a strict weak order on the numbers, and every
    distance from a row to a center is a number below the value the minimum
    starts from ([upper_bound] for the inner product, the largest finite
    value for L2), then for every dataset, every K > 0 centers and every
    supported metric [predict] returns, every label it writes is in [[0, K)],
    no center is nearer to the row than the labelled one, and every center
    of lower index is farther. *)
Theorem predict_nearest (ordered : F -> Prop) (fuel : nat) (centers : list (list F))
    (K : nat) (dim : Z) (dataset : list (list T)) (n_rows : Z) (labels : list Z)
    (metric : DistanceType) (dataset_norm : option (list F)) :
  strict_weak_order ordered ->
  supported metric = true ->
  (0 < K)%nat -> length centers = K ->
  Z.of_nat (length dataset) = n_rows -> length labels = length dataset ->
  0 <= dim -> 4 * Z.of_nat K + 4 * dim <= 2 ^ 30 ->
  norms_fit dataset dataset_norm ->
  ordered (init_bound metric) ->
  all_selectable mapping ordered metric centers dataset dataset_norm ->
  n_rows < Z.of_nat fuel ->
  exists labels',
    predict mapping is_float fuel centers K dim dataset n_rows labels metric dataset_norm
    = Ok labels' /\
    labelled mapping metric centers dataset dataset_norm n_rows labels'.
Proof.
  intros Hord Hmetric HK Hcenters Hrows Hlabels Hdim Hmem Hnorms Hbound Hsel Hfuel.
  unfold predict.
  destruct (decide (n_rows = 0)) as [Hzero|Hpos].
  - destruct fuel as [|fuel]; [lia|]. cbn [predict_loop].
    rewrite Hzero. cbn [Z.ltb Z.compare]. exists labels. split; [reflexivity|].
    split; [exact Hlabels|]. intros i Hi. lia.
  - apply (predict_loop_labels mapping ordered Hord centers K dataset n_rows metric
             dataset_norm _ Hmetric HK Hcenters Hrows Hbound Hnorms Hsel).
    + apply calc_minibatch_size_pos; lia.
    + lia.
    + lia.
    + split; [exact Hlabels|]. intros i Hi. lia.
Qed.

End PredictTheorem.

(** C1, as stated, fails: the inner product of the row and the only center
    overflows, the distance is [+infinity], nothing is below the initial
    minimum and the label is the number of centers, 1. *)
Lemma predict_label_range_counterexample :
  Kmeans.predict Mapping.of_float true 2 far_center 1 1 far_row 1 [0] InnerProduct None
  = Ok [1] /\
  ~ labelled Mapping.of_float InnerProduct far_center far_row None 1 [1].
Proof.
  split; [vm_compute; reflexivity|].
  intros [_ H]. destruct (H 0%nat ltac:(lia) ltac:(cbn; lia)) as (l & Hl & Hr & _).
  injection Hl as <-. cbn in Hr. lia.
Qed.

Lemma predict_nearest_witness :
  exists labels',
    Kmeans.predict Mapping.of_float true 3 line_centers 2 1 line_rows 2 [0; 0]
      InnerProduct None = Ok labels' /\
    labelled Mapping.of_float InnerProduct line_centers line_rows None 2 labels'.
Proof.
  apply (predict_nearest (F := spec_float) Mapping.of_float true is_number 3
           line_centers 2 1 line_rows 2 [0; 0] InnerProduct None).
  - exact binary32_strict_weak_order.
  - reflexivity.
  - lia.
  - reflexivity.
  - reflexivity.
  - reflexivity.
  - lia.
  - lia.
  - exact I.
  - exact I.
  - intros i x Hx. destruct i as [|[|i]]; cbn in Hx; try discriminate Hx;
      injection Hx as <-; repeat constructor; vm_compute; reflexivity.
  - lia.
Defined.

(** ** Part III: further properties of the sources *)

(** *** check_pointer_residency *)

Section ResidencyFacts.
Import Utils.

Lemma filter_all_length {A} (P : A -> bool) (l : list A) :
  length (filter (fun x => P x = true) l) = length l <-> Forall (fun x => P x = true) l.
Proof.
  induction l as [|x l IH].
  - split; [intros _; constructor|reflexivity].
  - pose proof (length_filter (fun x => P x = true) l) as Hle.
    destruct (P x) eqn:HP.
    + rewrite filter_cons_True by exact HP. cbn [length]. split.
      * intros H. constructor; [exact HP|]. apply IH. lia.
      * intros H. apply Forall_cons_1 in H as [_ H]. apply IH in H. lia.
    + rewrite filter_cons_False by congruence. cbn [length]. split.
      * intros H. lia.
      * intros H. apply Forall_cons_1 in H as [H _]. congruence.
Qed.

Lemma pointer_residency_count_filter (ptrs : list cudaMemoryType) :
  pointer_residency_count ptrs
  = (Z.of_nat (length (filter (fun t => device_accessible t = true) ptrs)),
     Z.of_nat (length (filter (fun t => host_accessible t = true) ptrs))).
Proof.
  induction ptrs as [|t ptrs IH]; [reflexivity|].
  cbn [pointer_residency_count]. rewrite IH.
  destruct t;
    repeat first [ rewrite filter_cons_True by reflexivity
                 | rewrite filter_cons_False by discriminate ];
    cbn [length]; f_equal; lia.
Qed.

(** X1: [check_pointer_residency] reports both sides exactly when every
    pointer can be used on both, one side exactly when every pointer can be
    used on that side and not all on the other, and [mixed] exactly when
    neither side can use all the pointers. *)
Theorem check_pointer_residency_sides (ptrs : list cudaMemoryType) :
  let all_device := Forall (fun t => device_accessible t = true) ptrs in
  let all_host := Forall (fun t => host_accessible t = true) ptrs in
  (check_pointer_residency ptrs = host_and_device <-> all_device /\ all_host) /\
  (check_pointer_residency ptrs = device_only <-> all_device /\ ~ all_host) /\
  (check_pointer_residency ptrs = host_only <-> all_host /\ ~ all_device) /\
  (check_pointer_residency ptrs = mixed <-> ~ all_device /\ ~ all_host).
Proof.
  intros all_device all_host. unfold check_pointer_residency.
  rewrite pointer_residency_count_filter.
  pose proof (filter_all_length device_accessible ptrs) as Hd.
  pose proof (filter_all_length host_accessible ptrs) as Hh.
  fold all_device in Hd. fold all_host in Hh.
  destruct (Z.eqb_spec (Z.of_nat (length (filter (fun t => device_accessible t = true) ptrs)))
              (Z.of_nat (length ptrs))) as [Ed|Ed];
    destruct (Z.eqb_spec (Z.of_nat (length (filter (fun t => host_accessible t = true) ptrs)))
                (Z.of_nat (length ptrs))) as [Eh|Eh];
    cbn [andb].
  - assert (all_device) by (apply Hd; lia). assert (all_host) by (apply Hh; lia).
    repeat split; intros; try discriminate; try tauto.
  - assert (all_device) by (apply Hd; lia).
    assert (~ all_host) by (intros H'; apply Hh in H'; lia).
    repeat split; intros; try discriminate; try tauto.
  - assert (all_host) by (apply Hh; lia).
    assert (~ all_device) by (intros H'; apply Hd in H'; lia).
    repeat split; intros; try discriminate; try tauto.
  - assert (~ all_host) by (intros H'; apply Hh in H'; lia).
    assert (~ all_device) by (intros H'; apply Hd in H'; lia).
    repeat split; intros; try discriminate; try tauto.
Qed.

End ResidencyFacts.

(** *** mapping: the integer element types *)

Section NarrowFacts.

Lemma forallb_seqZ (P : Z -> bool) (m n x : Z) :
  forallb P (seqZ m n) = true -> m <= x < m + n -> P x = true.
Proof.
  intros Hall Hx. apply (proj1 (forallb_forall P (seqZ m n)) Hall).
  apply list_elem_of_In, elem_of_seqZ. exact Hx.
Qed.

(** X2: a [uint8_t] element mapped to [float] and back is the element it
    was: the scaling by [1 / 256] and by 256 is exact in single precision. *)
Theorem mapping_uint8_round_trip (x : Z) :
  0 <= x < 256 -> Narrow.uint8_of_float (Mapping.of_uint8 x) = Some x.
Proof.
  intros Hx.
  assert (Hall : forallb (fun x => is_value (Narrow.uint8_of_float (Mapping.of_uint8 x)) x)
                   (seqZ 0 256) = true) by (vm_compute; reflexivity).
  pose proof (forallb_seqZ _ 0 256 x Hall ltac:(lia)) as H. cbv beta in H.
  destruct (Narrow.uint8_of_float (Mapping.of_uint8 x)) as [y|]; [|discriminate H].
  apply Z.eqb_eq in H. congruence.
Qed.

Lemma mapping_uint8_round_trip_witness :
  Narrow.uint8_of_float (Mapping.of_uint8 200) = Some 200.
Proof. apply (mapping_uint8_round_trip 200). lia. Defined.

(** X3: an [int8_t] element mapped to [float] and back is the element it was. *)
Theorem mapping_int8_round_trip (x : Z) :
  -128 <= x < 128 -> Narrow.int8_of_float (Mapping.of_int8 x) = Some x.
Proof.
  intros Hx.
  assert (Hall : forallb (fun x => is_value (Narrow.int8_of_float (Mapping.of_int8 x)) x)
                   (seqZ (-128) 256) = true) by (vm_compute; reflexivity).
  pose proof (forallb_seqZ _ (-128) 256 x Hall ltac:(lia)) as H. cbv beta in H.
  destruct (Narrow.int8_of_float (Mapping.of_int8 x)) as [y|]; [|discriminate H].
  apply Z.eqb_eq in H. congruence.
Qed.

Lemma mapping_int8_round_trip_witness :
  Narrow.int8_of_float (Mapping.of_int8 (-77)) = Some (-77).
Proof. apply (mapping_int8_round_trip (-77)). lia. Defined.

(** X4: between the integer types the mapping rescales: a [uint8_t] element
    becomes its half, rounded down, as an [int8_t]; an [int8_t] element that
    is not negative becomes its double as a [uint8_t], and for a negative one
    the conversion is not defined. *)
Theorem mapping_between_integers (x : Z) :
  (0 <= x < 256 -> Narrow.int8_of_uint8 x = Some (x / 2)) /\
  (0 <= x < 128 -> Narrow.uint8_of_int8 x = Some (2 * x)) /\
  (-128 <= x < 0 -> Narrow.uint8_of_int8 x = None).
Proof.
  split; [|split]; intros Hx.
  - assert (Hall : forallb (fun x => is_value (Narrow.int8_of_uint8 x) (x / 2))
                     (seqZ 0 256) = true) by (vm_compute; reflexivity).
    pose proof (forallb_seqZ _ 0 256 x Hall ltac:(lia)) as H. cbv beta in H.
    destruct (Narrow.int8_of_uint8 x) as [y|]; [|discriminate H].
    apply Z.eqb_eq in H. congruence.
  - assert (Hall : forallb (fun x => is_value (Narrow.uint8_of_int8 x) (2 * x))
                     (seqZ 0 128) = true) by (vm_compute; reflexivity).
    pose proof (forallb_seqZ _ 0 128 x Hall ltac:(lia)) as H. cbv beta in H.
    destruct (Narrow.uint8_of_int8 x) as [y|]; [|discriminate H].
    apply Z.eqb_eq in H. congruence.
  - assert (Hall : forallb (fun x => match Narrow.uint8_of_int8 x with
                                     | None => true | Some _ => false end)
                     (seqZ (-128) 128) = true) by (vm_compute; reflexivity).
    pose proof (forallb_seqZ _ (-128) 128 x Hall ltac:(lia)) as H. cbv beta in H.
    destruct (Narrow.uint8_of_int8 x); [discriminate H|reflexivity].
Qed.

Lemma mapping_between_integers_witness :
  Narrow.int8_of_uint8 255 = Some (255 / 2) /\ Narrow.uint8_of_int8 100 = Some (2 * 100) /\
  Narrow.uint8_of_int8 (-3) = None.
Proof.
  split; [|split].
  - apply (proj1 (mapping_between_integers 255)). lia.
  - apply (proj1 (proj2 (mapping_between_integers 100))). lia.
  - apply (proj2 (proj2 (mapping_between_integers (-3)))). lia.
Defined.

End NarrowFacts.

(** *** dots_along_rows *)

Section DotsFacts.
Import Utils.
Local Open Scope R_scope.

(** X5: in exact arithmetic [dots_along_rows] writes, for every row below
    [n_rows], the sum of the squares of the row; the other entries of the
    output are left as they were. *)
Theorem dots_along_rows_squared_norm (n_rows n_cols : nat) (a : list (list R))
    (out : list R) (i : nat) (o : R) :
  out !! i = Some o ->
  ((i < n_rows)%nat ->
   forall row, a !! i = Some row -> length row = n_cols ->
     dots_along_rows n_rows n_cols a out !! i = Some (squared_norm row)) /\
  ((n_rows <= i)%nat -> dots_along_rows n_rows n_cols a out !! i = Some o).
Proof.
  intros Ho. unfold dots_along_rows. rewrite list_lookup_imap, Ho.
  cbn [fmap option_fmap option_map]. split.
  - intros Hi row Hrow Hlen. rewrite (proj2 (Nat.ltb_lt i n_rows) Hi), Hrow.
    unfold dots_along_rows_kernel. rewrite <- Hlen, warp_sqsum_real. reflexivity.
  - intros Hi. rewrite (proj2 (Nat.ltb_ge i n_rows) Hi). reflexivity.
Qed.

Lemma dots_along_rows_squared_norm_witness :
  dots_along_rows 1 2 [[3; 4]] [0; 7] !! 0%nat = Some (squared_norm [3; 4]) /\
  dots_along_rows 1 2 [[3; 4]] [0; 7] !! 1%nat = Some 7.
Proof.
  split.
  - apply (proj1 (dots_along_rows_squared_norm 1 2 [[3; 4]] [0; 7] 0 0 eq_refl));
      [lia|reflexivity|reflexivity].
  - apply (proj2 (dots_along_rows_squared_norm 1 2 [[3; 4]] [0; 7] 1 7 eq_refl)). lia.
Defined.

End DotsFacts.

(** *** Grids of threads *)

Section LaunchFacts.
Import Utils.
Context {A : Type}.

Lemma length_wr (m : list A) (i : Z) (v : A) : length (wr m i v) = length m.
Proof. unfold wr. destruct (i <? 0); [reflexivity|apply length_insert]. Qed.

Lemma wr_lookup_eq (m : list A) (i : Z) (v : A) :
  0 <= i < Z.of_nat (length m) -> wr m i v !! Z.to_nat i = Some v.
Proof.
  intros Hi. unfold wr. destruct (Z.ltb_spec i 0); [lia|].
  apply list_lookup_insert_eq. lia.
Qed.

Lemma wr_lookup_ne (m : list A) (i : Z) (v : A) (k : nat) :
  i <> Z.of_nat k -> wr m i v !! k = m !! k.
Proof.
  intros Hi. unfold wr. destruct (Z.ltb_spec i 0); [reflexivity|].
  apply list_lookup_insert_ne. lia.
Qed.

Variables (guard : Z -> bool) (dest : Z -> Z) (val : Z -> A).

(** Threads that write distinct cells, taken in any order one after the
    other: every write is found in the memory at the end, and nothing else
    has changed. *)
Lemma foldl_write_step (gs : list Z) :
  NoDup gs ->
  (forall g1 g2, g1 ∈ gs -> g2 ∈ gs -> guard g1 = true -> guard g2 = true ->
                 dest g1 = dest g2 -> g1 = g2) ->
  forall m : list A,
    let m' := foldl (write_step guard dest val) m gs in
    length m' = length m /\
    (forall g, g ∈ gs -> guard g = true -> 0 <= dest g < Z.of_nat (length m) ->
               m' !! Z.to_nat (dest g) = Some (val g)) /\
    (forall k : nat, (forall g, g ∈ gs -> guard g = true -> dest g <> Z.of_nat k) ->
                     m' !! k = m !! k).
Proof.
  induction gs as [|g gs IH]; intros Hnd Hinj m.
  - cbn. split; [reflexivity|]. split; [|reflexivity].
    intros g Hg. inversion Hg.
  - pose proof (NoDup_cons_1_1 _ _ Hnd) as Hg. apply NoDup_cons_1_2 in Hnd.
    assert (Hinj' : forall g1 g2, g1 ∈ gs -> g2 ∈ gs -> guard g1 = true ->
                      guard g2 = true -> dest g1 = dest g2 -> g1 = g2).
    { intros g1 g2 H1 H2. apply Hinj; right; assumption. }
    destruct (IH Hnd Hinj' (write_step guard dest val m g)) as (Hlen & Hhit & Hmiss).
    assert (Hlen1 : length (write_step guard dest val m g) = length m).
    { unfold write_step. destruct (guard g); [apply length_wr|reflexivity]. }
    cbn [foldl]. split; [rewrite Hlen; exact Hlen1|]. split.
    + intros g' Hg' Hguard Hdest. apply elem_of_cons in Hg' as [->|Hg'].
      * rewrite Hmiss.
        -- unfold write_step. rewrite Hguard. apply wr_lookup_eq. exact Hdest.
        -- intros g2 Hg2 Hguard2 Heq. rewrite Z2Nat.id in Heq by lia.
           assert (g2 = g) by (apply Hinj; [right; exact Hg2|left|assumption..]).
           subst g2. contradiction.
      * apply Hhit; [exact Hg'|exact Hguard|rewrite Hlen1; exact Hdest].
    + intros k Hk. rewrite Hmiss.
      * unfold write_step. destruct (guard g) eqn:Hguard; [|reflexivity].
        apply wr_lookup_ne. apply Hk; [left|exact Hguard].
      * intros g2 Hg2. apply Hk. right. exact Hg2.
Qed.

End LaunchFacts.

(** *** outer_add *)

Section OuterAddFacts.
Import Utils.
Context {F : Type} {FO : FloatOps F}.

Lemma outer_add_kernel_write_step (a b : option (list F)) (len_a len_b : Z) :
  forall gid c,
    outer_add_kernel a len_a b len_b gid c
    = write_step (fun g => negb (len_a <=? g / len_b)) (fun g => g)
        (fun g => f_add (operand a (g / len_b)) (operand b (g mod len_b))) c gid.
Proof.
  intros gid c. unfold outer_add_kernel, write_step, operand.
  destruct (len_a <=? gid / len_b); reflexivity.
Qed.

Lemma foldl_ext_in {X Y} (f g : Y -> X -> Y) (l : list X) (y : Y) :
  (forall x y, x ∈ l -> f y x = g y x) -> foldl f y l = foldl g y l.
Proof.
  revert y. induction l as [|x l IH]; intros y H; [reflexivity|].
  cbn [foldl]. rewrite (H x y) by left. apply IH. intros x' y' Hx'. apply H. right. exact Hx'.
Qed.

(** X6: [outer_add] fills the first [len_a * len_b] cells of [c] with the
    sums [a[i] + b[j]] at [i * len_b + j], a missing vector counting as
    zeros, and leaves the rest of [c] as it was. *)
Theorem outer_add_sums (a b : option (list F)) (len_a len_b : Z) (c : list F) :
  0 <= len_a -> 0 < len_b -> len_a * len_b <= Z.of_nat (length c) ->
  let c' := outer_add a len_a b len_b c in
  length c' = length c /\
  (forall i j, 0 <= i < len_a -> 0 <= j < len_b ->
     c' !! Z.to_nat (i * len_b + j) = Some (f_add (operand a i) (operand b j))) /\
  (forall k : nat, len_a * len_b <= Z.of_nat k -> c' !! k = c !! k).
Proof.
  intros Ha Hb Hc c'. unfold c', outer_add, launch.
  set (n := ceildiv (len_a * len_b) 128 * 128).
  assert (Hn : len_a * len_b <= n).
  { unfold n, ceildiv. pose proof (Z.div_mod (len_a * len_b + 128 - 1) 128 ltac:(lia)).
    pose proof (Z.mod_pos_bound (len_a * len_b + 128 - 1) 128 ltac:(lia)). lia. }
  rewrite (foldl_ext_in _ (write_step (fun g => negb (len_a <=? g / len_b)) (fun g => g)
             (fun g => f_add (operand a (g / len_b)) (operand b (g mod len_b)))))
    by (intros; apply outer_add_kernel_write_step).
  destruct (foldl_write_step (fun g => negb (len_a <=? g / len_b)) (fun g => g)
              (fun g => f_add (operand a (g / len_b)) (operand b (g mod len_b)))
              (seqZ 0 n) (NoDup_seqZ 0 n) ltac:(intros; assumption) c)
    as (Hlen & Hhit & Hmiss).
  split; [exact Hlen|]. split.
  - intros i j Hi Hj.
    assert (Hdiv : (i * len_b + j) / len_b = i).
    { rewrite Z.div_add_l by lia. rewrite Z.div_small by lia. lia. }
    assert (Hmod : (i * len_b + j) mod len_b = j).
    { rewrite Z.add_comm, Z.mod_add by lia. apply Z.mod_small. lia. }
    rewrite (Hhit (i * len_b + j)).
    + rewrite Hdiv, Hmod. reflexivity.
    + apply elem_of_seqZ. nia.
    + rewrite Hdiv. apply negb_true_iff, Z.leb_gt. lia.
    + nia.
  - intros k Hk. apply Hmiss. intros g Hg Hguard ->.
    apply negb_true_iff, Z.leb_gt in Hguard.
    assert (len_a <= Z.of_nat k / len_b) by (apply Z.div_le_lower_bound; lia).
    lia.
Qed.

End OuterAddFacts.

Lemma outer_add_sums_witness :
  let c' := Utils.outer_add (F := spec_float) (Some [Binary32.of_Z 1; Binary32.of_Z 2]) 2
              None 3 (replicate 7 (Binary32.of_Z 9)) in
  length c' = 7%nat /\
  (forall i j, 0 <= i < 2 -> 0 <= j < 3 ->
     c' !! Z.to_nat (i * 3 + j)
     = Some (f_add (operand (Some [Binary32.of_Z 1; Binary32.of_Z 2]) i) (operand None j))) /\
  (forall k : nat, 2 * 3 <= Z.of_nat k -> c' !! k = replicate 7 (Binary32.of_Z 9) !! k).
Proof.
  apply (outer_add_sums (F := spec_float) (Some [Binary32.of_Z 1; Binary32.of_Z 2]) None 2 3
           (replicate 7 (Binary32.of_Z 9))).
  - lia.
  - lia.
  - simpl. lia.
Defined.

(** *** copy_selected *)

Section CopySelectedFacts.
Import Utils.
Context {S T : Type} (mapping : S -> T) (s0 : S).
Variables (n_rows n_cols : Z) (src : list S) (row_ids : list Z) (ld_src ld_dst : Z).

Local Abbreviation cell_guard := (fun g : Z => negb (n_rows <=? g / n_cols)).
Local Abbreviation cell_dest := (fun g : Z => ld_dst * (g / n_cols) + g mod n_cols).
Local Abbreviation cell_val :=
  (fun g : Z => mapping (rd s0 src (ld_src * rd 0 row_ids (g / n_cols) + g mod n_cols))).

Lemma copy_selected_kernel_write_step (gid : Z) (dst : list T) :
  copy_selected_kernel mapping s0 n_rows n_cols src row_ids ld_src ld_dst gid dst
  = write_step cell_guard cell_dest cell_val dst gid.
Proof.
  unfold copy_selected_kernel, write_step. destruct (n_rows <=? gid / n_cols); reflexivity.
Qed.

(** The threads past the last cell return at once. *)
Lemma copy_selected_grid (n : Z) (dst : list T) :
  0 <= n_rows -> 0 < n_cols -> n_rows * n_cols <= n ->
  launch n (copy_selected_kernel mapping s0 n_rows n_cols src row_ids ld_src ld_dst) dst
  = foldl (write_step cell_guard cell_dest cell_val) dst (seqZ 0 (n_rows * n_cols)).
Proof.
  intros Hr Hc Hn. unfold launch.
  rewrite (foldl_ext_in _ (write_step cell_guard cell_dest cell_val))
    by (intros; apply copy_selected_kernel_write_step).
  replace n with (n_rows * n_cols + (n - n_rows * n_cols)) at 1 by lia.
  rewrite seqZ_app by nia. rewrite foldl_app.
  set (m := foldl _ dst (seqZ 0 (n_rows * n_cols))).
  assert (Hnoop : forall (gs : list Z) (m : list T),
            (forall g, g ∈ gs -> n_rows * n_cols <= g) ->
            foldl (write_step cell_guard cell_dest cell_val) m gs = m).
  { induction gs as [|g gs IH]; intros m' Hgs; [reflexivity|].
    cbn [foldl]. unfold write_step at 2.
    assert (Hg : n_rows <= g / n_cols).
    { apply Z.div_le_lower_bound; [lia|]. specialize (Hgs g ltac:(left)). lia. }
    rewrite (proj2 (Z.leb_le _ _) Hg). cbn [negb].
    apply IH. intros g' Hg'. apply Hgs. right. exact Hg'. }
  apply Hnoop. intros g Hg. apply elem_of_seqZ in Hg. lia.
Qed.

(** The host loops visit the cells in the order of the threads. *)
Lemma copy_selected_host_rows (r : nat) (dst : list T) :
  0 < n_cols -> Z.of_nat r <= n_rows ->
  foldl (fun dst i_dst =>
           foldl (fun dst j =>
                    wr dst (ld_dst * i_dst + j)
                       (mapping (rd s0 src (ld_src * rd 0 row_ids i_dst + j))))
                 dst (seqZ 0 n_cols))
        dst (seqZ 0 (Z.of_nat r))
  = foldl (write_step cell_guard cell_dest cell_val) dst (seqZ 0 (Z.of_nat r * n_cols)).
Proof.
  intros Hc. induction r as [|r IH]; intros Hr; [reflexivity|].
  rewrite Nat2Z.inj_succ, <- Z.add_1_r.
  rewrite (seqZ_app 0 (Z.of_nat r) 1) by lia. rewrite foldl_app, IH by lia.
  replace ((Z.of_nat r + 1) * n_cols) with (Z.of_nat r * n_cols + n_cols) by lia.
  rewrite (seqZ_app 0 (Z.of_nat r * n_cols) n_cols) by nia. rewrite foldl_app.
  set (m := foldl _ dst (seqZ 0 (Z.of_nat r * n_cols))).
  rewrite Z.add_0_l.
  assert (Hone : seqZ (Z.of_nat r) 1 = [Z.of_nat r]) by reflexivity.
  rewrite Hone. cbn [foldl].
  replace (0 + Z.of_nat r * n_cols) with (Z.of_nat r * n_cols + 0) by lia.
  rewrite <- (fmap_add_seqZ (Z.of_nat r * n_cols) 0 n_cols), foldl_fmap.
  apply foldl_ext_in. intros j m' Hj. apply elem_of_seqZ in Hj.
  assert (Hdiv : (Z.of_nat r * n_cols + j) / n_cols = Z.of_nat r).
  { rewrite Z.div_add_l by lia. rewrite Z.div_small by lia. lia. }
  assert (Hmod : (Z.of_nat r * n_cols + j) mod n_cols = j).
  { rewrite Z.add_comm, Z.mod_add by lia. apply Z.mod_small. lia. }
  unfold write_step. rewrite Hdiv, Hmod.
  rewrite (proj2 (Z.leb_gt n_rows (Z.of_nat r))) by lia. reflexivity.
Qed.

Lemma copy_selected_host_cells (dst : list T) :
  0 <= n_rows -> 0 < n_cols ->
  copy_selected_host mapping s0 n_rows n_cols src row_ids ld_src ld_dst dst
  = foldl (write_step cell_guard cell_dest cell_val) dst (seqZ 0 (n_rows * n_cols)).
Proof.
  intros Hr Hc. unfold copy_selected_host.
  pose proof (copy_selected_host_rows (Z.to_nat n_rows) dst Hc ltac:(lia)) as H.
  rewrite Z2Nat.id in H by exact Hr. exact H.
Qed.

Lemma copy_selected_host_no_cols (dst : list T) :
  n_cols = 0 ->
  copy_selected_host mapping s0 n_rows n_cols src row_ids ld_src ld_dst dst = dst.
Proof.
  intros ->. unfold copy_selected_host. generalize (seqZ 0 n_rows). intros rows.
  induction rows as [|i rows IH]; [reflexivity|exact IH].
Qed.

(** X7: with all three pointers on one side and rows of the destination that
    do not overlap ([n_cols <= ld_dst]), [copy_selected] returns what its host
    loops compute, whichever side runs it: row [i] of the destination holds
    the mapped first [n_cols] elements of row [row_ids[i]] of the source, and
    every other cell of the destination is as it was. *)
Theorem copy_selected_rows (ptrs : list cudaMemoryType) (dst : list T) :
  check_pointer_residency ptrs <> mixed ->
  0 <= n_rows -> 0 <= n_cols <= ld_dst -> n_rows * ld_dst <= Z.of_nat (length dst) ->
  let dst' := copy_selected_host mapping s0 n_rows n_cols src row_ids ld_src ld_dst dst in
  copy_selected mapping s0 ptrs n_rows n_cols src row_ids ld_src dst ld_dst = Ok dst' /\
  length dst' = length dst /\
  (forall i j, 0 <= i < n_rows -> 0 <= j < n_cols ->
     dst' !! Z.to_nat (ld_dst * i + j)
     = Some (mapping (rd s0 src (ld_src * rd 0 row_ids i + j)))) /\
  (forall k : nat,
     (forall i j, 0 <= i < n_rows -> 0 <= j < n_cols -> ld_dst * i + j <> Z.of_nat k) ->
     dst' !! k = dst !! k).
Proof.
  intros Hptrs Hr Hc Hlen dst'.
  destruct (decide (n_cols = 0)) as [Hzero|Hpos].
  - assert (Hhost : dst' = dst) by (apply copy_selected_host_no_cols; exact Hzero).
    split.
    + unfold copy_selected. rewrite Hhost.
      destruct (check_pointer_residency ptrs); try congruence;
        first [ rewrite Hzero, Z.mul_0_r; reflexivity
              | f_equal; apply copy_selected_host_no_cols; exact Hzero ].
    + rewrite Hhost. split; [reflexivity|]. split; [intros i j Hi Hj; lia|reflexivity].
  - assert (Hc' : 0 < n_cols) by lia.
    assert (Hhost : dst' = foldl (write_step cell_guard cell_dest cell_val) dst
                             (seqZ 0 (n_rows * n_cols)))
      by (apply copy_selected_host_cells; assumption).
    assert (Hgrid : n_rows * n_cols <= ceildiv (n_rows * n_cols) 128 * 128).
    { unfold ceildiv. pose proof (Z.div_mod (n_rows * n_cols + 128 - 1) 128 ltac:(lia)).
      pose proof (Z.mod_pos_bound (n_rows * n_cols + 128 - 1) 128 ltac:(lia)). lia. }
    split.
    + unfold copy_selected.
      destruct (check_pointer_residency ptrs); try congruence;
        rewrite ?(copy_selected_grid _ dst Hr Hc' Hgrid), <- ?Hhost; reflexivity.
    + rewrite Hhost.
      assert (Hcell : forall g, g ∈ seqZ 0 (n_rows * n_cols) ->
                0 <= g / n_cols < n_rows /\ 0 <= g mod n_cols < n_cols).
      { intros g Hg. apply elem_of_seqZ in Hg.
        pose proof (Z.mod_pos_bound g n_cols Hc').
        split; [|assumption]. split; [apply Z.div_pos; lia|].
        apply Z.div_lt_upper_bound; lia. }
      destruct (foldl_write_step cell_guard cell_dest cell_val
                  (seqZ 0 (n_rows * n_cols)) (NoDup_seqZ 0 _)) with (m := dst)
        as (Hlen' & Hhit & Hmiss).
      { intros g1 g2 Hg1 Hg2 _ _ Hdest.
        destruct (Hcell g1 Hg1) as [Hi1 Hj1]. destruct (Hcell g2 Hg2) as [Hi2 Hj2].
        cbv beta in Hdest.
        assert (Hi : g1 / n_cols = g2 / n_cols) by nia.
        assert (Hj : g1 mod n_cols = g2 mod n_cols) by nia.
        rewrite (Z.div_mod g1 n_cols), (Z.div_mod g2 n_cols) by lia.
        rewrite Hi, Hj. reflexivity. }
      split; [exact Hlen'|]. split.
      * intros i j Hi Hj.
        assert (Hdiv : (i * n_cols + j) / n_cols = i).
        { rewrite Z.div_add_l by lia. rewrite Z.div_small by lia. lia. }
        assert (Hmod : (i * n_cols + j) mod n_cols = j).
        { rewrite Z.add_comm, Z.mod_add by lia. apply Z.mod_small. lia. }
        pose proof (Hhit (i * n_cols + j)) as H. cbv beta in H.
        rewrite Hdiv, Hmod in H. apply H.
        -- apply elem_of_seqZ. nia.
        -- apply negb_true_iff, Z.leb_gt. lia.
        -- nia.
      * intros k Hk. apply Hmiss. intros g Hg _.
        destruct (Hcell g Hg) as [Hi Hj]. apply Hk; assumption.
Qed.

End CopySelectedFacts.

Lemma copy_selected_rows_witness :
  let dst' := Utils.copy_selected_host (fun x : Z => x) 0 2 2 [10; 11; 12; 20; 21; 22]
                [1; 0] 3 2 [0; 0; 0; 0; 0] in
  Utils.copy_selected (fun x : Z => x) 0 device_pointers 2 2 [10; 11; 12; 20; 21; 22]
    [1; 0] 3 [0; 0; 0; 0; 0] 2 = Ok dst' /\
  length dst' = 5%nat /\
  (forall i j, 0 <= i < 2 -> 0 <= j < 2 ->
     dst' !! Z.to_nat (2 * i + j)
     = Some (rd 0 [10; 11; 12; 20; 21; 22] (3 * rd 0 [1; 0] i + j))) /\
  (forall k : nat,
     (forall i j, 0 <= i < 2 -> 0 <= j < 2 -> 2 * i + j <> Z.of_nat k) ->
     dst' !! k = [0; 0; 0; 0; 0] !! k).
Proof.
  apply (copy_selected_rows (fun x : Z => x) 0 2 2 [10; 11; 12; 20; 21; 22] [1; 0] 3 2
           device_pointers [0; 0; 0; 0; 0]).
  - discriminate.
  - lia.
  - lia.
  - simpl. lia.
Defined.

(** *** block_copy *)

Section BlockCopyFacts.
Import Utils.
Variables (in_offsets : list Z) (n_mult : Z).

Local Abbreviation start := (block_start in_offsets n_mult).

(** The search keeps [start l <= i < start r] and halves [r - l]. *)
Lemma block_copy_search_finds (fuel : nat) :
  forall (i l r : Z),
    0 <= l < r -> r < 2 ^ 31 -> r - l <= 2 ^ (Z.of_nat fuel - 1) -> (0 < fuel)%nat ->
    start l <= i < start r ->
    exists l', block_copy_search fuel in_offsets n_mult i l r (start l) = Ok (l', start l') /\
               l <= l' < r /\ start l' <= i < start (l' + 1).
Proof.
  induction fuel as [|fuel IH]; intros i l r Hlr Hr Hsize Hfuel Hi; [lia|].
  cbn [block_copy_search]. rewrite (u32_small (l + 1)) by lia.
  destruct (Z.ltb_spec (l + 1) r) as [Hlt|Hge].
  - rewrite (u32_small (l + r)) by lia. rewrite Z.shiftr_div_pow2 by lia.
    change (2 ^ 1) with 2.
    pose proof (Z.div_mod (l + r) 2 ltac:(lia)) as Hdm.
    pose proof (Z.mod_pos_bound (l + r) 2 ltac:(lia)) as Hmod.
    set (c := (l + r) / 2) in *.
    assert (Hc : l < c < r) by lia.
    assert (Hfuel' : (0 < fuel)%nat).
    { destruct fuel; [|lia]. cbn in Hsize. change (2 ^ (1 - 1)) with 1 in Hsize. lia. }
    assert (Hpow : 2 ^ (Z.of_nat (S fuel) - 1) = 2 * 2 ^ (Z.of_nat fuel - 1)).
    { replace (Z.of_nat (S fuel) - 1) with (Z.succ (Z.of_nat fuel - 1)) by lia.
      apply Z.pow_succ_r. lia. }
    fold (start c).
    destruct (Z.leb_spec (start c) i) as [Hle|Hgt].
    + destruct (IH i c r ltac:(lia) Hr ltac:(lia) Hfuel' ltac:(lia)) as (l' & Hrun & Hl' & Hi').
      exists l'. split; [exact Hrun|]. split; [lia|exact Hi'].
    + destruct (IH i l c ltac:(lia) ltac:(lia) ltac:(lia) Hfuel' ltac:(lia))
        as (l' & Hrun & Hl' & Hi').
      exists l'. split; [exact Hrun|]. split; [lia|exact Hi'].
  - exists l. split; [reflexivity|]. split; [lia|].
    replace (l + 1) with r by lia. exact Hi.
Qed.

(** X8: the binary search of [block_copy_kernel], over an offset array that
    starts at 0, ends in a block [l] that contains the element:
    [in_offsets[l] * n_mult <= i < in_offsets[l + 1] * n_mult], and returns the
    start of that block with it. *)
Theorem block_copy_search_block (fuel : nat) (n_blocks i : Z) :
  (32 <= fuel)%nat -> 0 < n_blocks < 2 ^ 31 -> rd 0 in_offsets 0 = 0 ->
  0 <= i < start n_blocks ->
  exists l, block_copy_search fuel in_offsets n_mult i 0 n_blocks 0 = Ok (l, start l) /\
            0 <= l < n_blocks /\ start l <= i < start (l + 1).
Proof.
  intros Hfuel Hn H0 Hi.
  assert (Hstart0 : start 0 = 0) by (unfold block_start; rewrite H0; reflexivity).
  assert (Hpow : 2 ^ 31 <= 2 ^ (Z.of_nat fuel - 1)) by (apply Z.pow_le_mono_r; lia).
  destruct (block_copy_search_finds fuel i 0 n_blocks ltac:(lia) ltac:(lia) ltac:(lia)
              ltac:(lia) ltac:(lia)) as (l & Hrun & Hl & Hblock).
  rewrite Hstart0 in Hrun. exists l. split; [exact Hrun|]. split; [lia|exact Hblock].
Qed.

End BlockCopyFacts.

Lemma block_copy_search_block_witness :
  exists l, Utils.block_copy_search 32 [0; 2; 2; 5] 3 7 0 3 0
            = Ok (l, block_start [0; 2; 2; 5] 3 l) /\
            0 <= l < 3 /\
            block_start [0; 2; 2; 5] 3 l <= 7 < block_start [0; 2; 2; 5] 3 (l + 1).
Proof.
  apply (block_copy_search_block [0; 2; 2; 5] 3 32 3 7).
  - lia.
  - lia.
  - reflexivity.
  - vm_compute. split; [discriminate|reflexivity].
Defined.

Section BlockCopyKernelFacts.
Import Utils.
Context {A : Type} (a0 : A).
Variables (fuel : nat) (in_offsets out_offsets : list Z) (n_blocks n_mult : Z).
Hypothesis Hfuel : (32 <= fuel)%nat.
Hypothesis Hblocks : 0 < n_blocks < 2 ^ 31.
Hypothesis Hmult : 0 < n_mult.
Hypothesis Hfirst : rd 0 in_offsets 0 = 0.
Hypothesis Hin : forall k, 0 <= k < n_blocks -> rd 0 in_offsets k <= rd 0 in_offsets (k + 1).
Hypothesis Hout0 : 0 <= rd 0 out_offsets 0.
Hypothesis Hout : forall k, 0 <= k -> k + 1 < n_blocks ->
  rd 0 out_offsets k + (rd 0 in_offsets (k + 1) - rd 0 in_offsets k)
  <= rd 0 out_offsets (k + 1).

Local Abbreviation start := (block_start in_offsets n_mult).
Local Abbreviation block_of := (found_block fuel in_offsets n_blocks n_mult).
Local Abbreviation cell_guard := (fun i : Z => negb (start n_blocks <=? i)).
Local Abbreviation cell_dest :=
  (fun i : Z => rd 0 out_offsets (block_of i) * n_mult - start (block_of i) + i).

Lemma in_offsets_mono (x y : Z) :
  0 <= x <= y -> y <= n_blocks -> rd 0 in_offsets x <= rd 0 in_offsets y.
Proof.
  intros Hx Hy. replace y with (x + Z.of_nat (Z.to_nat (y - x))) in * by lia.
  induction (Z.to_nat (y - x)) as [|d IH]; [rewrite Z.add_0_r; lia|].
  rewrite Nat2Z.inj_succ in *.
  specialize (IH ltac:(lia) ltac:(lia)).
  pose proof (Hin (x + Z.of_nat d) ltac:(lia)) as Hstep.
  replace (x + Z.succ (Z.of_nat d)) with (x + Z.of_nat d + 1) by lia. lia.
Qed.

Lemma out_offsets_mono (x y : Z) :
  0 <= x < y -> y < n_blocks ->
  rd 0 out_offsets x + (rd 0 in_offsets (x + 1) - rd 0 in_offsets x) <= rd 0 out_offsets y.
Proof.
  intros Hx Hy. replace y with (x + 1 + Z.of_nat (Z.to_nat (y - x - 1))) in * by lia.
  induction (Z.to_nat (y - x - 1)) as [|d IH].
  - rewrite Z.add_0_r in *. apply Hout; lia.
  - rewrite Nat2Z.inj_succ in *. specialize (IH ltac:(lia) ltac:(lia)).
    pose proof (Hout (x + 1 + Z.of_nat d) ltac:(lia) ltac:(lia)) as Hstep.
    pose proof (Hin (x + 1 + Z.of_nat d) ltac:(lia)) as Hlen.
    replace (x + 1 + Z.succ (Z.of_nat d)) with (x + 1 + Z.of_nat d + 1) by lia. lia.
Qed.

Lemma start_mono (x y : Z) : 0 <= x <= y -> y <= n_blocks -> start x <= start y.
Proof.
  intros Hx Hy. unfold block_start. pose proof (in_offsets_mono x y Hx Hy). nia.
Qed.

(** With sorted offsets an element is in one block only. *)
Lemma block_unique (i k l : Z) :
  0 <= k < n_blocks -> 0 <= l < n_blocks ->
  start k <= i < start (k + 1) -> start l <= i < start (l + 1) -> k = l.
Proof.
  intros Hk Hl Hik Hil.
  destruct (Z.lt_trichotomy k l) as [Hlt|[Heq|Hgt]]; [|exact Heq|].
  - pose proof (start_mono (k + 1) l ltac:(lia) ltac:(lia)). lia.
  - pose proof (start_mono (l + 1) k ltac:(lia) ltac:(lia)). lia.
Qed.

Lemma block_of_spec (i : Z) :
  0 <= i < start n_blocks ->
  block_copy_search fuel in_offsets n_mult i 0 n_blocks 0
  = Ok (block_of i, start (block_of i)) /\
  0 <= block_of i < n_blocks /\ start (block_of i) <= i < start (block_of i + 1).
Proof.
  intros Hi.
  assert (Hstart0 : start 0 = 0) by (unfold block_start; rewrite Hfirst; reflexivity).
  assert (Hpow : 2 ^ 31 <= 2 ^ (Z.of_nat fuel - 1)) by (apply Z.pow_le_mono_r; lia).
  destruct (block_copy_search_finds in_offsets n_mult fuel i 0 n_blocks ltac:(lia)
              ltac:(lia) ltac:(lia) ltac:(lia) ltac:(lia)) as (l & Hrun & Hl & Hblock).
  rewrite Hstart0 in Hrun.
  assert (Hof : block_of i = l) by (unfold found_block; rewrite Hrun; reflexivity).
  rewrite Hof. split; [exact Hrun|]. split; [exact Hl|exact Hblock].
Qed.

Lemma block_copy_kernel_write_step (in_data : list A) (i : Z) (m : list A) :
  0 <= i ->
  block_copy_kernel a0 fuel in_offsets out_offsets n_blocks in_data n_mult i (Ok m)
  = Ok (write_step cell_guard cell_dest (fun i => rd a0 in_data i) m i).
Proof.
  intros Hi. unfold block_copy_kernel, write_step. cbn [bind].
  fold (start n_blocks).
  destruct (Z.leb_spec (start n_blocks) i) as [Hout'|Hin']; [reflexivity|].
  destruct (block_of_spec i ltac:(lia)) as (-> & _). reflexivity.
Qed.

Lemma launch_ok {M X : Type} (thread : X -> result M -> result M) (step : M -> X -> M)
    (gs : list X) (m : M) :
  (forall g m, g ∈ gs -> thread g (Ok m) = Ok (step m g)) ->
  foldl (fun m g => thread g m) (Ok m) gs = Ok (foldl step m gs).
Proof.
  revert m. induction gs as [|g gs IH]; intros m H; [reflexivity|].
  cbn [foldl]. rewrite (H g m) by left. apply IH.
  intros g' m' Hg'. apply H. right. exact Hg'.
Qed.

(** X9: for sorted offsets that start at 0 and output blocks in the same
    order that do not overlap, [block_copy] returns, and block [k] of the
    input, scaled by [n_mult], is found in the output from
    [out_offsets[k] * n_mult] on; the cells outside these blocks are as they
    were. *)
Theorem block_copy_blocks (in_data out_data : list A) :
  (rd 0 out_offsets (n_blocks - 1)
   + (rd 0 in_offsets n_blocks - rd 0 in_offsets (n_blocks - 1))) * n_mult
  <= Z.of_nat (length out_data) ->
  exists out',
    block_copy a0 fuel in_offsets out_offsets n_blocks in_data out_data n_mult = Ok out' /\
    length out' = length out_data /\
    (forall k t, 0 <= k < n_blocks ->
       0 <= t < (rd 0 in_offsets (k + 1) - rd 0 in_offsets k) * n_mult ->
       out' !! Z.to_nat (rd 0 out_offsets k * n_mult + t)
       = Some (rd a0 in_data (rd 0 in_offsets k * n_mult + t))) /\
    (forall c : nat,
       (forall k t, 0 <= k < n_blocks ->
          0 <= t < (rd 0 in_offsets (k + 1) - rd 0 in_offsets k) * n_mult ->
          rd 0 out_offsets k * n_mult + t <> Z.of_nat c) ->
       out' !! c = out_data !! c).
Proof.
  intros Hfit. unfold block_copy, launch.
  set (n := ceildiv (rd 0 in_offsets n_blocks * n_mult) 128 * 128).
  assert (Hn : start n_blocks <= n).
  { unfold n, ceildiv, block_start.
    pose proof (Z.div_mod (rd 0 in_offsets n_blocks * n_mult + 128 - 1) 128 ltac:(lia)).
    pose proof (Z.mod_pos_bound (rd 0 in_offsets n_blocks * n_mult + 128 - 1) 128
                  ltac:(lia)). lia. }
  rewrite (launch_ok _ (write_step cell_guard cell_dest (fun i => rd a0 in_data i))).
  2:{ intros g m Hg. apply elem_of_seqZ in Hg.
      apply block_copy_kernel_write_step. lia. }
  assert (Hcell : forall i, i ∈ seqZ 0 n -> cell_guard i = true ->
            0 <= block_of i < n_blocks /\
            start (block_of i) <= i < start (block_of i + 1)).
  { intros i Hi Hguard. apply elem_of_seqZ in Hi.
    apply negb_true_iff, Z.leb_gt in Hguard.
    destruct (block_of_spec i ltac:(lia)) as (_ & Hl & Hblock). split; assumption. }
  assert (Hout_nonneg : forall k, 0 <= k < n_blocks -> 0 <= rd 0 out_offsets k).
  { intros k Hk. destruct (decide (k = 0)) as [->|Hne]; [exact Hout0|].
    pose proof (out_offsets_mono 0 k ltac:(lia) ltac:(lia)).
    pose proof (Hin 0 ltac:(lia)). lia. }
  assert (Hlast : forall k, 0 <= k < n_blocks ->
            (rd 0 out_offsets k + (rd 0 in_offsets (k + 1) - rd 0 in_offsets k)) * n_mult
            <= Z.of_nat (length out_data)).
  { intros k Hk. destruct (decide (k = n_blocks - 1)) as [->|Hne].
    - replace (n_blocks - 1 + 1) with n_blocks by lia. exact Hfit.
    - pose proof (out_offsets_mono k (n_blocks - 1) ltac:(lia) ltac:(lia)).
      pose proof (Hin (n_blocks - 1) ltac:(lia)) as Hl.
      replace (n_blocks - 1 + 1) with n_blocks in Hl by lia. nia. }
  destruct (foldl_write_step cell_guard cell_dest (fun i => rd a0 in_data i)
              (seqZ 0 n) (NoDup_seqZ 0 n)) with (m := out_data)
    as (Hlen & Hhit & Hmiss).
  { intros i1 i2 Hi1 Hi2 Hg1 Hg2 Hdest. cbv beta in Hdest.
    destruct (Hcell i1 Hi1 Hg1) as [Hl1 Hb1]. destruct (Hcell i2 Hi2 Hg2) as [Hl2 Hb2].
    unfold block_start in *.
    destruct (Z.lt_trichotomy (block_of i1) (block_of i2)) as [Hlt|[Heq|Hgt]].
    - pose proof (out_offsets_mono (block_of i1) (block_of i2) ltac:(lia) ltac:(lia)). nia.
    - rewrite Heq in Hdest. lia.
    - pose proof (out_offsets_mono (block_of i2) (block_of i1) ltac:(lia) ltac:(lia)). nia. }
  eexists. split; [reflexivity|]. split; [exact Hlen|]. split.
  - intros k t Hk Ht.
    set (i := rd 0 in_offsets k * n_mult + t).
    assert (Hi_block : start k <= i < start (k + 1)) by (unfold block_start, i; nia).
    assert (Hi_end : i < start n_blocks).
    { pose proof (start_mono (k + 1) n_blocks ltac:(lia) ltac:(lia)). lia. }
    assert (Hi0 : 0 <= i).
    { pose proof (start_mono 0 k ltac:(lia) ltac:(lia)) as H0.
      unfold block_start in H0 at 1. rewrite Hfirst in H0. lia. }
    destruct (block_of_spec i ltac:(lia)) as (_ & Hl & Hblock).
    assert (Hof : block_of i = k) by (symmetry; eapply block_unique; eassumption).
    pose proof (Hhit i) as H. cbv beta in H. rewrite Hof in H.
    replace (rd 0 out_offsets k * n_mult - start k + i)
      with (rd 0 out_offsets k * n_mult + t) in H by (unfold block_start, i; lia).
    apply H.
    + apply elem_of_seqZ. lia.
    + apply negb_true_iff, Z.leb_gt. exact Hi_end.
    + pose proof (Hout_nonneg k Hk). pose proof (Hlast k Hk). nia.
  - intros c Hc. apply Hmiss. intros i Hi Hguard.
    destruct (Hcell i Hi Hguard) as [Hl Hblock]. cbv beta.
    replace (rd 0 out_offsets (block_of i) * n_mult - start (block_of i) + i)
      with (rd 0 out_offsets (block_of i) * n_mult + (i - start (block_of i))) by lia.
    apply Hc; [exact Hl|]. unfold block_start in *. nia.
Qed.

End BlockCopyKernelFacts.

Lemma block_copy_blocks_witness :
  exists out',
    Utils.block_copy 0 32 [0; 2; 3] [1; 4] 2 [10; 11; 12; 13; 14; 15] (replicate 10 0) 2
    = Ok out' /\
    length out' = 10%nat /\
    (forall k t, 0 <= k < 2 ->
       0 <= t < (rd 0 [0; 2; 3] (k + 1) - rd 0 [0; 2; 3] k) * 2 ->
       out' !! Z.to_nat (rd 0 [1; 4] k * 2 + t)
       = Some (rd 0 [10; 11; 12; 13; 14; 15] (rd 0 [0; 2; 3] k * 2 + t))) /\
    (forall c : nat,
       (forall k t, 0 <= k < 2 ->
          0 <= t < (rd 0 [0; 2; 3] (k + 1) - rd 0 [0; 2; 3] k) * 2 ->
          rd 0 [1; 4] k * 2 + t <> Z.of_nat c) ->
       out' !! c = replicate 10 0 !! c).
Proof.
  apply (block_copy_blocks 0 32 [0; 2; 3] [1; 4] 2 2).
  - lia.
  - lia.
  - lia.
  - reflexivity.
  - intros k Hk. assert (k = 0 \/ k = 1) as [-> | ->] by lia; vm_compute; discriminate.
  - vm_compute. discriminate.
  - intros k Hk Hk'. assert (k = 0) as -> by lia. vm_compute. discriminate.
  - vm_compute. discriminate.
Defined.

(** *** calc_minibatch_size *)

Section MinibatchFacts.
Import Kmeans.

Lemma calc_minibatch_size_positive (is_float : bool) (n_clusters n_rows dim : Z)
    (metric : DistanceType) :
  0 <= dim -> 0 < n_rows -> mem_per_row is_float n_clusters dim metric <= 2 ^ 30 ->
  0 < calc_minibatch_size is_float n_clusters n_rows dim metric.
Proof.
  intros Hdim Hrows Hmem.
  set (mem := mem_per_row is_float n_clusters dim metric) in *.
  assert (Hmb : calc_minibatch_size is_float n_clusters n_rows dim metric
                = Z.min (64 * ((2 ^ 30 / mem + 64 - 1) / 64)) n_rows).
  { unfold mem, calc_minibatch_size, mem_per_row, ceildiv.
    destruct (is_L2 metric), is_float; cbn [negb];
      rewrite ?Z.add_0_l, ?Z.add_0_r; reflexivity. }
  assert (Hpos : 0 < mem).
  { unfold mem, mem_per_row. destruct (is_L2 metric), is_float; lia. }
  assert (Hq : 1 <= 2 ^ 30 / mem) by (apply Z.div_le_lower_bound; lia).
  assert (Hc : 1 <= (2 ^ 30 / mem + 64 - 1) / 64) by (apply Z.div_le_lower_bound; lia).
  lia.
Qed.

(** X10: when one row needs at most [2 ^ 30] bytes, the suggested minibatch
    size is positive for a dataset that is not empty and never above
    [n_rows]; and the memory of the whole minibatch overshoots [2 ^ 30] bytes
    by less than 64 rows; a minibatch smaller than the dataset is a multiple
    of 64 rows that leaves less than one row of the [2 ^ 30] bytes unused. *)
Theorem calc_minibatch_size_bounds (is_float : bool) (n_clusters n_rows dim : Z)
    (metric : DistanceType) :
  let mem := mem_per_row is_float n_clusters dim metric in
  let mb := calc_minibatch_size is_float n_clusters n_rows dim metric in
  0 <= dim -> 0 <= n_rows -> mem <= 2 ^ 30 ->
  0 <= mb <= n_rows /\
  (0 < n_rows -> 0 < mb) /\
  mb * mem < 2 ^ 30 + 64 * mem /\
  (mb < n_rows -> mb mod 64 = 0 /\ 2 ^ 30 - mem < mb * mem).
Proof.
  intros mem mb Hdim Hrows Hmem.
  assert (Hmb : mb = Z.min (64 * ((2 ^ 30 / mem + 64 - 1) / 64)) n_rows).
  { unfold mb, mem, calc_minibatch_size, mem_per_row, ceildiv.
    destruct (is_L2 metric), is_float; cbn [negb];
      rewrite ?Z.add_0_l, ?Z.add_0_r; reflexivity. }
  assert (Hpos : 0 < mem).
  { unfold mem, mem_per_row. destruct (is_L2 metric), is_float; lia. }
  pose proof (Z.div_mod (2 ^ 30) mem ltac:(lia)) as Hq.
  pose proof (Z.mod_pos_bound (2 ^ 30) mem Hpos) as Hqr.
  set (q := 2 ^ 30 / mem) in *.
  pose proof (Z.div_mod (q + 64 - 1) 64 ltac:(lia)) as Hc.
  pose proof (Z.mod_pos_bound (q + 64 - 1) 64 ltac:(lia)) as Hcr.
  set (c := (q + 64 - 1) / 64) in *.
  assert (Hq1 : 1 <= q) by (apply Z.div_le_lower_bound; lia).
  assert (Hround : q <= 64 * c < q + 64) by lia.
  split; [lia|]. split; [lia|]. split.
  - assert (mb <= 64 * c) by lia. nia.
  - intros Hlt. assert (Hmb' : mb = 64 * c) by lia. split.
    + rewrite Hmb', Z.mul_comm. apply Z.mod_mul. lia.
    + nia.
Qed.

Lemma calc_minibatch_size_bounds_witness :
  let mem := mem_per_row false 1000 128 InnerProduct in
  let mb := calc_minibatch_size false 1000 1000000 128 InnerProduct in
  0 <= mb <= 1000000 /\
  (0 < 1000000 -> 0 < mb) /\
  mb * mem < 2 ^ 30 + 64 * mem /\
  (mb < 1000000 -> mb mod 64 = 0 /\ 2 ^ 30 - mem < mb * mem).
Proof.
  apply (calc_minibatch_size_bounds false 1000 1000000 128 InnerProduct).
  - lia.
  - lia.
  - vm_compute. discriminate.
Defined.

End MinibatchFacts.

(** *** argmin_along_rows: rows with nothing to select *)

Section ArgminSentinel.
Import Utils.
Context {F : Type} {FO : FloatOps F} {FL : FloatLimits F}.
Variables (n_cols : nat) (row : list F).
Hypothesis Hbound : f_lt (upper_bound : F) upper_bound = false.
Hypothesis Hrow : forall j, (j < n_cols)%nat ->
  f_lt (default f_zero (row !! j)) upper_bound = false.

Lemma argmin_thread_sentinel (fuel j step : nat) :
  strided_loop fuel j step n_cols (argmin_scan row) (upper_bound, n_cols)
  = (upper_bound, n_cols).
Proof.
  revert j. induction fuel as [|fuel IH]; intros j; [reflexivity|].
  cbn [strided_loop]. destruct (Nat.ltb_spec j n_cols) as [Hj|Hj]; [|reflexivity].
  unfold argmin_scan at 2. cbn [fst]. rewrite (Hrow j Hj). apply IH.
Qed.

Lemma argmin_merge_sentinel :
  argmin_merge (upper_bound, n_cols) (upper_bound, n_cols) = ((upper_bound : F), n_cols).
Proof.
  unfold argmin_merge. cbn [fst snd]. rewrite Hbound, Nat.ltb_irrefl. reflexivity.
Qed.

Lemma argmin_round_sentinel (offset : nat) (shm : list (F * nat)) :
  Forall (eq (upper_bound, n_cols)) shm ->
  Forall (eq (upper_bound, n_cols)) (argmin_round offset shm).
Proof.
  intros Hshm. apply Forall_lookup_2. intros tx p Hp.
  unfold argmin_round in Hp. rewrite list_lookup_imap in Hp.
  destruct (shm !! tx) as [p0|] eqn:Hp0; [|discriminate Hp].
  cbn [fmap option_fmap option_map] in Hp. injection Hp as <-.
  pose proof (Forall_lookup_1 _ _ _ _ Hshm Hp0) as <-.
  destruct (tx <? offset)%nat; [|reflexivity].
  destruct (shm !! (tx + offset)%nat) as [q|] eqn:Hq; [|reflexivity].
  pose proof (Forall_lookup_1 _ _ _ _ Hshm Hq) as <-.
  symmetry. apply argmin_merge_sentinel.
Qed.

Lemma argmin_reduce_sentinel (fuel offset : nat) (shm : list (F * nat)) :
  Forall (eq (upper_bound, n_cols)) shm ->
  Forall (eq (upper_bound, n_cols)) (argmin_reduce fuel offset shm).
Proof.
  revert offset shm. induction fuel as [|fuel IH]; intros offset shm Hshm; [exact Hshm|].
  cbn [argmin_reduce]. destruct (0 <? offset)%nat; [|exact Hshm].
  apply IH, argmin_round_sentinel, Hshm.
Qed.

Lemma length_argmin_reduce (fuel offset : nat) (shm : list (F * nat)) :
  length (argmin_reduce fuel offset shm) = length shm.
Proof.
  revert offset shm. induction fuel as [|fuel IH]; intros offset shm; [reflexivity|].
  cbn [argmin_reduce]. destruct (0 <? offset)%nat; [|reflexivity].
  rewrite IH. unfold argmin_round. apply length_imap.
Qed.

Lemma argmin_along_rows_kernel_sentinel (block_dim : nat) :
  (0 < block_dim)%nat ->
  argmin_along_rows_kernel n_cols block_dim row = n_cols.
Proof.
  intros Hblock. unfold argmin_along_rows_kernel.
  set (shm := argmin_thread n_cols block_dim row <$> seq 0 block_dim).
  assert (Hshm : Forall (eq (upper_bound, n_cols)) shm).
  { apply Forall_fmap, Forall_forall. intros tx _. cbn. symmetry.
    apply argmin_thread_sentinel. }
  pose proof (argmin_reduce_sentinel block_dim (block_dim / 2) shm Hshm) as Hfinal.
  pose proof (length_argmin_reduce block_dim (block_dim / 2) shm) as Hlen.
  unfold shm in Hlen at 2. rewrite length_fmap, length_seq in Hlen.
  destruct (argmin_reduce block_dim (block_dim / 2) shm) as [|p rest];
    [cbn in Hlen; lia|].
  apply Forall_cons_1 in Hfinal as [<- _]. reflexivity.
Qed.

End ArgminSentinel.

Section ArgminSentinelRows.
Import Utils.
Context {F : Type} {FO : FloatOps F} {FL : FloatLimits F}.

(** X11: a row of the distance matrix in which no value is below the
    initial minimum (a row of NaN or of [upper_bound]) gets the label
    [n_cols], the number of columns, which is no column. *)
Theorem argmin_along_rows_sentinel (n_cols : nat) (a : list (list F)) (i : nat)
    (row : list F) :
  f_lt (upper_bound : F) upper_bound = false ->
  a !! i = Some row ->
  (forall j, (j < n_cols)%nat -> f_lt (default f_zero (row !! j)) upper_bound = false) ->
  argmin_along_rows n_cols a !! i = Some (Z.of_nat n_cols).
Proof.
  intros Hbound Hi Hrow. unfold argmin_along_rows.
  rewrite list_lookup_fmap, Hi. cbn [fmap option_fmap option_map]. do 2 f_equal.
  apply argmin_along_rows_kernel_sentinel; try assumption.
  unfold argmin_block_dim. lia.
Qed.

End ArgminSentinelRows.

Lemma argmin_along_rows_sentinel_witness :
  Utils.argmin_along_rows (F := spec_float) 2
    [[Binary32.of_Z 1; Binary32.of_Z 0]; [S754_nan; S754_infinity false]] !! 1%nat
  = Some 2.
Proof.
  apply (argmin_along_rows_sentinel (F := spec_float) 2 _ 1 [S754_nan; S754_infinity false]).
  - reflexivity.
  - reflexivity.
  - intros j Hj. destruct j as [|[|j]]; [reflexivity|reflexivity|lia].
Defined.

(** *** normalize_rows: a second pass *)

Section NormalizeTwice.
Import Utils.
Local Open Scope R_scope.

(** X12: in exact arithmetic normalizing a row twice gives what normalizing
    it once gives: the row has norm 1 after the first pass, or was skipped
    and is skipped again. *)
Theorem normalize_rows_kernel_idempotent (row : list R) :
  normalize_rows_kernel (length row) (normalize_rows_kernel (length row) row)
  = normalize_rows_kernel (length row) row.
Proof.
  destruct (Rle_dec (squared_norm row) (/ 100000000)) as [Hsmall|Hbig].
  - assert (Hskip : normalize_rows_kernel (length row) row = row).
    { rewrite normalize_rows_kernel_real, bool_decide_eq_true_2 by exact Hsmall.
      reflexivity. }
    rewrite Hskip. exact Hskip.
  - assert (Hlt : / 100000000 < squared_norm row) by lra.
    pose proof (normalize_rows_kernel_unit row Hlt) as Hunit.
    set (row' := normalize_rows_kernel (length row) row) in *.
    assert (Hlen : length row' = length row).
    { unfold row'. rewrite normalize_rows_kernel_real, bool_decide_eq_false_2 by exact Hbig.
      apply length_fmap. }
    rewrite <- Hlen, normalize_rows_kernel_real, Hunit.
    rewrite bool_decide_eq_false_2 by lra.
    rewrite sqrt_1, Rinv_1.
    rewrite <- (list_fmap_id row') at 2. apply list_fmap_ext.
    intros j v _. cbn. lra.
Qed.

End NormalizeTwice.

(** *** adjust_centers: the stride *)

Section StrideFacts.
Import Kmeans.
Context {F : Type} {FO : FloatOps F} {T : Type} (mapping : T -> F).

Lemma choose_ofst_never (n_rows : Z) :
  Forall (fun p => n_rows mod p = 0) kPrimes ->
  forall (fuel : nat) (i_primes : Z), choose_ofst fuel i_primes n_rows = OutOfFuel.
Proof.
  intros Hall. induction fuel as [|fuel IH]; intros i_primes; [reflexivity|].
  cbn [choose_ofst]. change (Z.of_nat (length kPrimes)) with 40.
  pose proof (Z.mod_pos_bound (i_primes + 1) 40 ltac:(lia)) as Hi.
  pose proof (rd_kPrimes_elem _ Hi) as Hp.
  rewrite (Forall_elem _ _ _ Hall Hp). cbn [Z.eqb]. apply IH.
Qed.

(** X13: when every prime of the table divides [n_rows] (as for
    [n_rows = 0]) and there is a cluster, the loop that chooses the stride
    never ends: [adjust_centers] does not return, however long it is run. *)
Theorem adjust_centers_no_stride (fuel : nat) (static : adjust_static)
    (ptrs : list Utils.cudaMemoryType) (centers : list (list F)) (K dim : nat)
    (dataset : list (list T)) (n_rows : Z) (labels sizes : list Z) (threshold : F) :
  (0 < K)%nat -> Forall (fun p => n_rows mod p = 0) kPrimes ->
  adjust_centers mapping fuel static ptrs centers K dim dataset n_rows labels sizes
    threshold = OutOfFuel.
Proof.
  intros HK Hall. unfold adjust_centers.
  replace (K =? 0)%nat with false by (symmetry; apply Nat.eqb_neq; lia).
  rewrite (choose_ofst_never n_rows Hall). reflexivity.
Qed.

End StrideFacts.

Lemma adjust_centers_no_stride_witness :
  Kmeans.adjust_centers (F := spec_float) Mapping.of_float 1000 (Kmeans.mk_static 0 0)
    host_pointers [[Binary32.of_Z 1]] 1 1 [] 0 [] [0] (f_div f_one (f_of_Z 4))
  = OutOfFuel.
Proof.
  apply (adjust_centers_no_stride (F := spec_float) Mapping.of_float 1000).
  - lia.
  - repeat constructor.
Defined.

(** *** arrange_fine_clusters: the sums, the maxima and the checks *)

Section TallyFacts.
Import Arrange.

Lemma tally_init K N sizes : tally (length sizes) sizes 0 (init K (length sizes) N sizes).
Proof.
  constructor; cbn [init fine_clusters_nums fine_clusters_csum mesocluster_size_sum
                    mesocluster_size_max fine_clusters_nums_max take].
  - apply length_replicate.
  - apply length_replicate.
  - reflexivity.
  - intros s Hs. inversion Hs.
  - left. reflexivity.
  - intros m Hm. inversion Hm.
  - left. reflexivity.
  - intros i Hi. assert (i = 0%nat) as -> by lia. reflexivity.
Qed.

Lemma tally_step sizes k st :
  (k < length sizes)%nat ->
  tally (length sizes) sizes k st ->
  tally (length sizes) sizes (S k) (body (Z.of_nat (length sizes)) sizes st (Z.of_nat k)).
Proof.
  intros Hk [Hln Hlc Hsum Hsmax Hsatt Hnmax Hnatt Hcsum].
  destruct (lookup_lt_is_Some_2 sizes k Hk) as [size Hsize].
  unfold body. rewrite (rd_lookup 0 sizes k size Hsize).
  set (pair := if Z.of_nat k <? u32 (Z.of_nat (length sizes) - 1)
               then if size =? 0 then (0, n_nonempty_ms_rem st)
                    else (Z.max (Z.min (proportional_share (n_lists_rem st) size
                                          (n_rows_rem st))
                                   (u32 (n_lists_rem st - u32 (n_nonempty_ms_rem st - 1))))
                                1,
                          u32 (n_nonempty_ms_rem st - 1))
               else (n_lists_rem st, n_nonempty_ms_rem st)).
  destruct pair as [num nonempty].
  rewrite !wr_nat. replace (Z.of_nat k + 1) with (Z.of_nat (S k)) by lia. rewrite wr_nat.
  assert (Htake : take (S k) (<[k := num]> (fine_clusters_nums st))
                  = take k (fine_clusters_nums st) ++ [num]).
  { rewrite (take_S_r _ _ num) by (apply list_lookup_insert_eq; lia).
    rewrite take_insert_ge by lia. reflexivity. }
  constructor; cbn [fine_clusters_nums fine_clusters_csum mesocluster_size_sum
                    mesocluster_size_max fine_clusters_nums_max].
  - rewrite length_insert. exact Hln.
  - rewrite length_insert. exact Hlc.
  - rewrite (take_S_r _ _ _ Hsize), zsum_app, zsum_cons. change (zsum []) with 0. lia.
  - intros s Hs. rewrite (take_S_r _ _ _ Hsize) in Hs.
    apply elem_of_app in Hs as [Hs|Hs].
    + specialize (Hsmax s Hs). lia.
    + apply list_elem_of_singleton in Hs as ->. lia.
  - rewrite (take_S_r _ _ _ Hsize).
    destruct (Z.max_spec (mesocluster_size_max st) size) as [[_ ->]|[_ ->]].
    + right. apply elem_of_app. right. left.
    + destruct Hsatt as [H0|Hin]; [left; exact H0|right; apply elem_of_app; left; exact Hin].
  - rewrite Htake. intros m Hm. apply elem_of_app in Hm as [Hm|Hm].
    + specialize (Hnmax m Hm). lia.
    + apply list_elem_of_singleton in Hm as ->. lia.
  - rewrite Htake.
    destruct (Z.max_spec (fine_clusters_nums_max st) num) as [[_ ->]|[_ ->]].
    + right. apply elem_of_app. right. left.
    + destruct Hnatt as [H0|Hin]; [left; exact H0|right; apply elem_of_app; left; exact Hin].
  - intros i Hi. destruct (decide (i = S k)) as [->|Hne].
    + rewrite list_lookup_insert_eq by lia. rewrite Htake, zsum_app, zsum_cons.
      change (zsum []) with 0. rewrite Z.add_0_r.
      rewrite (rd_lookup 0 _ k _ (Hcsum k ltac:(lia))).
      f_equal. unfold u32. rewrite Zplus_mod_idemp_l. reflexivity.
    + rewrite list_lookup_insert_ne by lia. rewrite take_insert_ge by lia.
      apply Hcsum. lia.
Qed.

Lemma tally_loop K N sizes k :
  (k <= length sizes)%nat ->
  tally (length sizes) sizes k (loop K (length sizes) N sizes k).
Proof.
  induction k as [|k IH]; intros Hk; [apply tally_init|].
  rewrite loop_S. apply tally_step; [lia|]. apply IH. lia.
Qed.

(** X14: [arrange_fine_clusters] checks the sizes first: it fails with the
    message that the mesocluster sizes do not add up exactly when they do not
    add up to [n_rows]; whenever it returns they do, and the last entry of the
    running sums is the requested number of clusters. *)
Theorem arrange_fine_clusters_checks (K N : Z) (sizes : list Z) :
  let r := arrange_fine_clusters K (length sizes) N sizes in
  (r = Fail (mesocluster_sizes_mismatch (zsum sizes) N) <-> zsum sizes <> N) /\
  (forall size_max nums_max nums csum,
     r = Ok (size_max, nums_max, nums, csum) ->
     zsum sizes = N /\ csum !! length sizes = Some K).
Proof.
  intros r. unfold r, arrange_fine_clusters.
  destruct (tally_loop K N sizes (length sizes) ltac:(lia))
    as [_ Hlc Hsum _ _ _ _ Hcsum].
  rewrite firstn_all in Hsum. rewrite Hsum.
  destruct (Z.eqb_spec (zsum sizes) N) as [Heq|Hne]; cbn [negb].
  - split.
    + split; [|intros H; contradiction].
      destruct (negb _); intros H; discriminate H.
    + intros size_max nums_max nums csum.
      destruct (Z.eqb_spec
                  (rd 0 (fine_clusters_csum (loop K (length sizes) N sizes (length sizes)))
                      (Z.of_nat (length sizes))) K) as [Hlast|Hlast];
        cbn [negb]; [|discriminate].
      intros H. injection H as _ _ _ <-. split; [exact Heq|].
      specialize (Hcsum (length sizes) ltac:(lia)).
      rewrite (rd_lookup 0 _ _ _ Hcsum) in Hlast. rewrite Hcsum, Hlast. reflexivity.
  - split; [split; [intros _; exact Hne|reflexivity]|].
    intros size_max nums_max nums csum H. discriminate H.
Qed.

(** X15: what [arrange_fine_clusters] returns with the counts: no mesocluster
    is larger than [mesocluster_size_max] and none has more fine clusters than
    [fine_clusters_nums_max], each maximum being attained unless it is 0; and
    entry [i] of the running sums is the sum of the first [i] counts, in
    [uint32_t] arithmetic. *)
Theorem arrange_fine_clusters_maxima (K N : Z) (sizes : list Z)
    (size_max nums_max : Z) (nums csum : list Z) :
  arrange_fine_clusters K (length sizes) N sizes = Ok (size_max, nums_max, nums, csum) ->
  length nums = length sizes /\ length csum = S (length sizes) /\
  (forall s, s ∈ sizes -> s <= size_max) /\ (size_max = 0 \/ size_max ∈ sizes) /\
  (forall m, m ∈ nums -> m <= nums_max) /\ (nums_max = 0 \/ nums_max ∈ nums) /\
  (forall i, (i <= length sizes)%nat -> csum !! i = Some (u32 (zsum (take i nums)))).
Proof.
  unfold arrange_fine_clusters.
  destruct (tally_loop K N sizes (length sizes) ltac:(lia))
    as [Hln Hlc _ Hsmax Hsatt Hnmax Hnatt Hcsum].
  rewrite firstn_all in Hsmax, Hsatt.
  rewrite (take_ge (fine_clusters_nums _) (length sizes)) in Hnmax, Hnatt by lia.
  destruct (negb _); [discriminate|]. destruct (negb _); [discriminate|].
  intros H. injection H as <- <- <- <-.
  repeat split; assumption.
Qed.

End TallyFacts.

Lemma arrange_fine_clusters_maxima_witness :
  length [2; 0; 2; 0] = length [5; 0; 5; 0] /\ length [0; 2; 2; 4; 4] = 5%nat /\
  (forall s, s ∈ [5; 0; 5; 0] -> s <= 5) /\ (5 = 0 \/ 5 ∈ [5; 0; 5; 0]) /\
  (forall m, m ∈ [2; 0; 2; 0] -> m <= 2) /\ (2 = 0 \/ 2 ∈ [2; 0; 2; 0]) /\
  (forall i, (i <= length [5; 0; 5; 0])%nat ->
     [0; 2; 2; 4; 4] !! i = Some (u32 (zsum (take i [2; 0; 2; 0])))).
Proof.
  apply (arrange_fine_clusters_maxima 4 10 [5; 0; 5; 0] 5 2 [2; 0; 2; 0] [0; 2; 2; 4; 4]).
  vm_compute. reflexivity.
Defined.

(** *** balancing_em_iters: the number of rounds *)

Section BudgetFacts.
Import Kmeans.
Context {F : Type} {FO : FloatOps F} {FL : FloatLimits F}.
Context {T : Type} (mapping : T -> F) (is_float : bool).
Variables (p n0 : Z).
Hypothesis Hp : 2 <= p < 2 ^ 32 - 1.
Hypothesis Hn0 : 0 <= n0.
Hypothesis Hbound : round_bound p n0 + 1 < 2 ^ 32.

Lemma budget_inv_bound (st : em_state (F := F)) :
  budget_inv p n0 st -> em_n_iters st <= round_bound p n0.
Proof.
  intros (Hc & Hiter & Hn & Hreb). unfold round_bound.
  apply Z.div_le_lower_bound; [lia|].
  destruct (Z.max_spec (em_iter st - 1) 0) as [[_ Hmax]|[_ Hmax]]; rewrite Hmax in Hreb; nia.
Qed.

Lemma balancing_step_budget (st : em_state (F := F)) :
  budget_inv p n0 st -> 1 <= em_iter st < em_n_iters st ->
  let '(counter, n_iters, _) :=
    balancing_step (em_balancing_counter st) p (em_n_iters st) in
  1 <= counter <= p /\ em_n_iters st <= n_iters <= em_n_iters st + 1 /\
  p * (n_iters - n0) - (p - counter) <= em_iter st.
Proof.
  intros Hinv Hiter. pose proof (budget_inv_bound st Hinv) as Hb.
  destruct Hinv as (Hc & _ & Hn & Hreb).
  rewrite Z.max_l in Hreb by lia.
  unfold balancing_step.
  rewrite (u32_small (em_balancing_counter st + 1)) by lia.
  destruct (Z.leb_spec p (em_balancing_counter st)) as [Hfull|Hpart].
  - rewrite (u32_small (em_balancing_counter st + 1 - p)) by lia.
    rewrite (u32_small (em_n_iters st + 1)) by lia. nia.
  - nia.
Qed.

Lemma em_iteration_budget fuel ptrs dim K (dataset : list (list T)) dataset_norm n_rows
    metric thr (st : em_state (F := F)) :
  budget_inv p n0 st -> em_iter st < em_n_iters st ->
  let res :=
    em_iteration mapping is_float fuel ptrs dim K dataset dataset_norm n_rows metric p thr
      st in
  (length (fst res) <= 1)%nat /\
  forall st', snd res = Ok st' ->
    length (fst res) = 1%nat /\ budget_inv p n0 st' /\ em_iter st' = em_iter st + 1.
Proof.
  intros Hinv Hiter res. subst res. unfold em_iteration.
  pose proof (budget_inv_bound st Hinv) as Hb.
  assert (Hnext : u32 (em_iter st + 1) = em_iter st + 1).
  { destruct Hinv as (_ & ? & _). apply u32_small. lia. }
  assert (Hquiet : budget_inv p n0
            (mk_em_state (em_iter st + 1) (em_n_iters st) (em_balancing_counter st)
               (em_centers st) (em_labels st) (em_sizes st) (em_static st))).
  { destruct Hinv as (Hc & Hi & Hn & Hreb). repeat split; cbn; try lia. }
  destruct (0 <? em_iter st) eqn:Hran.
  - apply Z.ltb_lt in Hran.
    destruct (adjust_centers _ _ _ _ _ _ _ _ _ _ _ _) as [[[centers adjusted] static]|e|];
      [|split; [cbn; lia|discriminate]..].
    destruct adjusted.
    + pose proof (balancing_step_budget st Hinv ltac:(lia)) as Hstep.
      destruct (balancing_step (em_balancing_counter st) p (em_n_iters st))
        as [[counter n_iters] extended].
      cbn [fst snd length]. split; [lia|]. intros st'.
      destruct (predict _ _ _ _ _ _ _ _ _ _ _) as [labels| |]; cbn [bind]; try discriminate.
      destruct (calc_centers_and_sizes _ _ _ _ _ _ _ _) as [centers' sizes'].
      intros [= <-]. cbn [em_iter]. rewrite Hnext. split; [reflexivity|].
      split; [|reflexivity].
      destruct Hinv as (_ & Hi & Hn & _). repeat split; cbn; lia.
    + cbn [fst snd length]. split; [lia|]. intros st'.
      destruct (predict _ _ _ _ _ _ _ _ _ _ _) as [labels| |]; cbn [bind]; try discriminate.
      destruct (calc_centers_and_sizes _ _ _ _ _ _ _ _) as [centers' sizes'].
      intros [= <-]. cbn [em_iter]. rewrite Hnext. split; [reflexivity|].
      split; [|reflexivity].
      destruct Hquiet as (Hc & Hi & Hn & Hreb). repeat split; cbn in *; lia.
  - cbn [fst snd length]. split; [lia|]. intros st'.
    destruct (predict _ _ _ _ _ _ _ _ _ _ _) as [labels| |]; cbn [bind]; try discriminate.
    destruct (calc_centers_and_sizes _ _ _ _ _ _ _ _) as [centers' sizes'].
    intros [= <-]. cbn [em_iter]. rewrite Hnext. split; [reflexivity|].
    split; [|reflexivity].
    destruct Hquiet as (Hc & Hi & Hn & Hreb). repeat split; cbn in *; lia.
Qed.

Lemma em_loop_budget rounds fuel ptrs dim K (dataset : list (list T)) dataset_norm n_rows
    metric thr :
  forall st : em_state (F := F),
    budget_inv p n0 st ->
    let res :=
      em_loop mapping is_float rounds fuel ptrs dim K dataset dataset_norm n_rows metric
        p thr st in
    Z.of_nat (length (fst res)) + em_iter st <= round_bound p n0 /\
    forall st', snd res = Ok st' ->
      Z.of_nat (length (fst res)) + em_iter st = em_n_iters st' /\
      em_iter st' = em_n_iters st' /\ n0 <= em_n_iters st'.
Proof.
  induction rounds as [|rounds IH]; intros st Hinv res; subst res.
  - pose proof (budget_inv_bound st Hinv). destruct Hinv as (_ & ? & _).
    cbn. split; [lia|discriminate].
  - cbn [em_loop]. pose proof (budget_inv_bound st Hinv) as Hb.
    destruct (Z.ltb_spec (em_iter st) (em_n_iters st)) as [Hlt|Hge].
    + pose proof (em_iteration_budget fuel ptrs dim K dataset dataset_norm n_rows metric
                    thr st Hinv Hlt) as [Hlen Hok].
      destruct (em_iteration _ _ _ _ _ _ _ _ _ _ _ _ st) as [log r].
      cbn [fst snd] in Hlen, Hok.
      destruct r as [st1|e|].
      * destruct (Hok st1 eq_refl) as (Hone & Hinv1 & Hiter1).
        specialize (IH st1 Hinv1). cbv zeta in IH.
        destruct (em_loop _ _ rounds _ _ _ _ _ _ _ _ _ _ st1) as [log' r'].
        cbn [fst snd] in IH |- *. rewrite length_app, Hone.
        destruct IH as [IHlen IHok]. split; [lia|].
        intros st' Hst'. destruct (IHok st' Hst') as (? & ? & ?). repeat split; lia.
      * cbn [fst snd]. split; [lia|discriminate].
      * cbn [fst snd]. split; [lia|discriminate].
    + cbn [fst snd length]. destruct Hinv as (_ & Hi & Hn & _).
      split; [lia|]. intros st' [= <-]. repeat split; lia.
Qed.


End BudgetFacts.


(** *** adjust_centers: the returned flag *)

Section FlagFacts.
Import Kmeans.
Context {F : Type} {FO : FloatOps F} {T : Type} (mapping : T -> F).
Variables (fuel dim : nat) (dataset : list (list T)) (n_rows : Z)
          (labels sizes : list Z) (threshold : F) (average ofst : Z).

Local Abbreviation small := (is_small sizes average threshold).

Lemma adjust_host_flag (ls : list nat) :
  forall cur i adjusted cur' i' adjusted',
    adjust_host mapping fuel ls dim dataset n_rows labels sizes threshold average ofst
      (cur, i, adjusted) = Ok (cur', i', adjusted') ->
    adjusted' = adjusted || existsb small ls /\
    (existsb small ls = false -> cur' = cur).
Proof.
  induction ls as [|l ls IH]; intros cur i adjusted cur' i' adjusted' Hrun.
  - cbn in Hrun. injection Hrun as <- <- <-. cbn. rewrite orb_false_r. split; reflexivity.
  - cbn [adjust_host] in Hrun. cbn [existsb]. unfold is_small at 1 3.
    destruct (is_big (rd 0 sizes (Z.of_nat l)) average threshold); cbn [negb orb].
    + apply (IH _ _ _ _ _ _ Hrun).
    + destruct (probe_host fuel i ofst n_rows labels sizes average) as [i1|e|];
        cbn [bind] in Hrun; try discriminate Hrun.
      destruct (IH _ _ _ _ _ _ Hrun) as [-> _]. rewrite orb_true_r.
      split; [reflexivity|discriminate].
Qed.

Lemma probe_device_count (fuel' : nat) :
  forall count i count',
    0 <= count -> count + Z.of_nat fuel' < 2 ^ 32 ->
    probe_device fuel' count ofst n_rows labels sizes average = Ok (i, count') ->
    count < count' <= count + Z.of_nat fuel'.
Proof.
  induction fuel' as [|f IH]; intros count i count' Hc Hwrap Hrun; [discriminate Hrun|].
  cbn [probe_device] in Hrun. rewrite (u32_small (count + 1)) in Hrun by lia.
  destruct (rd 0 sizes (rd 0 labels ((ofst * (count + 1)) mod n_rows)) <? average).
  - specialize (IH (count + 1) i count' ltac:(lia) ltac:(lia) Hrun). lia.
  - injection Hrun as _ <-. lia.
Qed.

Lemma adjust_centers_kernel_flag (ls : list nat) :
  forall cur count cur' count',
    0 <= count -> count + Z.of_nat fuel * Z.of_nat (length ls) < 2 ^ 32 ->
    adjust_centers_kernel mapping fuel ls dim dataset n_rows labels sizes threshold
      average ofst (cur, count) = Ok (cur', count') ->
    count <= count' <= count + Z.of_nat fuel * Z.of_nat (length ls) /\
    (count <? count') = existsb small ls /\
    (existsb small ls = false -> cur' = cur).
Proof.
  induction ls as [|l ls IH]; intros cur count cur' count' Hc Hwrap Hrun.
  - cbn in Hrun. injection Hrun as <- <-. cbn. rewrite Z.ltb_irrefl.
    split; [lia|]. split; reflexivity.
  - cbn [adjust_centers_kernel] in Hrun. cbn [existsb]. rewrite length_cons in *.
    unfold is_small at 1 3.
    destruct (is_big (rd 0 sizes (Z.of_nat l)) average threshold); cbn [negb orb].
    + rewrite Nat2Z.inj_succ in *.
      destruct (IH _ count _ _ Hc ltac:(nia) Hrun) as (Hrange & Hflag & Hsame).
      split; [nia|]. split; assumption.
    + destruct (probe_device fuel count ofst n_rows labels sizes average)
        as [[i1 count1]|e|] eqn:Hprobe; cbn [bind] in Hrun; try discriminate Hrun.
      pose proof (probe_device_count fuel count i1 count1 Hc ltac:(nia) Hprobe) as Hcount.
      rewrite Nat2Z.inj_succ in *.
      destruct (IH _ count1 _ _ ltac:(lia) ltac:(nia) Hrun) as (Hrange & _ & _).
      split; [nia|]. split; [apply Z.ltb_lt; lia|discriminate].
Qed.

End FlagFacts.

Section FlagTheorem.
Import Kmeans.
Context {F : Type} {FO : FloatOps F} {T : Type} (mapping : T -> F).
Variables (fuel dim : nat) (dataset : list (list T)) (n_rows : Z)
          (labels sizes : list Z) (threshold : F).

(** X17: whenever [adjust_centers] returns, its flag is set exactly when
    some cluster is not bigger than the threshold; when it is not set, the
    centers are the ones that were passed in. *)
Theorem adjust_centers_flag (static : adjust_static) (ptrs : list Utils.cudaMemoryType)
    (centers : list (list F)) (K : nat) centers' (adjusted : bool) static' :
  Z.of_nat fuel * Z.of_nat K < 2 ^ 32 ->
  adjust_centers mapping fuel static ptrs centers K dim dataset n_rows labels sizes
    threshold = Ok (centers', adjusted, static') ->
  (adjusted = true <->
   exists l, (l < K)%nat /\
     is_big (rd 0 sizes (Z.of_nat l)) (u32 (n_rows / Z.of_nat K)) threshold = false) /\
  (adjusted = false -> centers' = centers).
Proof.
  intros Hwrap. unfold adjust_centers.
  assert (Hexists : forall avg,
    existsb (is_small sizes avg threshold) (seq 0 K) = true <->
    exists l, (l < K)%nat /\ is_big (rd 0 sizes (Z.of_nat l)) avg threshold = false).
  { intros avg. rewrite existsb_exists. split.
    - intros (l & Hl & Hsmall). apply in_seq in Hl. exists l. split; [lia|].
      apply negb_true_iff. exact Hsmall.
    - intros (l & Hl & Hsmall). exists l. split; [apply in_seq; lia|].
      apply negb_true_iff. exact Hsmall. }
  destruct (Nat.eqb_spec K 0) as [->|HK].
  - intros [= <- <- <-]. split; [|reflexivity]. split; [discriminate|].
    intros (l & Hl & _). lia.
  - destruct (choose_ofst fuel (static_i_primes static) n_rows) as [[i_primes ofst']|e|];
      cbn [bind]; try discriminate.
    destruct (Utils.check_pointer_residency ptrs); try discriminate.
    + destruct (adjust_centers_kernel _ _ _ _ _ _ _ _ _ _ _ _) as [[cur count]|e|] eqn:Hrun;
        cbn [bind]; try discriminate.
      intros [= <- <- <-].
      destruct (adjust_centers_kernel_flag mapping fuel dim dataset n_rows labels sizes
                  threshold _ ofst' (seq 0 K) centers 0 cur count
                  ltac:(lia) ltac:(rewrite length_seq; lia) Hrun) as (_ & Hflag & Hsame).
      rewrite Hflag. split; [apply Hexists|].
      intros Hnone. apply Hsame. exact Hnone.
    + destruct (adjust_host _ _ _ _ _ _ _ _ _ _ _ _) as [[[cur i] adj]|e|] eqn:Hrun;
        cbn [bind]; try discriminate.
      intros [= <- <- <-].
      destruct (adjust_host_flag mapping fuel dim dataset n_rows labels sizes threshold
                  _ ofst' (seq 0 K) centers _ false cur i adj Hrun) as (Hflag & Hsame).
      rewrite Hflag. cbn [orb]. split; [apply Hexists|].
      intros Hnone. apply Hsame. exact Hnone.
    + destruct (adjust_centers_kernel _ _ _ _ _ _ _ _ _ _ _ _) as [[cur count]|e|] eqn:Hrun;
        cbn [bind]; try discriminate.
      intros [= <- <- <-].
      destruct (adjust_centers_kernel_flag mapping fuel dim dataset n_rows labels sizes
                  threshold _ ofst' (seq 0 K) centers 0 cur count
                  ltac:(lia) ltac:(rewrite length_seq; lia) Hrun) as (_ & Hflag & Hsame).
      rewrite Hflag. split; [apply Hexists|].
      intros Hnone. apply Hsame. exact Hnone.
Qed.

End FlagTheorem.

Lemma adjust_centers_flag_witness :
  (true = true <->
   exists l, (l < 2)%nat /\
     Kmeans.is_big (rd 0 (Kmeans.countLabels lone_row_labels 2) (Z.of_nat l))
       (u32 (8 / Z.of_nat 2)) (f_div f_one (f_of_Z 4) : spec_float) = false) /\
  (true = false -> [[Binary32.of_Z 2]; [Binary32.of_Z 2]] = lone_row_centers).
Proof.
  apply (adjust_centers_flag (F := spec_float) Mapping.of_float 48 1 lone_row_dataset 8
           lone_row_labels (Kmeans.countLabels lone_row_labels 2) (f_div f_one (f_of_Z 4))
           (Kmeans.mk_static 0 0) host_pointers lone_row_centers 2
           [[Binary32.of_Z 2]; [Binary32.of_Z 2]] true (Kmeans.mk_static 6 1)).
  - lia.
  - vm_compute. reflexivity.
Defined.

(** *** predict: the minibatches *)

Section BatchFacts.
Import Kmeans.
Context {F : Type} {FO : FloatOps F} {FL : FloatLimits F}.

Lemma take_add_drop {A} (l : list A) (a b : nat) :
  take (a + b) l = take a l ++ take b (drop a l).
Proof.
  rewrite <- (take_drop a (take (a + b) l)).
  rewrite take_take, Nat.min_l by lia. rewrite take_drop_commute. reflexivity.
Qed.

(** A call on a slice of the rows gives the slice of the labels of a call on
    all the rows. *)
Lemma predict_float_core_slice centers (K : nat) (D : list (list F))
    (norms norms' : option (list F)) (metric : DistanceType) (off s : nat) :
  supported metric = true -> (off + s <= length D)%nat ->
  (is_L2 metric = true ->
   forall i, (i < s)%nat -> default [] norms' !! i = default [] norms !! (off + i)%nat) ->
  exists full,
    predict_float_core centers K D norms (length D) metric = Ok full /\
    length full = length D /\
    predict_float_core centers K (take s (drop off D)) norms' s metric
    = Ok (take s (drop off full)).
Proof.
  intros Hm Hfit Hnorms.
  assert (Hl2 : forall sqrt : bool,
    is_L2 metric = true ->
    exists full,
      Ok (fst <$> fusedL2NNMinReduce (replicate (length D) (0, float_max)) D centers
                    (default [] norms) (rowNorm centers) sqrt) = Ok full /\
      length full = length D /\
      Ok (fst <$> fusedL2NNMinReduce (replicate s (0, float_max)) (take s (drop off D))
                    centers (default [] norms') (rowNorm centers) sqrt)
      = Ok (take s (drop off full))).
  { intros sqrt HL2. eexists. split; [reflexivity|]. split.
    - unfold fusedL2NNMinReduce. rewrite length_fmap, length_imap, length_replicate.
      reflexivity.
    - f_equal. apply list_eq. intros i. unfold fusedL2NNMinReduce.
      destruct (Nat.lt_ge_cases i s) as [Hi|Hi].
      + rewrite lookup_take_lt, lookup_drop by exact Hi.
        rewrite !list_lookup_fmap, !list_lookup_imap.
        rewrite (lookup_replicate_2 _ _ _ Hi).
        rewrite (lookup_replicate_2 (length D) _ (off + i)) by lia.
        cbn [fmap option_fmap option_map].
        rewrite lookup_take_lt, lookup_drop by exact Hi.
        rewrite (Hnorms HL2 i Hi). reflexivity.
      + rewrite lookup_take_ge by exact Hi.
        apply lookup_ge_None_2.
        rewrite length_fmap, length_imap, length_replicate. exact Hi. }
  destruct metric; try discriminate Hm.
  - apply (Hl2 false). reflexivity.
  - apply (Hl2 true). reflexivity.
  - cbn [predict_float_core]. eexists. split; [reflexivity|]. split.
    + unfold Utils.argmin_along_rows, gemm. rewrite !length_fmap, length_take. lia.
    + f_equal. rewrite firstn_all.
      rewrite (take_ge (take s (drop off D))) by (rewrite length_take, length_drop; lia).
      unfold Utils.argmin_along_rows, gemm.
      rewrite <- !fmap_drop, <- !fmap_take. reflexivity.
Qed.

End BatchFacts.

Section BatchTheorem.
Import Kmeans.
Context {F : Type} {FO : FloatOps F} {FL : FloatLimits F}.
Context {T : Type} (mapping : T -> F) (is_float : bool).
Variables (centers : list (list F)) (K : nat) (dataset : list (list T)) (n_rows : Z)
          (metric : DistanceType) (dataset_norm : option (list F)) (mb : Z)
          (labels0 full : list Z).
Hypothesis Hmetric : supported metric = true.
Hypothesis Hrows : Z.of_nat (length dataset) = n_rows.
Hypothesis Hlabels : length labels0 = length dataset.
Hypothesis Hnorms : norms_fit dataset dataset_norm.
Hypothesis Hmb : 0 < mb.
Hypothesis Hfull :
  predict_float_core centers K (converted mapping dataset)
    (whole_norms mapping metric dataset dataset_norm) (length dataset) metric = Ok full.

Lemma predict_minibatch_slice (off s : nat) :
  (off + s <= length dataset)%nat ->
  predict_float_core centers K
    ((fun row : list T => mapping <$> row) <$> take s (drop off dataset))
    (if match dataset_norm with None => is_L2 metric | Some _ => false end
     then Some (rowNorm ((fun row : list T => mapping <$> row)
                           <$> take s (drop off dataset)))
     else drop off <$> dataset_norm)
    s metric
  = Ok (take s (drop off full)) /\ length full = length dataset.
Proof.
  intros Hfit.
  destruct (predict_float_core_slice centers K (converted mapping dataset)
              (whole_norms mapping metric dataset dataset_norm)
              (if match dataset_norm with None => is_L2 metric | Some _ => false end
               then Some (rowNorm ((fun row : list T => mapping <$> row)
                                     <$> take s (drop off dataset)))
               else drop off <$> dataset_norm)
              metric off s Hmetric)
    as (full' & Hrun & Hlen & Hslice).
  - unfold converted. rewrite length_fmap. exact Hfit.
  - intros HL2 i Hi. unfold whole_norms.
    destruct dataset_norm as [norms|]; cbn [fmap option_fmap option_map].
    + change (default [] (Some (drop off norms))) with (drop off norms).
      change (default [] (Some norms)) with norms. apply lookup_drop.
    + rewrite HL2.
      change (default [] (Some ?l)) with l.
      unfold rowNorm, converted. rewrite !fmap_take, !fmap_drop.
      rewrite lookup_take_lt, lookup_drop by exact Hi. reflexivity.
  - assert (Hlenc : length (converted mapping dataset) = length dataset)
      by (unfold converted; apply length_fmap).
    rewrite Hlenc in Hrun, Hlen. rewrite Hfull in Hrun. injection Hrun as <-.
    unfold converted in Hslice.
    rewrite <- fmap_drop, <- fmap_take in Hslice. split; [exact Hslice|exact Hlen].
Qed.

Lemma predict_loop_batches (fuel : nat) :
  forall (offset : Z) (labels : list Z),
    0 <= offset -> Z.max 0 (n_rows - offset) < Z.of_nat fuel ->
    labels = take (Z.to_nat (Z.min offset n_rows)) full
             ++ drop (Z.to_nat (Z.min offset n_rows)) labels0 ->
    predict_loop mapping fuel centers K dataset n_rows metric dataset_norm mb offset labels
    = Ok full.
Proof.
  pose proof (predict_minibatch_slice 0 0 ltac:(lia)) as [_ Hlen].
  induction fuel as [|fuel IH]; intros offset labels Hoff Hfuel Hinv; [lia|].
  cbn [predict_loop].
  destruct (Z.ltb_spec offset n_rows) as [Hlt|Hge].
  - set (s := Z.to_nat (Z.min mb (n_rows - offset))).
    destruct (predict_minibatch_slice (Z.to_nat offset) s ltac:(lia)) as [-> _].
    cbn [bind]. apply IH; [lia|lia|].
    rewrite Z.min_l in Hinv by lia.
    replace (Z.to_nat (Z.min (offset + mb) n_rows)) with (Z.to_nat offset + s)%nat by lia.
    unfold write_at. rewrite length_take, length_drop.
    replace (Nat.min s (length full - Z.to_nat offset)) with s by lia.
    rewrite Hinv.
    rewrite take_app_le by (rewrite length_take; lia).
    rewrite take_take, Nat.min_id.
    rewrite drop_app_ge by (rewrite length_take; lia).
    rewrite length_take, drop_drop.
    replace (Z.to_nat offset + (Z.to_nat offset + s - Nat.min (Z.to_nat offset) (length full)))%nat
      with (Z.to_nat offset + s)%nat by lia.
    rewrite take_add_drop, <- app_assoc. reflexivity.
  - rewrite Z.min_r in Hinv by lia.
    rewrite take_ge, drop_ge, app_nil_r in Hinv by lia. rewrite Hinv. reflexivity.
Qed.

End BatchTheorem.

Section BatchClaim.
Import Kmeans.
Context {F : Type} {FO : FloatOps F} {FL : FloatLimits F}.
Context {T : Type} (mapping : T -> F) (is_float : bool).

(** X18: the labels [predict] writes do not depend on the minibatches: with
    a supported metric they are the labels of one call of
    [predict_float_core] on the whole converted dataset. *)
Theorem predict_minibatches (fuel : nat) (centers : list (list F)) (K : nat) (dim : Z)
    (dataset : list (list T)) (n_rows : Z) (labels : list Z) (metric : DistanceType)
    (dataset_norm : option (list F)) :
  supported metric = true ->
  Z.of_nat (length dataset) = n_rows -> length labels = length dataset ->
  norms_fit dataset dataset_norm ->
  0 <= dim -> mem_per_row is_float (Z.of_nat K) dim metric <= 2 ^ 30 ->
  n_rows < Z.of_nat fuel ->
  predict mapping is_float fuel centers K dim dataset n_rows labels metric dataset_norm
  = predict_float_core centers K (converted mapping dataset)
      (whole_norms mapping metric dataset dataset_norm) (length dataset) metric.
Proof.
  intros Hmetric Hrows Hlabels Hnorms Hdim Hmem Hfuel.
  destruct (predict_float_core_slice centers K (converted mapping dataset)
              (whole_norms mapping metric dataset dataset_norm)
              (whole_norms mapping metric dataset dataset_norm) metric 0 0 Hmetric
              ltac:(lia) ltac:(intros _ i Hi; lia)) as (full & Hfull & Hlen & _).
  assert (Hlenc : length (converted mapping dataset) = length dataset)
    by (unfold converted; apply length_fmap).
  rewrite Hlenc in Hfull, Hlen. rewrite Hfull. unfold predict.
  destruct (decide (n_rows = 0)) as [Hzero|Hpos].
  - destruct fuel as [|fuel']; [lia|]. cbn [predict_loop]. rewrite Hzero.
    cbn [Z.ltb Z.compare]. f_equal.
    destruct labels; [|cbn in Hlabels; lia]. destruct full; [reflexivity|cbn in Hlen; lia].
  - pose proof (calc_minibatch_size_positive is_float (Z.of_nat K) n_rows dim metric
                  Hdim ltac:(lia) Hmem) as Hmb.
    apply (predict_loop_batches mapping centers K dataset n_rows metric dataset_norm _
             labels full Hmetric Hrows Hlabels Hnorms Hmb).
    + exact Hfull.
    + lia.
    + lia.
    + rewrite Z.min_l by lia. reflexivity.
Qed.

End BatchClaim.

Lemma predict_minibatches_witness :
  Kmeans.predict Mapping.of_float true 3 line_centers 2 1 line_rows 2 [0; 0]
    InnerProduct None
  = Kmeans.predict_float_core line_centers 2 (converted Mapping.of_float line_rows)
      (whole_norms Mapping.of_float InnerProduct line_rows None) (length line_rows)
      InnerProduct.
Proof.
  apply (predict_minibatches (F := spec_float) Mapping.of_float true 3 line_centers 2 1
           line_rows 2 [0; 0] InnerProduct None).
  - reflexivity.
  - reflexivity.
  - reflexivity.
  - exact I.
  - lia.
  - vm_compute. discriminate.
  - lia.
Defined.

(** *** calc_centers_and_sizes: the mean of a cluster *)

Section MeanFacts.
Import Kmeans.
Context {T : Type} (mapping : T -> R).
Local Open Scope R_scope.

Lemma column_sum_snoc (rows : list (list T * Z)) (rl : list T * Z) (k j : nat) :
  column_sum mapping (rows ++ [rl]) k j
  = column_sum mapping rows k j
    + (if decide (snd rl = Z.of_nat k) then default 0 ((mapping <$> fst rl) !! j) else 0).
Proof.
  unfold column_sum. rewrite fmap_app, Rsum_app. cbn [fmap list_fmap].
  rewrite Rsum_cons. cbn [Rsum foldr]. lra.
Qed.

Lemma reduce_fold_sums (rows : list (list T * Z)) (K dim k : nat) :
  (k < K)%nat ->
  foldl (reduce_round mapping) (replicate K (replicate dim 0)) rows !! k
  = Some ((fun j => column_sum mapping rows k j) <$> seq 0 dim).
Proof.
  intros Hk. induction rows as [|[row l] rows IH] using rev_ind.
  - cbn [foldl]. rewrite lookup_replicate_2 by exact Hk. f_equal.
    apply list_eq. intros j. rewrite list_lookup_fmap.
    destruct (Nat.lt_ge_cases j dim) as [Hj|Hj].
    + rewrite lookup_replicate_2, lookup_seq_lt by exact Hj. reflexivity.
    + rewrite lookup_seq_ge by lia. apply lookup_ge_None_2.
      rewrite length_replicate. exact Hj.
  - rewrite foldl_app. cbn [foldl]. unfold reduce_round at 1.
    assert (Hext : forall c : list R,
              c = (fun j => column_sum mapping rows k j) <$> seq 0 dim ->
              l <> Z.of_nat k ->
              c = (fun j => column_sum mapping (rows ++ [(row, l)]) k j) <$> seq 0 dim).
    { intros c -> Hne. apply list_fmap_ext. intros i j _.
      rewrite column_sum_snoc. cbn [snd]. rewrite decide_False by exact Hne. lra. }
    destruct (Z.ltb_spec l 0) as [Hneg|Hpos].
    + rewrite IH. f_equal. apply Hext; [reflexivity|lia].
    + destruct (decide (Z.to_nat l = k)) as [Heq|Hne].
      * rewrite Heq, list_lookup_alter_eq, IH.
        cbn [fmap option_fmap option_map]. f_equal. unfold add_row.
        apply list_eq. intros j. rewrite list_lookup_imap, !list_lookup_fmap.
        destruct (seq 0 dim !! j) as [j'|] eqn:Hj; [|reflexivity].
        apply lookup_seq in Hj as [-> _]. cbn [fmap option_fmap option_map]. f_equal.
        rewrite column_sum_snoc. cbn [fst snd Nat.add]. rewrite decide_True by lia.
        rewrite list_lookup_fmap.
        destruct (row !! j) as [x|]; cbn [fmap option_fmap option_map]; [reflexivity|].
        change (default 0 None) with 0. lra.
      * rewrite list_lookup_alter_ne by exact Hne. rewrite IH. f_equal.
        apply Hext; [reflexivity|lia].
Qed.

(** X19: in exact arithmetic, after a pass with the counters reset the
    center of a cluster that has rows is their mean: in every column the sum
    over the rows labelled with the cluster, divided by their number. *)
Theorem calc_centers_and_sizes_mean centers sizes (K dim : nat) (dataset : list (list T))
    (labels : list Z) (k : nat) :
  length dataset = length labels -> (Z.of_nat (length labels) < 2 ^ 32)%Z ->
  (k < K)%nat -> (0 < count_label labels k)%Z ->
  fst (calc_centers_and_sizes mapping centers sizes K dim dataset labels true) !! k
  = Some ((fun j => column_sum mapping (zip dataset labels) k j
                    / IZR (count_label labels k)) <$> seq 0 dim).
Proof.
  intros _ Hsmall Hk Hcount.
  rewrite calc_centers_eq, lookup_matrixVectorOp, reduce_rows_by_key_eq.
  cbn [negb]. rewrite (reduce_fold_sums _ K dim k Hk).
  rewrite list_lookup_fmap, new_sizes_lookup by exact Hk.
  cbn [negb fmap option_fmap option_map]. f_equal.
  pose proof (count_label_range labels k) as Hrange.
  rewrite u32_small by lia.
  rewrite <- list_fmap_compose. apply list_fmap_ext. intros i j _. cbn.
  unfold divide_guarded. cbn.
  rewrite bool_decide_false; [reflexivity|].
  apply not_0_IZR. lia.
Qed.

End MeanFacts.

Lemma calc_centers_and_sizes_mean_witness :
  fst (Kmeans.calc_centers_and_sizes (fun x : R => x) [] [] 2 1
         [[3%R]; [4%R]; [9%R]] [0; 1; 0] true) !! 0%nat
  = Some ((fun j => Rdiv (column_sum (fun x : R => x)
                            (zip [[3%R]; [4%R]; [9%R]] [0; 1; 0]) 0 j)
                         (IZR (count_label [0; 1; 0] 0))) <$> seq 0 1).
Proof.
  apply (calc_centers_and_sizes_mean (fun x : R => x) [] [] 2 1 [[3%R]; [4%R]; [9%R]]
           [0; 1; 0] 0).
  - reflexivity.
  - simpl. lia.
  - lia.
  - vm_compute. reflexivity.
Defined.

(** *** argmin_along_rows: the size of the block *)

Section BlockDimFacts.
Import Utils.

(** X20: the block of [argmin_along_rows] has 128, 256, 512 or 1024 threads,
    never more than the 1024 entries of the shared arrays: the largest power
    of two that is at most [n_cols], kept between 128 and 1024. *)
Theorem argmin_block_dim_choice (n_cols : nat) :
  let block_dim := argmin_block_dim n_cols in
  (block_dim = 128 \/ block_dim = 256 \/ block_dim = 512 \/ block_dim = 1024)%nat /\
  (128 < block_dim -> block_dim <= n_cols)%nat /\
  (block_dim < 1024 -> n_cols < 2 * block_dim)%nat.
Proof.
  unfold argmin_block_dim, halve_block_dim.
  repeat match goal with
         | |- context [(n_cols <? ?b)%nat] => destruct (Nat.ltb_spec n_cols b)
         end;
    cbn in *; lia.
Qed.

End BlockDimFacts.

(** *** balancing_em_iters: the sizes at the end *)

Section SizesFacts.
Import Kmeans.
Context {F : Type} {FO : FloatOps F} {FL : FloatLimits F}.
Context {T : Type} (mapping : T -> F) (is_float : bool).

Lemma take_countLabels labels (K : nat) (rest : list Z) :
  take K (countLabels labels K ++ rest) = countLabels labels K.
Proof.
  rewrite take_app_le by (rewrite length_countLabels; lia).
  apply take_ge. rewrite length_countLabels. lia.
Qed.

Lemma em_iteration_sizes fuel ptrs dim K (dataset : list (list T)) dataset_norm n_rows
    metric p thr (st st' : em_state (F := F)) :
  snd (em_iteration mapping is_float fuel ptrs dim K dataset dataset_norm n_rows metric p
         thr st) = Ok st' ->
  sizes_match K st'.
Proof.
  unfold em_iteration.
  destruct (if 0 <? em_iter st then _ else _) as [[[centers adjusted] static]|e|];
    cbn [snd]; try discriminate.
  destruct (if adjusted then _ else _) as [[counter n_iters] extended]. cbn [snd].
  destruct (predict _ _ _ _ _ _ _ _ _ _ _) as [labels| |]; cbn [bind]; try discriminate.
  pose proof (calc_sizes_reset mapping
                (if normalizes metric then Utils.normalize_rows K dim centers else centers)
                (em_sizes st) K dim dataset labels) as Hsizes.
  destruct (calc_centers_and_sizes _ _ _ _ _ _ _ _) as [centers' sizes'].
  cbn [snd] in Hsizes. intros [= <-]. unfold sizes_match. cbn [em_sizes em_labels].
  rewrite Hsizes. apply take_countLabels.
Qed.

Lemma em_loop_sizes rounds fuel ptrs dim K (dataset : list (list T)) dataset_norm n_rows
    metric p thr :
  forall st st' : em_state (F := F),
    snd (em_loop mapping is_float rounds fuel ptrs dim K dataset dataset_norm n_rows metric
           p thr st) = Ok st' ->
    st' = st \/ sizes_match K st'.
Proof.
  induction rounds as [|rounds IH]; intros st st' Hrun; [discriminate Hrun|].
  cbn [em_loop] in Hrun.
  destruct (em_iter st <? em_n_iters st).
  - pose proof (em_iteration_sizes fuel ptrs dim K dataset dataset_norm n_rows metric p thr
                  st) as Hstep.
    destruct (em_iteration _ _ _ _ _ _ _ _ _ _ _ _ st) as [log r]. cbn [snd] in Hstep.
    destruct r as [st1|e|]; cbn [snd] in Hrun; try discriminate Hrun.
    specialize (Hstep st1 eq_refl). specialize (IH st1 st').
    destruct (em_loop _ _ rounds _ _ _ _ _ _ _ _ _ _ st1) as [log' r'].
    cbn [snd] in IH, Hrun. destruct (IH Hrun) as [->|Hmatch]; right; assumption.
  - cbn [snd] in Hrun. injection Hrun as <-. left. reflexivity.
Qed.

(** X21: when [balancing_em_iters] returns after at least one round was
    requested, the sizes it leaves are those of the labels it leaves: entry
    [k] is the number of rows labelled [k], as a [uint32_t]. *)
Theorem balancing_em_iters_sizes (fuel : nat) static ptrs n_iters (dim : nat)
    (dataset : list (list T)) dataset_norm n_rows (K : nat) centers labels sizes metric
    p thr (st : em_state (F := F)) :
  0 < n_iters ->
  snd (balancing_em_iters mapping is_float fuel static ptrs n_iters dim dataset dataset_norm
         n_rows K centers labels sizes metric p thr) = Ok st ->
  take K (em_sizes st) = countLabels (em_labels st) K.
Proof.
  intros Hn Hrun. unfold balancing_em_iters in Hrun. fold (sizes_match K st).
  destruct fuel as [|fuel']; [discriminate Hrun|].
  cbn [em_loop em_iter em_n_iters] in Hrun.
  rewrite (proj2 (Z.ltb_lt 0 n_iters) Hn) in Hrun.
  match type of Hrun with
  | context [em_iteration _ _ ?f ?pt ?d ?k ?ds ?dn ?n ?m ?pp ?t ?s] =>
      pose proof (em_iteration_sizes f pt d k ds dn n m pp t s) as Hstep;
      destruct (em_iteration mapping is_float f pt d k ds dn n m pp t s) as [log r]
  end.
  cbn [snd] in Hstep.
  destruct r as [st1|e|]; cbn [snd] in Hrun; try discriminate Hrun.
  specialize (Hstep st1 eq_refl).
  pose proof (em_loop_sizes fuel' (S fuel') ptrs dim K dataset dataset_norm n_rows metric p
                thr st1 st) as Hrest.
  destruct (em_loop _ _ fuel' _ _ _ _ _ _ _ _ _ _ st1) as [log' r'].
  cbn [snd] in Hrest, Hrun. destruct (Hrest Hrun) as [->|Hmatch]; assumption.
Qed.

End SizesFacts.

Lemma balancing_em_iters_sizes_witness :
  0 < 1 /\ take 2 [2; 2] = Kmeans.countLabels [0; 1; 0; 1] 2.
Proof.
  split; [lia|].
  apply (balancing_em_iters_sizes (F := spec_float) Mapping.of_float true
           50 (Kmeans.mk_static 0 0) host_pointers 1 1
           ((fun z => [Binary32.of_Z z]) <$> [1; 5; 1; 5]) None 4 2
           [[Binary32.of_Z 2]; [Binary32.of_Z 4]] [0; 0; 0; 0] [4; 0]
           L2Expanded 2 (f_div f_one (f_of_Z 4))
           (Kmeans.mk_em_state 1 1 2 [[Binary32.of_Z 1]; [Binary32.of_Z 5]] [0; 1; 0; 1]
              [2; 2] (Kmeans.mk_static 0 0))).
  - lia.
  - vm_compute. reflexivity.
Defined.

(** *** build_clusters: the sizes at the end *)

Section BuildFacts.
Import Kmeans.
Context {F : Type} {FO : FloatOps F} {FL : FloatLimits F}.
Context {T : Type} (mapping : T -> F) (is_float : bool).

(** X22: whatever the number of rounds, also none, the sizes [build_clusters]
    leaves are those of the labels it leaves: entry [k] is the number of rows
    labelled [k], as a [uint32_t]. *)
Theorem build_clusters_sizes (fuel : nat) static ptrs n_iters (dim : nat)
    (dataset : list (list T)) n_rows (K : nat) centers sizes metric dataset_norm
    (st : em_state (F := F)) :
  snd (build_clusters mapping is_float fuel static ptrs n_iters dim dataset n_rows K centers
         sizes metric dataset_norm) = Ok st ->
  take K (em_sizes st) = countLabels (em_labels st) K.
Proof.
  unfold build_clusters. destruct (negb _); [discriminate|].
  pose proof (calc_sizes_reset mapping centers sizes K dim dataset
                (init_labels (Z.to_nat n_rows) (Z.of_nat K))) as Hsizes.
  destruct (calc_centers_and_sizes _ _ _ _ _ _ _ _) as [centers0 sizes0].
  cbn [snd] in Hsizes. unfold balancing_em_iters. intros Hrun.
  destruct (em_loop_sizes _ _ _ _ _ _ _ _ _ _ _ _ _ _ _ Hrun) as [->|Hmatch];
    [|exact Hmatch].
  cbn [em_sizes em_labels]. rewrite Hsizes. apply take_countLabels.
Qed.

End BuildFacts.

Lemma build_clusters_sizes_witness :
  take 2 [2; 2] = Kmeans.countLabels [0; 1; 0; 1] 2.
Proof.
  apply (build_clusters_sizes (F := spec_float) Mapping.of_float true
           50 (Kmeans.mk_static 0 0) host_pointers 0 1
           ((fun z => [Binary32.of_Z z]) <$> [1; 5; 3; 7]) 4 2
           [[Binary32.of_Z 0]; [Binary32.of_Z 0]] [9; 9] L2Expanded None
           (Kmeans.mk_em_state 0 0 2 [[Binary32.of_Z 2]; [Binary32.of_Z 6]] [0; 1; 0; 1]
              [2; 2] (Kmeans.mk_static 0 0))).
  vm_compute. reflexivity.
Defined.
